(** * Nova Defense: the simulation core of [App.tsx]

    A shallow embedding of the game component (the variant with special
    ammunition types) and the properties of its frame loop.

    Numbers.  Coordinates, progress, life and speed are JavaScript numbers,
    that is IEEE 754 binary64 values: they are modelled by Rocq's primitive
    [float], whose [+ - * /], [sqrt], [abs] and comparisons are the same
    correctly rounded operations.  Counters that only ever hold integers
    (score, ammo, the drone's hover timer) are modelled by [Z].

    State.  The component keeps two kinds of state:
    - refs ([enemiesRef], [scoreRef], ...): plain mutable cells, read and
      written at once;
    - React state ([score], [gameState], [ammo], [isPaused]): a setter called
      from the frame callback or from an event handler queues an update; the
      component renders after the callback has returned, applies the queued
      updates in order, and then the effects copy [score], [gameState] and
      [isPaused] into their refs.  An updater function passed to a setter is
      called by that render, except when the component has no update queued
      at the time of the call: React then calls the updater at once, inside
      the setter, and the render takes the state it computed.  The language
      and the loading flag, which the simulation never reads, are left out.

    Drawing on the canvas is left out, except that [drawRocket] consumes one
    draw of [Math.random]. *)

From Stdlib Require Import ZArith List Bool String Lia RelationClasses.
From Stdlib Require Import Floats.
From Stdlib Require Uint63.
Import ListNotations.

Open Scope float_scope.

(** ** Constants and types *)

Definition WIN_SCORE : Z := 1000.
Definition EXPLOSION_RADIUS : float := 40.
Definition EXPLOSION_DURATION : float := 60.
Definition ENEMY_SPEED_BASE : float := 0x1.999999999999ap-1. (* 0.8 *)
Definition MISSILE_SPEED : float := 5.
Definition Math_PI : float := 0x1.921fb54442d18p+1.

(** The decimal constants of the source that are not binary64 values, each
    written as the binary64 value JavaScript reads it as. *)
Definition c0_015 : float := 0x1.eb851eb851eb8p-7.  (* 0.015 *)
Definition c0_02 : float := 0x1.47ae147ae147bp-6.   (* 0.02 *)
Definition c0_05 : float := 0x1.999999999999ap-5.   (* 0.05 *)
Definition c0_15 : float := 0x1.3333333333333p-3.   (* 0.15 *)
Definition c0_35 : float := 0x1.6666666666666p-2.   (* 0.35 *)
Definition c0_4 : float := 0x1.999999999999ap-2.    (* 0.4 *)
Definition c0_6 : float := 0x1.3333333333333p-1.    (* 0.6 *)
Definition c0_65 : float := 0x1.4cccccccccccdp-1.   (* 0.65 *)
Definition c0_85 : float := 0x1.b333333333333p-1.   (* 0.85 *)
Definition c0_95 : float := 0x1.e666666666666p-1.   (* 0.95 *)
Definition c0_98 : float := 0x1.f5c28f5c28f5cp-1.   (* 0.98 *)
Definition c0_1 : float := 0x1.999999999999ap-4.    (* 0.1 *)

Record EnemyRocket := mkEnemy {
  e_id : string;
  e_x : float;
  e_y : float;
  e_startX : float;
  e_startY : float;
  e_targetX : float;
  e_targetY : float;
  e_progress : float;
  e_speed : float
}.

Inductive MissileType := NORMAL | RARE | LIGHTNING | DRONE.

Record InterceptorMissile := mkMissile {
  m_id : string;
  m_x : float;
  m_y : float;
  m_startX : float;
  m_startY : float;
  m_targetX : float;
  m_targetY : float;
  m_progress : float;
  m_type : MissileType;
  m_hoverTimer : Z
}.

Record Explosion := mkExplosion {
  x_id : string;
  x_x : float;
  x_y : float;
  x_radius : float;
  x_maxRadius : float;
  x_life : float;
  x_isRare : bool
}.

Record City := mkCity {
  c_id : string;
  c_x : float;
  c_y : float;
  c_active : bool
}.

Record Battery := mkBattery {
  b_id : string;
  b_x : float;
  b_y : float;
  b_active : bool;
  b_ammo : Z;
  b_maxAmmo : Z
}.

Record Particle := mkParticle {
  p_id : string;
  p_x : float;
  p_y : float;
  p_vx : float;
  p_vy : float;
  p_life : float;
  p_color : string;
  p_size : float
}.

Inductive GameState := START | PLAYING | WIN | GAMEOVER.

Record Ammo := mkAmmo { left : Z; center : Z; right : Z }.

Definition INITIAL_AMMO : Ammo := mkAmmo 20 40 20.

Record Canvas := mkCanvas { width : float; height : float }.

(** The functions of the JavaScript host the simulation calls and that are
    not arithmetic: the cosine and sine (which ECMAScript leaves to the
    implementation), the conversion of a number to a string in a template
    literal, [Math.random().toString(36).substr(2, 9)], and the colour string
    of a particle. *)
Record Host := mkHost {
  Math_cos : float -> float;
  Math_sin : float -> float;
  numToString : float -> string;
  randomId : float -> string;
  particleColor : float -> string
}.

(** ** JavaScript arithmetic that is not a primitive of [float] *)

Definition GameState_eqb (a b : GameState) : bool :=
  match a, b with
  | START, START | PLAYING, PLAYING | WIN, WIN | GAMEOVER, GAMEOVER => true
  | _, _ => false
  end.

(** [Math.max] of two numbers: NaN when either is NaN, and [+0] above [-0]. *)
Definition Math_max (a b : float) : float :=
  if is_nan a || is_nan b then nan
  else if a <? b then b
  else if b <? a then a
  else if get_sign a then b else a.

(** The number an integer counter holds (integers below 2^63 in absolute
    value). *)
Definition floatOfZ (z : Z) : float :=
  if (z <? 0)%Z then - of_uint63 (Uint63.of_Z (- z)) else of_uint63 (Uint63.of_Z z).

Definition floatOfNat (n : nat) : float := floatOfZ (Z.of_nat n).

(** [arr[Math.floor(v)]] for an array of length [n]: the index [k] with
    [k <= v < k + 1], when there is one below [n]; otherwise the element is
    [undefined]. *)
Fixpoint floorIndexFrom (k n : nat) (v : float) : option nat :=
  match n with
  | O => None
  | S n' =>
      if (floatOfNat k <=? v) && (v <? floatOfNat (S k)) then Some k
      else floorIndexFrom (S k) n' v
  end.

Definition floorIndex (v : float) (n : nat) : option nat := floorIndexFrom 0 n v.

Definition distance (x1 y1 x2 y2 : float) : float :=
  let dx := x1 - x2 in
  let dy := y1 - y2 in
  PrimFloat.sqrt (dx * dx + dy * dy).

(** ** The state of the component *)

(** The updater functions the source passes to [setScore]. *)
Inductive ScoreUpdater :=
  | AddTwenty        (* s => s + 20 *)
  | AddTwentyPerEnemy (* s => s + enemiesRef.current.length * 20 *).

(** A queued update of the React state. *)
Inductive Update :=
  | SetGameState (g : GameState)
  | SetScore (v : Z)
  | UpdateScore (u : ScoreUpdater)
  | SetAmmo (a : Ammo)
  | SetIsPaused (b : bool).

(** The React state as of the last render, the updates queued since, the
    refs, the window and canvas sizes, and the sequence of values
    [Math.random] returns with the number of them already drawn.
    [eagerState] is the score the first update of the queue computed when it
    was queued, if it is an updater that React called at once.
    [requestRef] records whether a frame callback is scheduled. *)
Record State := mkState {
  gameState : GameState;
  score : Z;
  ammo : Ammo;
  isPaused : bool;
  pending : list Update;
  eagerState : option Z;
  enemiesRef : list EnemyRocket;
  missilesRef : list InterceptorMissile;
  explosionsRef : list Explosion;
  citiesRef : list City;
  batteriesRef : list Battery;
  particlesRef : list Particle;
  requestRef : bool;
  scoreRef : Z;
  gameStateRef : GameState;
  isPausedRef : bool;
  canvasRef : option Canvas;
  innerWidth : float;
  innerHeight : float;
  randomSource : nat -> float;
  randomUsed : nat
}.

Definition set_gameState (v : GameState) (s : State) : State :=
  mkState v (score s) (ammo s) (isPaused s) (pending s) (eagerState s) (enemiesRef s) (missilesRef s) (explosionsRef s) (citiesRef s) (batteriesRef s) (particlesRef s) (requestRef s) (scoreRef s) (gameStateRef s) (isPausedRef s) (canvasRef s) (innerWidth s) (innerHeight s) (randomSource s) (randomUsed s).

Definition set_score (v : Z) (s : State) : State :=
  mkState (gameState s) v (ammo s) (isPaused s) (pending s) (eagerState s) (enemiesRef s) (missilesRef s) (explosionsRef s) (citiesRef s) (batteriesRef s) (particlesRef s) (requestRef s) (scoreRef s) (gameStateRef s) (isPausedRef s) (canvasRef s) (innerWidth s) (innerHeight s) (randomSource s) (randomUsed s).

Definition set_ammo (v : Ammo) (s : State) : State :=
  mkState (gameState s) (score s) v (isPaused s) (pending s) (eagerState s) (enemiesRef s) (missilesRef s) (explosionsRef s) (citiesRef s) (batteriesRef s) (particlesRef s) (requestRef s) (scoreRef s) (gameStateRef s) (isPausedRef s) (canvasRef s) (innerWidth s) (innerHeight s) (randomSource s) (randomUsed s).

Definition set_isPaused (v : bool) (s : State) : State :=
  mkState (gameState s) (score s) (ammo s) v (pending s) (eagerState s) (enemiesRef s) (missilesRef s) (explosionsRef s) (citiesRef s) (batteriesRef s) (particlesRef s) (requestRef s) (scoreRef s) (gameStateRef s) (isPausedRef s) (canvasRef s) (innerWidth s) (innerHeight s) (randomSource s) (randomUsed s).

Definition set_pending (v : list Update) (s : State) : State :=
  mkState (gameState s) (score s) (ammo s) (isPaused s) v (eagerState s) (enemiesRef s) (missilesRef s) (explosionsRef s) (citiesRef s) (batteriesRef s) (particlesRef s) (requestRef s) (scoreRef s) (gameStateRef s) (isPausedRef s) (canvasRef s) (innerWidth s) (innerHeight s) (randomSource s) (randomUsed s).

Definition set_eagerState (v : option Z) (s : State) : State :=
  mkState (gameState s) (score s) (ammo s) (isPaused s) (pending s) v (enemiesRef s) (missilesRef s) (explosionsRef s) (citiesRef s) (batteriesRef s) (particlesRef s) (requestRef s) (scoreRef s) (gameStateRef s) (isPausedRef s) (canvasRef s) (innerWidth s) (innerHeight s) (randomSource s) (randomUsed s).

Definition set_enemiesRef (v : list EnemyRocket) (s : State) : State :=
  mkState (gameState s) (score s) (ammo s) (isPaused s) (pending s) (eagerState s) v (missilesRef s) (explosionsRef s) (citiesRef s) (batteriesRef s) (particlesRef s) (requestRef s) (scoreRef s) (gameStateRef s) (isPausedRef s) (canvasRef s) (innerWidth s) (innerHeight s) (randomSource s) (randomUsed s).

Definition set_missilesRef (v : list InterceptorMissile) (s : State) : State :=
  mkState (gameState s) (score s) (ammo s) (isPaused s) (pending s) (eagerState s) (enemiesRef s) v (explosionsRef s) (citiesRef s) (batteriesRef s) (particlesRef s) (requestRef s) (scoreRef s) (gameStateRef s) (isPausedRef s) (canvasRef s) (innerWidth s) (innerHeight s) (randomSource s) (randomUsed s).

Definition set_explosionsRef (v : list Explosion) (s : State) : State :=
  mkState (gameState s) (score s) (ammo s) (isPaused s) (pending s) (eagerState s) (enemiesRef s) (missilesRef s) v (citiesRef s) (batteriesRef s) (particlesRef s) (requestRef s) (scoreRef s) (gameStateRef s) (isPausedRef s) (canvasRef s) (innerWidth s) (innerHeight s) (randomSource s) (randomUsed s).

Definition set_citiesRef (v : list City) (s : State) : State :=
  mkState (gameState s) (score s) (ammo s) (isPaused s) (pending s) (eagerState s) (enemiesRef s) (missilesRef s) (explosionsRef s) v (batteriesRef s) (particlesRef s) (requestRef s) (scoreRef s) (gameStateRef s) (isPausedRef s) (canvasRef s) (innerWidth s) (innerHeight s) (randomSource s) (randomUsed s).

Definition set_batteriesRef (v : list Battery) (s : State) : State :=
  mkState (gameState s) (score s) (ammo s) (isPaused s) (pending s) (eagerState s) (enemiesRef s) (missilesRef s) (explosionsRef s) (citiesRef s) v (particlesRef s) (requestRef s) (scoreRef s) (gameStateRef s) (isPausedRef s) (canvasRef s) (innerWidth s) (innerHeight s) (randomSource s) (randomUsed s).

Definition set_particlesRef (v : list Particle) (s : State) : State :=
  mkState (gameState s) (score s) (ammo s) (isPaused s) (pending s) (eagerState s) (enemiesRef s) (missilesRef s) (explosionsRef s) (citiesRef s) (batteriesRef s) v (requestRef s) (scoreRef s) (gameStateRef s) (isPausedRef s) (canvasRef s) (innerWidth s) (innerHeight s) (randomSource s) (randomUsed s).

Definition set_requestRef (v : bool) (s : State) : State :=
  mkState (gameState s) (score s) (ammo s) (isPaused s) (pending s) (eagerState s) (enemiesRef s) (missilesRef s) (explosionsRef s) (citiesRef s) (batteriesRef s) (particlesRef s) v (scoreRef s) (gameStateRef s) (isPausedRef s) (canvasRef s) (innerWidth s) (innerHeight s) (randomSource s) (randomUsed s).

Definition set_scoreRef (v : Z) (s : State) : State :=
  mkState (gameState s) (score s) (ammo s) (isPaused s) (pending s) (eagerState s) (enemiesRef s) (missilesRef s) (explosionsRef s) (citiesRef s) (batteriesRef s) (particlesRef s) (requestRef s) v (gameStateRef s) (isPausedRef s) (canvasRef s) (innerWidth s) (innerHeight s) (randomSource s) (randomUsed s).

Definition set_gameStateRef (v : GameState) (s : State) : State :=
  mkState (gameState s) (score s) (ammo s) (isPaused s) (pending s) (eagerState s) (enemiesRef s) (missilesRef s) (explosionsRef s) (citiesRef s) (batteriesRef s) (particlesRef s) (requestRef s) (scoreRef s) v (isPausedRef s) (canvasRef s) (innerWidth s) (innerHeight s) (randomSource s) (randomUsed s).

Definition set_isPausedRef (v : bool) (s : State) : State :=
  mkState (gameState s) (score s) (ammo s) (isPaused s) (pending s) (eagerState s) (enemiesRef s) (missilesRef s) (explosionsRef s) (citiesRef s) (batteriesRef s) (particlesRef s) (requestRef s) (scoreRef s) (gameStateRef s) v (canvasRef s) (innerWidth s) (innerHeight s) (randomSource s) (randomUsed s).

Definition set_canvasRef (v : option Canvas) (s : State) : State :=
  mkState (gameState s) (score s) (ammo s) (isPaused s) (pending s) (eagerState s) (enemiesRef s) (missilesRef s) (explosionsRef s) (citiesRef s) (batteriesRef s) (particlesRef s) (requestRef s) (scoreRef s) (gameStateRef s) (isPausedRef s) v (innerWidth s) (innerHeight s) (randomSource s) (randomUsed s).

Definition set_innerWidth (v : float) (s : State) : State :=
  mkState (gameState s) (score s) (ammo s) (isPaused s) (pending s) (eagerState s) (enemiesRef s) (missilesRef s) (explosionsRef s) (citiesRef s) (batteriesRef s) (particlesRef s) (requestRef s) (scoreRef s) (gameStateRef s) (isPausedRef s) (canvasRef s) v (innerHeight s) (randomSource s) (randomUsed s).

Definition set_innerHeight (v : float) (s : State) : State :=
  mkState (gameState s) (score s) (ammo s) (isPaused s) (pending s) (eagerState s) (enemiesRef s) (missilesRef s) (explosionsRef s) (citiesRef s) (batteriesRef s) (particlesRef s) (requestRef s) (scoreRef s) (gameStateRef s) (isPausedRef s) (canvasRef s) (innerWidth s) v (randomSource s) (randomUsed s).

Definition set_randomSource (v : nat -> float) (s : State) : State :=
  mkState (gameState s) (score s) (ammo s) (isPaused s) (pending s) (eagerState s) (enemiesRef s) (missilesRef s) (explosionsRef s) (citiesRef s) (batteriesRef s) (particlesRef s) (requestRef s) (scoreRef s) (gameStateRef s) (isPausedRef s) (canvasRef s) (innerWidth s) (innerHeight s) v (randomUsed s).

Definition set_randomUsed (v : nat) (s : State) : State :=
  mkState (gameState s) (score s) (ammo s) (isPaused s) (pending s) (eagerState s) (enemiesRef s) (missilesRef s) (explosionsRef s) (citiesRef s) (batteriesRef s) (particlesRef s) (requestRef s) (scoreRef s) (gameStateRef s) (isPausedRef s) (canvasRef s) (innerWidth s) (innerHeight s) (randomSource s) v.

(** ** Handlers as state transformers that may throw *)

Inductive Outcome (A : Type) :=
  | Returned (a : A) (s : State)
  | Threw (s : State).

Arguments Returned {A} a s.
Arguments Threw {A} s.

Definition M (A : Type) : Type := State -> Outcome A.

Definition ret {A : Type} (a : A) : M A := fun s => Returned a s.

Definition bind {A B : Type} (m : M A) (k : A -> M B) : M B :=
  fun s => match m s with
           | Returned a s' => k a s'
           | Threw s' => Threw s'
           end.

(** A [TypeError]: a property read on [undefined]. *)
Definition throwTypeError {A : Type} : M A := fun s => Threw s.

Definition gets {A : Type} (f : State -> A) : M A := fun s => Returned (f s) s.

Definition modify (f : State -> State) : M unit := fun s => Returned tt (f s).

Definition finalState {A : Type} (o : Outcome A) : State :=
  match o with
  | Returned _ s => s
  | Threw s => s
  end.

Declare Scope js_scope.
Delimit Scope js_scope with js.
Notation "x <- m ;; k" := (bind m (fun x => k))
  (at level 61, m at next level, right associativity) : js_scope.
Notation "m ;; k" := (bind m (fun _ => k))
  (at level 61, right associativity) : js_scope.
Open Scope js_scope.

Definition when (b : bool) (m : M unit) : M unit := if b then m else ret tt.

(** [arr.forEach(f)] and [arr.filter(f)] for a callback with effects.  The
    callback of [filter] may also mutate the element: it returns the element
    as it leaves it when it is kept. *)
Fixpoint forEach {A : Type} (f : A -> M unit) (l : list A) : M unit :=
  match l with
  | [] => ret tt
  | a :: l' => f a ;; forEach f l'
  end.

Fixpoint filterM {A : Type} (f : A -> M (option A)) (l : list A) : M (list A) :=
  match l with
  | [] => ret []
  | a :: l' =>
      r <- f a ;;
      rest <- filterM f l' ;;
      ret (match r with Some a' => a' :: rest | None => rest end)
  end.

(** [for (let i = 0; i < n; i++) body(i)], counting from [i]. *)
Fixpoint forLoop (i n : nat) (body : nat -> M unit) : M unit :=
  match n with
  | O => ret tt
  | S n' => body i ;; forLoop (S i) n' body
  end.

Definition Math_random : M float :=
  fun s => Returned (randomSource s (randomUsed s)) (set_randomUsed (S (randomUsed s)) s).

Definition enqueue (u : Update) : M unit :=
  modify (fun s => set_pending (pending s ++ [u]) s).

(** What an updater function returns in the state it is called in. *)
Definition runUpdater (u : ScoreUpdater) (s : State) : Z :=
  match u with
  | AddTwenty => score s + 20
  | AddTwentyPerEnemy => score s + Z.of_nat (List.length (enemiesRef s)) * 20
  end.

(** [setScore(updater)]: with no update queued the updater is called at once
    and its result kept with the update; otherwise it is called by the
    render. *)
Definition setScore (u : ScoreUpdater) : M unit :=
  queued <- gets pending ;;
  match queued with
  | [] =>
      modify (fun s => set_eagerState (Some (runUpdater u s)) s) ;;
      enqueue (UpdateScore u)
  | _ :: _ => enqueue (UpdateScore u)
  end.
Definition setGameState (g : GameState) : M unit := enqueue (SetGameState g).
Definition setAmmo (a : Ammo) : M unit := enqueue (SetAmmo a).

Definition pushExplosion (e : Explosion) : M unit :=
  modify (fun s => set_explosionsRef (explosionsRef s ++ [e]) s).

Definition pushParticle (p : Particle) : M unit :=
  modify (fun s => set_particlesRef (particlesRef s ++ [p]) s).

(** [requestRef.current = requestAnimationFrame(update)] *)
Definition requestAnimationFrame : M unit := modify (set_requestRef true).

(** ** [initGame] and [handleResize] *)

Definition cityPositions : list float := [c0_15; 0.25; c0_35; c0_65; 0.75; c0_85].

Definition digit (i : nat) : string :=
  String (Ascii.ascii_of_nat (48 + i)) EmptyString.

Fixpoint initCities (i : nat) (w h : float) (positions : list float) : list City :=
  match positions with
  | [] => []
  | pos :: rest =>
      mkCity ("city-" ++ digit i)%string (w * pos) (h - 40) true :: initCities (S i) w h rest
  end.

Definition initBatteries (w h : float) : list Battery :=
  [ mkBattery "left" (w * c0_05) (h - 50) true (left INITIAL_AMMO) (left INITIAL_AMMO);
    mkBattery "center" (w * 0.5) (h - 50) true (center INITIAL_AMMO) (center INITIAL_AMMO);
    mkBattery "right" (w * c0_95) (h - 50) true (right INITIAL_AMMO) (right INITIAL_AMMO) ].

Definition initGame : M unit :=
  w <- gets innerWidth ;;
  h <- gets innerHeight ;;
  modify (set_citiesRef (initCities 0 w h cityPositions)) ;;
  modify (set_batteriesRef (initBatteries w h)) ;;
  setAmmo INITIAL_AMMO ;;
  modify (set_enemiesRef []) ;;
  modify (set_missilesRef []) ;;
  modify (set_explosionsRef []) ;;
  modify (set_particlesRef []) ;;
  enqueue (SetScore 0) ;;
  modify (set_scoreRef 0).

(** [cityPositions[i]] is [undefined] past the sixth city, and the product
    is then NaN. *)
Fixpoint resizeCities (i : nat) (w h : float) (cities : list City) : list City :=
  match cities with
  | [] => []
  | c :: rest =>
      mkCity (c_id c) (w * nth i cityPositions nan) (h - 40) (c_active c)
      :: resizeCities (S i) w h rest
  end.

Definition moveBattery (b : Battery) (x y : float) : Battery :=
  mkBattery (b_id b) x y (b_active b) (b_ammo b) (b_maxAmmo b).

Definition resizeBatteries (w h : float) (bs : list Battery) : list Battery :=
  match bs with
  | [b0; b1; b2] =>
      [ moveBattery b0 (w * c0_05) (h - 50);
        moveBattery b1 (w * 0.5) (h - 50);
        moveBattery b2 (w * c0_95) (h - 50) ]
  | _ => bs
  end.

Definition handleResize : M unit :=
  cv <- gets canvasRef ;;
  match cv with
  | None => ret tt
  | Some _ =>
      w <- gets innerWidth ;;
      h <- gets innerHeight ;;
      modify (set_canvasRef (Some (mkCanvas w h))) ;;
      modify (fun s => set_citiesRef (resizeCities 0 w h (citiesRef s)) s) ;;
      modify (fun s => set_batteriesRef (resizeBatteries w h (batteriesRef s)) s)
  end.

(** ** [spawnEnemy] and [fireMissile] *)

Definition activeTargets (s : State) : list (float * float) :=
  map (fun c => (c_x c, c_y c)) (filter c_active (citiesRef s))
  ++ map (fun b => (b_x b, b_y b)) (filter b_active (batteriesRef s)).

Definition spawnEnemy (h : Host) : M unit :=
  w <- gets innerWidth ;;
  targets <- gets activeTargets ;;
  match targets with
  | [] => ret tt
  | _ :: _ =>
      r <- Math_random ;;
      let target := match floorIndex (r * floatOfNat (List.length targets))
                            (List.length targets) with
                    | Some k => nth_error targets k
                    | None => None
                    end in
      rid <- Math_random ;;
      rx <- Math_random ;;
      match target with
      | None => throwTypeError
      | Some (tx, ty) =>
          sc <- gets scoreRef ;;
          let enemy := mkEnemy (randomId h rid) 0 0 (rx * w) (-20) tx ty 0
                         (ENEMY_SPEED_BASE + (floatOfZ sc / 1000) * 0.5) in
          modify (fun s => set_enemiesRef (enemiesRef s ++ [enemy]) s)
      end
  end.

(** The [forEach] over the batteries, from index [i] on: [bestBattery] (a
    reference into the array, here the index with the battery found there)
    and [minDist]. *)
Fixpoint chooseBattery (targetX : float) (i : nat) (bs : list Battery)
    (bestBattery : option (nat * Battery)) (minDist : float) : option (nat * Battery) :=
  match bs with
  | [] => bestBattery
  | b :: rest =>
      if b_active b && (0 <? b_ammo b)%Z then
        let dist := abs (b_x b - targetX) in
        if dist <? minDist then chooseBattery targetX (S i) rest (Some (i, b)) dist
        else chooseBattery targetX (S i) rest bestBattery minDist
      else chooseBattery targetX (S i) rest bestBattery minDist
  end.

Definition decrementAmmo (b : Battery) : Battery :=
  mkBattery (b_id b) (b_x b) (b_y b) (b_active b) (b_ammo b - 1) (b_maxAmmo b).

Fixpoint updateAt {A : Type} (i : nat) (f : A -> A) (l : list A) : list A :=
  match l, i with
  | [], _ => []
  | a :: rest, O => f a :: rest
  | a :: rest, S i' => a :: updateAt i' f rest
  end.

Definition missileTypeOf (rand : float) : MissileType :=
  if rand <? c0_1 then RARE
  else if rand <? 0.25 then LIGHTNING
  else if rand <? c0_4 then DRONE
  else NORMAL.

Definition fireMissile (h : Host) (targetX targetY : float) : M unit :=
  gs <- gets gameStateRef ;;
  paused <- gets isPausedRef ;;
  if negb (GameState_eqb gs PLAYING) || paused then ret tt
  else
    bs <- gets batteriesRef ;;
    match chooseBattery targetX 0 bs None infinity with
    | None => ret tt
    | Some (i, bestBattery) =>
        modify (fun s => set_batteriesRef (updateAt i decrementAmmo (batteriesRef s)) s) ;;
        bs' <- gets batteriesRef ;;
        match bs' with
        | b0 :: b1 :: b2 :: _ =>
            setAmmo (mkAmmo (b_ammo b0) (b_ammo b1) (b_ammo b2)) ;;
            rand <- Math_random ;;
            let type := missileTypeOf rand in
            rid <- Math_random ;;
            let missile := mkMissile (randomId h rid) (b_x bestBattery) (b_y bestBattery)
                             (b_x bestBattery) (b_y bestBattery) targetX targetY 0 type
                             (match type with DRONE => 180 | _ => 0 end)%Z in
            modify (fun s => set_missilesRef (missilesRef s ++ [missile]) s)
        | _ => throwTypeError
        end
    end.

(** ** The frame callback [update] *)

(** [drawRocket]: of the drawing only the draw of [Math.random] for the flame
    is kept. *)
Definition drawRocket : M unit := _ <- Math_random ;; ret tt.

Definition enemyDist (enemy : EnemyRocket) : float :=
  let dx := e_targetX enemy - e_startX enemy in
  let dy := e_targetY enemy - e_startY enemy in
  PrimFloat.sqrt (dx * dx + dy * dy).

(** The enemy after [enemy.progress += enemy.speed / dist] and the update of
    its position. *)
Definition advanceEnemy (enemy : EnemyRocket) : EnemyRocket :=
  let dx := e_targetX enemy - e_startX enemy in
  let dy := e_targetY enemy - e_startY enemy in
  let progress := e_progress enemy + e_speed enemy / enemyDist enemy in
  mkEnemy (e_id enemy)
    (e_startX enemy + dx * progress) (e_startY enemy + dy * progress)
    (e_startX enemy) (e_startY enemy) (e_targetX enemy) (e_targetY enemy)
    progress (e_speed enemy).

(** [arr.find(test)] followed by [if (found) found.active = false]. *)
Fixpoint deactivateFirst {A : Type} (test : A -> bool) (off : A -> A) (l : list A) : list A :=
  match l with
  | [] => []
  | a :: rest => if test a then off a :: rest else a :: deactivateFirst test off rest
  end.

Definition cityOff (c : City) : City := mkCity (c_id c) (c_x c) (c_y c) false.

Definition batteryOff (b : Battery) : Battery :=
  mkBattery (b_id b) (b_x b) (b_y b) false (b_ammo b) (b_maxAmmo b).

Definition cityHit (targetX : float) (c : City) : bool := abs (c_x c - targetX) <? 5.

Definition batteryHit (targetX : float) (b : Battery) : bool := abs (b_x b - targetX) <? 5.

Definition impactExplosion (id : string) (enemy : EnemyRocket) : Explosion :=
  mkExplosion id (e_targetX enemy) (e_targetY enemy) 0 30 1 false.

Definition enemyStep (h : Host) (enemy0 : EnemyRocket) : M (option EnemyRocket) :=
  let enemy := advanceEnemy enemy0 in
  drawRocket ;;
  if 1 <=? e_progress enemy then
    r <- Math_random ;;
    pushExplosion (impactExplosion ("impact-" ++ numToString h r)%string enemy) ;;
    modify (fun s => set_citiesRef
      (deactivateFirst (cityHit (e_targetX enemy)) cityOff (citiesRef s)) s) ;;
    modify (fun s => set_batteriesRef
      (deactivateFirst (batteryHit (e_targetX enemy)) batteryOff (batteriesRef s)) s) ;;
    ret None
  else ret (Some enemy).

Definition missileDist (m : InterceptorMissile) : float :=
  let dx := m_targetX m - m_startX m in
  let dy := m_targetY m - m_startY m in
  PrimFloat.sqrt (dx * dx + dy * dy).

Definition advanceMissile (m : InterceptorMissile) : InterceptorMissile :=
  if m_progress m <? 1 then
    let dx := m_targetX m - m_startX m in
    let dy := m_targetY m - m_startY m in
    let progress := m_progress m + MISSILE_SPEED / missileDist m in
    mkMissile (m_id m) (m_startX m + dx * progress) (m_startY m + dy * progress)
      (m_startX m) (m_startY m) (m_targetX m) (m_targetY m) progress
      (m_type m) (m_hoverTimer m)
  else m.

Definition setHoverTimer (t : Z) (m : InterceptorMissile) : InterceptorMissile :=
  mkMissile (m_id m) (m_x m) (m_y m) (m_startX m) (m_startY m)
    (m_targetX m) (m_targetY m) (m_progress m) (m_type m) t.

Definition droneSubBomb (h : Host) (m : InterceptorMissile) : M unit :=
  ra <- Math_random ;;
  let angle := ra * Math_PI * 2 in
  rd <- Math_random ;;
  let dist := rd * 150 + 50 in
  rid <- Math_random ;;
  pushExplosion
    (mkExplosion ("drone-sub-exp-" ++ numToString h rid)%string
       (m_x m + Math_cos h angle * dist) (m_y m + Math_sin h angle * dist)
       0 (EXPLOSION_RADIUS * c0_6) 1 false).

Definition burstAngle (i : nat) : float := (floatOfNat i / 12) * Math_PI * 2.

Definition droneFinalExplosion (h : Host) (m : InterceptorMissile) (i : nat) (id : string)
    : Explosion :=
  mkExplosion id
    (m_x m + Math_cos h (burstAngle i) * 80) (m_y m + Math_sin h (burstAngle i) * 80)
    0 EXPLOSION_RADIUS 1 false.

Definition droneFinalBurst (h : Host) (m : InterceptorMissile) : M unit :=
  forLoop 0 12 (fun i =>
    rid <- Math_random ;;
    pushExplosion (droneFinalExplosion h m i ("drone-final-exp-" ++ numToString h rid)%string)).

Definition normalExplosion (h : Host) (m : InterceptorMissile) : M unit :=
  rid <- Math_random ;;
  pushExplosion
    (mkExplosion ("exp-" ++ numToString h rid)%string (m_targetX m) (m_targetY m)
       0 EXPLOSION_RADIUS 1 false).

Definition rareExplosion (h : Host) (canvas : Canvas) (m : InterceptorMissile) : M unit :=
  rid <- Math_random ;;
  pushExplosion
    (mkExplosion ("rare-exp-" ++ numToString h rid)%string (m_x m) (m_y m)
       0 (Math_max (width canvas) (height canvas) * 1.5) 1 true).

Definition killById (id : string) (enemies : list EnemyRocket) : list EnemyRocket :=
  filter (fun en => negb (String.eqb (e_id en) id)) enemies.

(** [nearbyEnemies.forEach((e, index) => ...)], from [index] on. *)
Fixpoint lightningChain (h : Host) (index : nat) (nearby : list EnemyRocket) : M unit :=
  match nearby with
  | [] => ret tt
  | e :: rest =>
      when (Nat.even index)
        (forLoop 0 5 (fun _ => _ <- Math_random ;; _ <- Math_random ;; ret tt) ;;
         modify (fun s => set_enemiesRef (killById (e_id e) (enemiesRef s)) s) ;;
         setScore AddTwenty ;;
         rid <- Math_random ;;
         pushExplosion
           (mkExplosion ("lightning-exp-" ++ numToString h rid)%string (e_x e) (e_y e)
              0 20 0.5 false)) ;;
      lightningChain h (S index) rest
  end.

Definition lightningStrike (h : Host) (m : InterceptorMissile) : M unit :=
  enemies <- gets enemiesRef ;;
  let nearbyEnemies :=
    filter (fun e => distance (e_x e) (e_y e) (m_x m) (m_y m) <? 300) enemies in
  lightningChain h 0 nearbyEnemies ;;
  normalExplosion h m.

Definition missileStep (h : Host) (canvas : Canvas) (m0 : InterceptorMissile)
    : M (option InterceptorMissile) :=
  let m := advanceMissile m0 in
  drawRocket ;;
  if 1 <=? m_progress m then
    match m_type m with
    | DRONE =>
        if (0 <? m_hoverTimer m)%Z then
          let m' := setHoverTimer (m_hoverTimer m - 1) m in
          when (Z.rem (m_hoverTimer m') 20 =? 0)%Z (droneSubBomb h m') ;;
          ret (Some m')
        else
          droneFinalBurst h m ;;
          ret None
    | RARE => rareExplosion h canvas m ;; ret None
    | LIGHTNING => lightningStrike h m ;; ret None
    | NORMAL => normalExplosion h m ;; ret None
    end
  else ret (Some m).

(** The radius of an explosion as a function of its life. *)
Definition explosionRadius (maxRadius life : float) : float :=
  if 0.5 <? life then Math_max 0 (maxRadius * (1 - (life - 0.5) * 2))
  else Math_max 0 (maxRadius * (life * 2)).

Definition spawnParticle (h : Host) (time : float) (exp : Explosion) : M unit :=
  ra <- Math_random ;;
  let angle := ra * Math_PI * 2 in
  rs <- Math_random ;;
  let speed := rs * 3 + 1 in
  rid <- Math_random ;;
  rsize <- Math_random ;;
  pushParticle
    (mkParticle ("p-" ++ numToString h rid)%string (x_x exp) (x_y exp)
       (Math_cos h angle * speed) (Math_sin h angle * speed) 1
       (particleColor h time) (rsize * 3 + 1)).

(** The rare bomb at its peak: the updater is queued, then the store is
    emptied. *)
Definition rareClear : M unit :=
  enemies <- gets enemiesRef ;;
  when (0 <? List.length enemies)%nat
    (setScore AddTwentyPerEnemy ;;
     modify (set_enemiesRef [])).

Definition inBlast (exp : Explosion) (radius : float) (enemy : EnemyRocket) : bool :=
  distance (e_x enemy) (e_y enemy) (x_x exp) (x_y exp) <? radius.

Definition blastEnemies (exp : Explosion) (radius : float) : M unit :=
  enemies <- gets enemiesRef ;;
  survivors <- filterM (fun enemy =>
    if inBlast exp radius enemy then setScore AddTwenty ;; ret None
    else ret (Some enemy)) enemies ;;
  modify (set_enemiesRef survivors).

Definition explosionStep (h : Host) (time : float) (exp : Explosion) : M (option Explosion) :=
  let oldLife := x_life exp in
  let life := x_life exp - 1 / EXPLOSION_DURATION in
  when (oldLife =? 1) (forLoop 0 15 (fun _ => spawnParticle h time exp)) ;;
  let radius := explosionRadius (x_maxRadius exp) life in
  when (x_isRare exp && (life <? c0_6) && (c0_4 <? life)) rareClear ;;
  blastEnemies exp radius ;;
  ret (if 0 <? life
       then Some (mkExplosion (x_id exp) (x_x exp) (x_y exp) radius (x_maxRadius exp)
                    life (x_isRare exp))
       else None).

Definition particleStep (p : Particle) : option Particle :=
  let life := p_life p - c0_02 in
  if 0 <? life then
    Some (mkParticle (p_id p) (p_x p + p_vx p) (p_y p + p_vy p)
            (p_vx p * c0_98) (p_vy p * c0_98) life (p_color p) (p_size p))
  else None.

Fixpoint filterMap {A : Type} (f : A -> option A) (l : list A) : list A :=
  match l with
  | [] => []
  | a :: rest =>
      match f a with
      | Some a' => a' :: filterMap f rest
      | None => filterMap f rest
      end
  end.

(** The check at the end of the frame ([confetti] is left out). *)
Definition checkWinLoss : M unit :=
  sc <- gets scoreRef ;;
  bs <- gets batteriesRef ;;
  if (WIN_SCORE <=? sc)%Z then setGameState WIN
  else if forallb (fun b => negb (b_active b)) bs then setGameState GAMEOVER
  else ret tt.

Definition enemyPhase (h : Host) : M unit :=
  enemies <- gets enemiesRef ;;
  kept <- filterM (enemyStep h) enemies ;;
  modify (set_enemiesRef kept).

Definition missilePhase (h : Host) (canvas : Canvas) : M unit :=
  missiles <- gets missilesRef ;;
  kept <- filterM (missileStep h canvas) missiles ;;
  modify (set_missilesRef kept).

Definition explosionPhase (h : Host) (time : float) : M unit :=
  explosions <- gets explosionsRef ;;
  kept <- filterM (explosionStep h time) explosions ;;
  modify (set_explosionsRef kept).

Definition particlePhase : M unit :=
  modify (fun s => set_particlesRef (filterMap particleStep (particlesRef s)) s).

Definition spawnPhase (h : Host) : M unit :=
  r <- Math_random ;;
  sc <- gets scoreRef ;;
  when (r <? c0_015 + floatOfZ sc / 5000) (spawnEnemy h).

(** The body of [update] once the guards have passed. *)
Definition simulate (h : Host) (time : float) (canvas : Canvas) : M unit :=
  spawnPhase h ;;
  enemyPhase h ;;
  missilePhase h canvas ;;
  explosionPhase h time ;;
  particlePhase ;;
  checkWinLoss ;;
  requestAnimationFrame.

Definition update (h : Host) (time : float) : M unit :=
  gs <- gets gameStateRef ;;
  if negb (GameState_eqb gs PLAYING) then ret tt
  else
    paused <- gets isPausedRef ;;
    if paused then requestAnimationFrame
    else
      cv <- gets canvasRef ;;
      match cv with
      | None => ret tt
      | Some canvas => simulate h time canvas
      end.

(** ** Rendering and the events of a session *)

Definition applyUpdate (s : State) (u : Update) : State :=
  match u with
  | SetGameState g => set_gameState g s
  | SetScore v => set_score v s
  | UpdateScore f => set_score (runUpdater f s) s
  | SetAmmo a => set_ammo a s
  | SetIsPaused b => set_isPaused b s
  end.

(** The queued updates applied in order; for a first update that was computed
    when it was queued, the state it computed is taken. *)
Definition applyQueue (s : State) : State :=
  match pending s, eagerState s with
  | UpdateScore _ :: rest, Some v => fold_left applyUpdate rest (set_score v s)
  | queued, _ => fold_left applyUpdate queued s
  end.

(** A render: the queued updates are applied, then each effect whose
    dependency changed runs: the three that copy the state into the refs, and
    the one that cancels the scheduled frame and, when playing, requests a
    new one. *)
Definition render (s : State) : State :=
  let s1 := set_eagerState None (set_pending [] (applyQueue s)) in
  let s2 := if (score s1 =? score s)%Z then s1 else set_scoreRef (score s1) s1 in
  let s3 := if GameState_eqb (gameState s2) (gameState s) then s2
            else set_gameStateRef (gameState s2) s2 in
  let s4 := if Bool.eqb (isPaused s3) (isPaused s) then s3
            else set_isPausedRef (isPaused s3) s3 in
  if GameState_eqb (gameState s4) (gameState s) then s4
  else set_requestRef (GameState_eqb (gameState s4) PLAYING) s4.

Definition startGame : M unit :=
  initGame ;;
  setGameState PLAYING.

Definition handleCanvasClick (h : Host) (x y : float) : M unit :=
  gs <- gets gameState ;;
  if negb (GameState_eqb gs PLAYING) then ret tt else fireMissile h x y.

Definition togglePause : M unit :=
  gs <- gets gameState ;;
  paused <- gets isPaused ;;
  when (GameState_eqb gs PLAYING) (enqueue (SetIsPaused (negb paused))).

(** A scheduled frame callback runs [update]; the request is then spent. *)
Definition animationFrame (h : Host) (time : float) : M unit :=
  scheduled <- gets requestRef ;;
  when scheduled (modify (set_requestRef false) ;; update h time).

Inductive Event :=
  | Resize (w h : float)
  | PressStart
  | Click (x y : float)
  | PressPause
  | Frame (time : float)
  | Render.

Definition handle (h : Host) (ev : Event) : M unit :=
  match ev with
  | Resize w' h' =>
      modify (set_innerWidth w') ;; modify (set_innerHeight h') ;; handleResize
  | PressStart =>
      gs <- gets gameState ;;
      when (negb (GameState_eqb gs PLAYING)) startGame
  | Click x y => handleCanvasClick h x y
  | PressPause => togglePause
  | Frame time => animationFrame h time
  | Render => modify render
  end.

(** An event whose handler throws leaves the state as it was when it threw. *)
Definition step (h : Host) (s : State) (ev : Event) : State :=
  finalState (handle h ev s).

Definition run (h : Host) (s : State) (evs : list Event) : State :=
  fold_left (step h) evs s.

(** The component once mounted in a window of the given size: the initial
    values of the state and of the refs, then the mount effect
    [handleResize(); initGame()]. *)
Definition unmounted (w h : float) (rng : nat -> float) : State :=
  mkState START 0 INITIAL_AMMO false [] None [] [] [] [] [] [] false 0 START false
    (Some (mkCanvas 300 150)) w h rng 0.

Definition mounted (w h : float) (rng : nat -> float) : State :=
  finalState ((handleResize ;; initGame) (unmounted w h rng)).

(** ** Predicates used by the statements *)

(** A float whose absolute value is below [infinity]: a zero or a finite
    number. *)
Definition finite (x : float) : bool := abs x <? infinity.

(** [m] relates every state to the state it ends in, whether it returns or
    throws. *)
Definition keeps (R : State -> State -> Prop) {A : Type} (m : M A) : Prop :=
  forall s, R s (finalState (m s)).

(** [m] always returns, in a state related to the one it started in. *)
Definition runs (R : State -> State -> Prop) {A : Type} (m : M A) : Prop :=
  forall s, exists a s', m s = Returned a s' /\ R s s'.

Definition isAward (u : Update) : Prop := exists f, u = UpdateScore f.

(** Nothing but the entity stores, the draws of [Math.random] and the queue of
    updates changes, and the queue only receives score updaters. *)
Definition quiet (s s' : State) : Prop :=
  score s' = score s /\ gameState s' = gameState s /\ ammo s' = ammo s /\
  isPaused s' = isPaused s /\ scoreRef s' = scoreRef s /\
  gameStateRef s' = gameStateRef s /\ isPausedRef s' = isPausedRef s /\
  canvasRef s' = canvasRef s /\ requestRef s' = requestRef s /\
  exists extra, pending s' = pending s ++ extra /\ Forall isAward extra.

Definition sameDefences (s s' : State) : Prop :=
  citiesRef s' = citiesRef s /\ batteriesRef s' = batteriesRef s.

(** No enemy appears: every enemy of [s'] is one of [s]. *)
Definition enemiesShrink (s s' : State) : Prop :=
  incl (enemiesRef s') (enemiesRef s).

(** [l'] is [l] with its first element passing [test] replaced by [off] of
    it, and is [l] when no element passes. *)
Definition firstHitOff {A : Type} (test : A -> bool) (off : A -> A) (l l' : list A) : Prop :=
  (Forall (fun a => test a = false) l /\ l' = l) \/
  (exists l1 a l2,
     l = l1 ++ a :: l2 /\ Forall (fun a' => test a' = false) l1 /\ test a = true /\
     l' = l1 ++ off a :: l2).

(** The explosions of a drone's final burst, given their ids: the [i]-th of
    twelve is 80 units away from the drone under the angle [i / 12] of a
    turn, with radius 0, maximal radius [EXPLOSION_RADIUS] and life 1, and is
    not rare. *)
Definition finalBurst (h : Host) (m : InterceptorMissile) (ids : list string) : list Explosion :=
  map (fun p =>
         mkExplosion (snd p)
           (m_x m + Math_cos h (floatOfNat (fst p) / 12 * Math_PI * 2) * 80)
           (m_y m + Math_sin h (floatOfNat (fst p) / 12 * Math_PI * 2) * 80)
           0 EXPLOSION_RADIUS 1 false)
      (combine (seq 0 12) ids).

(** ** A host and states for the examples *)

(** Partial sums of the power series of the cosine and the sine. *)
Fixpoint series (n : nat) (x2 k term acc : float) : float :=
  match n with
  | O => acc
  | S n' =>
      let term' := (- term) * x2 / ((k + 1) * (k + 2)) in
      series n' x2 (k + 2) term' (acc + term')
  end.

Definition cosSeries (x : float) : float := series 30 (x * x) 0 1 1.

Definition sinSeries (x : float) : float := series 30 (x * x) 1 x x.

Definition digitChar (d : nat) : string :=
  String (Ascii.ascii_of_nat (if Nat.ltb d 10 then 48 + d else 87 + d)) EmptyString.

(** The first [n] digits of the fraction [r] in the given base. *)
Fixpoint fractionDigits (base n : nat) (r : float) : string :=
  match n with
  | O => EmptyString
  | S n' =>
      let v := r * floatOfNat base in
      match floorIndex v base with
      | Some d => (digitChar d ++ fractionDigits base n' (v - floatOfNat d))%string
      | None => EmptyString
      end
  end.

Definition exampleHost : Host :=
  mkHost cosSeries sinSeries
    (fun r => ("0." ++ fractionDigits 10 17 r)%string)
    (fractionDigits 36 9)
    (fun time => ("hsl(" ++ fractionDigits 10 3 (time / 36000) ++ ", 100%, 70%)")%string).

(** A session being played in a window of 800 by 600, every draw of
    [Math.random] being 0.5 (so that no enemy spawns): the component is
    mounted and rendered, the start button pressed, and the component
    rendered again. *)
Definition playing : State :=
  run exampleHost (mounted 800 600 (fun _ => 0.5)) [Render; PressStart; Render].

(** An enemy one step away from the centre battery. *)
Definition fallingEnemy : EnemyRocket :=
  mkEnemy "e1" 399 549 100 (-20) 400 550 0x1.ffbe76c8b4396p-1 ENEMY_SPEED_BASE.

(** An enemy spawned on its own target. *)
Definition degenerateEnemy : EnemyRocket :=
  mkEnemy "e0" 0 0 120 (-20) 120 (-20) 0 ENEMY_SPEED_BASE.

(** A drone hovering over its target, with one tick and with no tick left on
    its countdown. *)
Definition hoveringDrone (timer : Z) : InterceptorMissile :=
  mkMissile "d1" 300 200 400 550 300 200 0x1.0147ae147ae14p+0 DRONE timer.

(** The ids of the explosions of a final burst drawn in state [s], the draw
    for the flame of [drawRocket] coming first. *)
Definition burstIds (h : Host) (s : State) : list string :=
  map (fun i => ("drone-final-exp-" ++ numToString h (randomSource s (S (randomUsed s) + i)))%string)
      (seq 0 12).

(** A battery that can fire, and its horizontal distance to a target. *)
Definition eligible (b : Battery) : bool := b_active b && (0 <? b_ammo b)%Z.

Definition horizontalDist (targetX : float) (b : Battery) : float := abs (b_x b - targetX).

(** Batteries with no ammunition left. *)
Definition spent : State :=
  set_batteriesRef
    (map (fun b => mkBattery (b_id b) (b_x b) (b_y b) (b_active b) 0 (b_maxAmmo b))
         (batteriesRef playing))
    playing.

(** [k] is the first index among the eligible batteries of [bs] at the least
    horizontal distance from [targetX], and [b] the battery there. *)
Definition nearest (targetX : float) (bs : list Battery) (k : nat) (b : Battery) : Prop :=
  nth_error bs k = Some b /\ eligible b = true /\
  forall j b', nth_error bs j = Some b' -> eligible b' = true ->
    (horizontalDist targetX b' <? horizontalDist targetX b) = false /\
    (j < k -> (horizontalDist targetX b <? horizontalDist targetX b') = true).

(** What the loop of [fireMissile] has established after the batteries
    [pre]. *)
Definition accOk (targetX : float) (pre : list Battery) (best : option (nat * Battery))
    (minDist : float) : Prop :=
  match best with
  | None => minDist = infinity /\ forall b, In b pre -> eligible b = false
  | Some (k, b) => minDist = horizontalDist targetX b /\ nearest targetX pre k b
  end.

(** What the callback of a [filter] answered: the element it keeps. *)
Definition kept {A : Type} (o : Outcome (option A)) : option A :=
  match o with
  | Returned r _ => r
  | Threw _ => None
  end.

(** A queued update that keeps the score a multiple of 20: any update but a
    [setScore] of a value, which is allowed when [reset] holds and the value
    is 0. *)
Definition okUpdate (reset : bool) (u : Update) : Prop :=
  match u with
  | SetScore v => reset = true /\ v = 0%Z
  | _ => True
  end.

(** The score an updater computed when it was queued is the score shown
    plus a multiple of 20. *)
Definition okEager (s : State) : Prop :=
  match eagerState s with
  | Some v => (score s <= v)%Z /\ (20 | v)%Z
  | None => True
  end.

(** The score shown and the game state are untouched, the mirror [scoreRef]
    is untouched (or set to 0, when [reset] holds), the queue only receives
    updates that are [okUpdate], and a score computed at once is the score
    shown plus a multiple of 20. *)
Definition scoreQuiet (reset : bool) (s s' : State) : Prop :=
  score s' = score s /\ gameState s' = gameState s /\
  (scoreRef s' = scoreRef s \/ (reset = true /\ scoreRef s' = 0%Z)) /\
  (exists extra, pending s' = pending s ++ extra /\ Forall (okUpdate reset) extra) /\
  (eagerState s' = eagerState s \/
   exists k, (0 <= k)%Z /\ eagerState s' = Some (score s + 20 * k)%Z).

(** During a game no [setScore] of a value is queued. *)
Definition scoreInv (s : State) : Prop :=
  (0 <= score s)%Z /\ (20 | score s)%Z /\
  (0 <= scoreRef s)%Z /\ (20 | scoreRef s)%Z /\
  Forall (okUpdate (negb (GameState_eqb (gameState s) PLAYING))) (pending s) /\
  okEager s.

(** The game state the next render shows: the last one queued, if any. *)
Definition lastGameState (l : list Update) (g : GameState) : GameState :=
  fold_left (fun g u => match u with SetGameState g' => g' | _ => g end) l g.

Definition allInactive (bs : list Battery) : bool :=
  forallb (fun b => negb (b_active b)) bs.

(** A defence after the enemy phase: as it was, or switched off, and then
    some enemy of the phase reached its target with the defence within 5
    units of its target's x-coordinate. *)
Definition fellByImpact {A : Type} (hit : float -> A -> bool) (off : A -> A)
    (enemies : list EnemyRocket) (a a' : A) : Prop :=
  a' = a \/
  (a' = off a /\
   exists e, In e enemies /\ (1 <=? e_progress (advanceEnemy e)) = true /\
             hit (e_targetX e) a = true).

(** Whether the frame takes the enemy to its target: its progress, raised by
    its speed over the distance from its start to its target, is at least
    1. *)
Definition arrives (e : EnemyRocket) : bool :=
  1 <=? e_progress e
        + e_speed e
          / PrimFloat.sqrt
              ((e_targetX e - e_startX e) * (e_targetX e - e_startX e)
               + (e_targetY e - e_startY e) * (e_targetY e - e_startY e)).

(** The enemies an event takes to their target: for a frame, those of the
    store, the one the frame spawns included, that arrive; none for another
    event. *)
Definition impacts (h : Host) (s : State) (ev : Event) : list EnemyRocket :=
  match ev with
  | Frame _ =>
      filter arrives (enemiesRef (finalState (spawnPhase h (set_requestRef false s))))
  | _ => []
  end.

(** A city before and after an event: the same city, with its flag as it
    was, or with its flag off and then one of the enemies [hits] came down
    within 5 units of its x-coordinate. *)
Definition cityFate (hits : list EnemyRocket) (c c' : City) : Prop :=
  c_id c' = c_id c /\
  (c_active c' = c_active c \/
   (c_active c' = false /\
    exists e, In e hits /\ (abs (c_x c - e_targetX e) <? 5) = true)).

Definition batteryFate (hits : list EnemyRocket) (b b' : Battery) : Prop :=
  b_id b' = b_id b /\
  (b_active b' = b_active b \/
   (b_active b' = false /\
    exists e, In e hits /\ (abs (b_x b - e_targetX e) <? 5) = true)).

(** The cities and the batteries keep their ids and flags. *)
Definition sameFlags (s s' : State) : Prop :=
  Forall2 (fun c c' => c_id c' = c_id c /\ c_active c' = c_active c)
    (citiesRef s) (citiesRef s') /\
  Forall2 (fun b b' => b_id b' = b_id b /\ b_active b' = b_active b)
    (batteriesRef s) (batteriesRef s').

(** The batteries keep their ammunition. *)
Definition sameAmmo (s s' : State) : Prop :=
  map b_ammo (batteriesRef s') = map b_ammo (batteriesRef s).

(** The score the queue holds for its first update after [n] calls of
    [setScore] with the updater [u], the first of them in the state [s]. *)
Definition eagerAfter (u : ScoreUpdater) (n : nat) (s : State) : option Z :=
  match pending s, n with
  | [], S _ => Some (runUpdater u s)
  | _, _ => eagerState s
  end.

(** An enemy half way down, and an explosion burning next to it. *)
Definition strayEnemy : EnemyRocket :=
  mkEnemy "e2" 200 265 200 (-20) 200 550 0.5 ENEMY_SPEED_BASE.

Definition burning : Explosion := mkExplosion "exp-1" 200 270 20 40 0.75 false.

(** Two enemies far from that explosion. *)
Definition farEnemies : list EnemyRocket :=
  [ mkEnemy "e3" 480 122.5 600 (-20) 120 550 0.25 ENEMY_SPEED_BASE;
    mkEnemy "e4" 700 122.5 700 (-20) 760 550 0.25 ENEMY_SPEED_BASE ].

(** A rare explosion about to enter its peak window. *)
Definition rareBlast : Explosion := mkExplosion "rare-exp-1" 400 300 1050 1200 0.5625 true.

(** The session at 980 points with only the centre battery left, the enemy
    [fallingEnemy] about to hit it and [strayEnemy] about to be caught by
    [burning]. *)
Definition lastStand : State :=
  set_enemiesRef [fallingEnemy; strayEnemy]
    (set_explosionsRef [burning]
       (set_batteriesRef
          (match batteriesRef playing with
           | [l; c; r] => [batteryOff l; c; batteryOff r]
           | bs => bs
           end)
          (set_scoreRef 980 (set_score 980 playing)))).

(** The session with three enemies alive, [strayEnemy] next to [burning], and
    a rare explosion at its peak. *)
Definition rareScene : State :=
  set_enemiesRef (strayEnemy :: farEnemies)
    (set_explosionsRef [burning; rareBlast] playing).

(** ** A session with a rare explosion

    The window is 800 by 600.  The first draw of [Math.random] makes the
    interceptor fired by the click a RARE one; the draws 94 and 99, the tests
    at the head of the frames 30 and 31, make each of these frames spawn an
    enemy; no other frame spawns one. *)
Definition rareRandom (i : nat) : float :=
  if Nat.eqb i 0 then 0.0625
  else if Nat.eqb i 94 || Nat.eqb i 99 then 0
  else 0.5.

(** The frames [k], ..., [k + n - 1], 16 ms apart, each followed by a
    render. *)
Definition renderedFrames (k n : nat) : list Event :=
  flat_map (fun i => [Frame (floatOfNat (16 * i)); Render]) (seq k n).

(** The component is mounted and rendered, the game started, an interceptor
    fired at (400, 540), just above the centre battery, and 29 frames
    played: the interceptor explodes on frame 2, and the explosion has made
    28 steps. *)
Definition rareSession : State :=
  run exampleHost (mounted 800 600 rareRandom)
    ([Render; PressStart; Render; Click 400 540; Render] ++ renderedFrames 1 29).

(** The enemies in the store when the explosion phase of a frame run in [s]
    starts. *)
Definition liveEnemies (h : Host) (canvas : Canvas) (s : State) : list EnemyRocket :=
  enemiesRef
    (finalState
       ((spawnPhase h ;; enemyPhase h ;; missilePhase h canvas) (set_requestRef false s))).

(** ** Predicates for the properties of the other handlers *)

(** Only particles were pushed and values of [Math.random] drawn. *)
Definition onlyParticles (s s' : State) : Prop :=
  s' = set_particlesRef (particlesRef s') (set_randomUsed (randomUsed s') s).

(** The life of an explosion after one frame. *)
Definition nextLife (exp : Explosion) : float := x_life exp - 1 / EXPLOSION_DURATION.

(** The explosion a frame leaves in the store, when it keeps it. *)
Definition agedExplosion (exp : Explosion) : option Explosion :=
  if 0 <? nextLife exp
  then Some (mkExplosion (x_id exp) (x_x exp) (x_y exp)
               (explosionRadius (x_maxRadius exp) (nextLife exp)) (x_maxRadius exp)
               (nextLife exp) (x_isRare exp))
  else None.

(** [m] always returns the value [v], in a state related to the one it
    started in. *)
Definition runsTo (R : State -> State -> Prop) {A : Type} (v : A) (m : M A) : Prop :=
  forall s, exists s', m s = Returned v s' /\ R s s'.

(** The number of frames an explosion stays in the store, counted up to
    [fuel]. *)
Fixpoint framesAlive (fuel : nat) (exp : Explosion) : nat :=
  match fuel with
  | O => O
  | S fuel' =>
      match agedExplosion exp with
      | Some exp' => S (framesAlive fuel' exp')
      | None => O
      end
  end.

(** The explosion after [n] frames, if it is still in the store. *)
Fixpoint agedBy (n : nat) (exp : Explosion) : option Explosion :=
  match n with
  | O => Some exp
  | S n' =>
      match agedExplosion exp with
      | Some exp' => agedBy n' exp'
      | None => None
      end
  end.

(** Whether the rare bomb clears the store on the frame that takes the
    explosion [exp]. *)
Definition atPeak (exp : Explosion) : bool :=
  x_isRare exp && (nextLife exp <? c0_6) && (c0_4 <? nextLife exp).

(** The elements of a list at the even positions, counting from [index]. *)
Fixpoint evenIndexed {A : Type} (index : nat) (l : list A) : list A :=
  match l with
  | [] => []
  | a :: rest =>
      if Nat.even index then a :: evenIndexed (S index) rest
      else evenIndexed (S index) rest
  end.

(** The enemies within 300 units of a missile. *)
Definition nearbyEnemies (m : InterceptorMissile) (enemies : list EnemyRocket)
    : list EnemyRocket :=
  filter (fun e => distance (e_x e) (e_y e) (m_x m) (m_y m) <? 300) enemies.

(** The store of enemies once the enemies with the given ids are removed,
    one id after the other. *)
Definition killAll (ids : list string) (enemies : list EnemyRocket) : list EnemyRocket :=
  fold_left (fun es id => killById id es) ids enemies.

(** The stores of cities and batteries keep their lengths, and each defence
    that is active afterwards was active before. *)
Definition noRevival (s s' : State) : Prop :=
  Forall2 (fun c c' => c_active c' = true -> c_active c = true) (citiesRef s) (citiesRef s') /\
  Forall2 (fun b b' => b_active b' = true -> b_active b = true)
    (batteriesRef s) (batteriesRef s').

(** Six cities, three batteries, and an amount of ammunition between 0 and
    the maximum in each battery. *)
Definition wellFormed (s : State) : Prop :=
  List.length (citiesRef s) = 6%nat /\ List.length (batteriesRef s) = 3%nat /\
  Forall (fun b => (0 <= b_ammo b <= b_maxAmmo b)%Z) (batteriesRef s).

Definition keepsWellFormed (s s' : State) : Prop := wellFormed s -> wellFormed s'.

(** The number of frames a particle stays in the store, counted up to
    [fuel]. *)
Fixpoint particleFrames (fuel : nat) (p : Particle) : nat :=
  match fuel with
  | O => O
  | S fuel' =>
      match particleStep p with
      | Some p' => S (particleFrames fuel' p')
      | None => O
      end
  end.

(** Interceptors at their target and in flight, for the examples. *)
Definition arrived (type : MissileType) : InterceptorMissile :=
  mkMissile "m1" 300 200 400 550 300 200 0x1.0147ae147ae14p+0 type 0.

Definition inFlight : InterceptorMissile :=
  mkMissile "m2" 400 550 400 550 300 200 0 NORMAL 0.

(** Whether the id of an enemy is one of [ids]. *)
Definition idIn (ids : list string) (en : EnemyRocket) : bool :=
  existsb (String.eqb (e_id en)) ids.

(** Position, maximal radius and life of an explosion. *)
Definition blastShape (x : Explosion) : float * float * float * float :=
  (x_x x, x_y x, x_maxRadius x, x_life x).

(** The session [playing], paused. *)
Definition pausedGame : State := set_isPausedRef true (set_isPaused true playing).

(** What a resize leaves of a city and of a battery, and where it puts
    them. *)
Definition cityKept (c : City) : string * bool := (c_id c, c_active c).
Definition cityPlace (c : City) : float * float := (c_x c, c_y c).
Definition batteryKept (b : Battery) : string * bool * Z * Z :=
  (b_id b, b_active b, b_ammo b, b_maxAmmo b).
Definition batteryPlace (b : Battery) : float * float := (b_x b, b_y b).

(** The six stores of entities. *)
Definition stores (s : State) :=
  (enemiesRef s, missilesRef s, explosionsRef s, citiesRef s, batteriesRef s,
   particlesRef s).

(** The session [lastStand] one frame and one render later: the game is
    over. *)
Definition gameOver : State := render (finalState (update exampleHost 0 lastStand)).

(** The ammunition of the three batteries, as [fireMissile] reads it for
    [setAmmo]. *)
Definition ammoOf (bs : list Battery) : option Ammo :=
  match bs with
  | b0 :: b1 :: b2 :: _ => Some (mkAmmo (b_ammo b0) (b_ammo b1) (b_ammo b2))
  | _ => None
  end.

(** The ammunition the next render shows: the last one queued, if any. *)
Definition lastAmmo (l : list Update) (a : Ammo) : Ammo :=
  fold_left (fun a u => match u with SetAmmo a' => a' | _ => a end) l a.

(** The ammunition the next render shows is that of the batteries. *)
Definition ammoShown (s : State) : Prop :=
  ammoOf (batteriesRef s) = Some (lastAmmo (pending s) (ammo s)).

Definition keepsAmmoShown (s s' : State) : Prop := ammoShown s -> ammoShown s'.

(** No more enemies than before. *)
Definition fewerEnemies (s s' : State) : Prop :=
  (List.length (enemiesRef s') <= List.length (enemiesRef s))%nat.

(** The point [p] is the position of a city or of a battery of [s] whose
    flag is on. *)
Definition isActiveDefence (s : State) (p : float * float) : Prop :=
  (exists c, In c (citiesRef s) /\ c_active c = true /\ p = (c_x c, c_y c)) \/
  (exists b, In b (batteriesRef s) /\ b_active b = true /\ p = (b_x b, b_y b)).

(** No city and no battery of [s] has its flag on. *)
Definition noActiveDefence (s : State) : Prop :=
  (forall c, In c (citiesRef s) -> c_active c = false) /\
  (forall b, In b (batteriesRef s) -> b_active b = false).

(** The enemy is strictly inside the circle of the given radius around the
    explosion. *)
Definition caught (exp : Explosion) (radius : float) (e : EnemyRocket) : bool :=
  PrimFloat.sqrt ((e_x e - x_x exp) * (e_x e - x_x exp)
                  + (e_y e - x_y exp) * (e_y e - x_y exp)) <? radius.

(** * Facts about binary64 arithmetic, from its specification *)

Ltac cmp_cases :=
  repeat match goal with
  | H : context [Z.compare ?a ?b] |- _ => destruct (Z.compare_spec a b)
  | |- context [Z.compare ?a ?b] => destruct (Z.compare_spec a b)
  | H : context [Pos.compare_cont Eq ?a ?b] |- _ =>
      change (Pos.compare_cont Eq a b) with (Pos.compare a b) in H
  | |- context [Pos.compare_cont Eq ?a ?b] =>
      change (Pos.compare_cont Eq a b) with (Pos.compare a b)
  | H : context [Pos.compare ?a ?b] |- _ => destruct (Pos.compare_spec a b)
  | |- context [Pos.compare ?a ?b] => destruct (Pos.compare_spec a b)
  end.

Ltac sf_order :=
  unfold SFltb, SFleb, SFeqb, SFcompare; intros;
  repeat match goal with
  | x : spec_float |- _ => destruct x
  | b : bool |- _ => destruct b
  end;
  simpl in *; try congruence; try reflexivity;
  cmp_cases; simpl in *; subst; try congruence; try reflexivity; try lia.

Lemma SFltb_trans x y z : SFltb x y = true -> SFltb y z = true -> SFltb x z = true.
Proof. sf_order. Qed.

Lemma SFltb_below x y z :
  SFltb x y = true -> SFltb z y = false -> z <> S754_nan -> SFltb x z = true.
Proof. sf_order. Qed.

Lemma ltb_trans x y z : (x <? y) = true -> (y <? z) = true -> (x <? z) = true.
Proof. rewrite !ltb_spec. apply SFltb_trans. Qed.

Lemma Prim2SF_eq x y : Prim2SF x = Prim2SF y -> x = y.
Proof. apply Prim2SF_inj. Qed.

Lemma SFeqb_refl s : s <> S754_nan -> SFeqb s s = true.
Proof.
  unfold SFeqb, SFcompare. destruct s as [[|]|[|]| |[|] m e]; try congruence; intros _; try reflexivity.
  - rewrite Z.compare_refl. change (Pos.compare_cont Eq m m) with (Pos.compare m m).
    now rewrite Pos.compare_refl.
  - rewrite Z.compare_refl. change (Pos.compare_cont Eq m m) with (Pos.compare m m).
    now rewrite Pos.compare_refl.
Qed.

Lemma is_nan_spec x : is_nan x = false <-> Prim2SF x <> S754_nan.
Proof.
  unfold is_nan. rewrite eqb_spec. split.
  - intros H E. rewrite E in H. discriminate.
  - intros H. now rewrite SFeqb_refl.
Qed.


Lemma shift52 m : (m * 4503599627370496)%positive = Pos.iter xO m 52.
Proof. rewrite Pos.mul_comm. reflexivity. Qed.

Lemma SFmul_one s m e :
  bounded prec emax m e = true ->
  SF64mul (S754_finite s m e) (Prim2SF 1) = S754_finite s m e.
Proof.
  intros Hb. unfold bounded, canonical_mantissa in Hb.
  apply andb_prop in Hb. destruct Hb as [Hc He].
  apply Z.eqb_eq in Hc.
  change (Prim2SF 1) with (S754_finite false 4503599627370496 (-52)).
  unfold SF64mul, SFmul. rewrite xorb_false_r.
  unfold binary_round_aux.
  assert (Hd : (Zdigits2 (Zpos (m * 4503599627370496)) + (e + -52) = Zpos (digits2_pos m) + e)%Z).
  { rewrite shift52. cbn [Pos.iter Zdigits2 digits2_pos Pos.iter_op].
    rewrite !Pos2Z.inj_succ. lia. }
  unfold shr_fexp at 1. rewrite Hd, Hc.
  replace (e - (e + -52))%Z with 52%Z by lia.
  rewrite shift52.
  unfold shr. cbn [Pos.iter Pos.iter_op shr_record_of_loc iter_pos shr_1 orb].
  replace (e + -52 + 52)%Z with e by lia.
  cbn [shr_m loc_of_shr_record round_nearest_even].
  unfold shr_fexp. cbn [Zdigits2]. rewrite Hc, Z.sub_diag.
  cbn [shr shr_record_of_loc shr_m]. now rewrite He.
Qed.

Lemma Prim2SF_zero : Prim2SF 0 = S754_zero false.
Proof. reflexivity. Qed.

Lemma Prim2SF_infinity : Prim2SF infinity = S754_infinity false.
Proof. reflexivity. Qed.

(** A float above zero is a positive finite number or [+infinity]. *)
Lemma positive_cases x :
  (0 <? x) = true ->
  Prim2SF x = S754_infinity false \/ exists m e, Prim2SF x = S754_finite false m e.
Proof.
  rewrite ltb_spec, Prim2SF_zero. unfold SFltb, SFcompare.
  destruct (Prim2SF x) as [[|]|[|]| |[|] m e]; try discriminate; eauto.
Qed.

Lemma mul_one x : (0 <? x) = true -> x * 1 = x.
Proof.
  intros H. apply Prim2SF_inj. rewrite mul_spec.
  destruct (positive_cases x H) as [E|(m & e & E)].
  - rewrite E. reflexivity.
  - pose proof (Prim2SF_valid x) as V. rewrite E in *. now apply SFmul_one.
Qed.

Lemma mul_zero x : (0 <? x) = true -> (x <? infinity) = true -> x * 0 = 0.
Proof.
  intros H Hf. apply Prim2SF_inj. rewrite mul_spec, Prim2SF_zero.
  destruct (positive_cases x H) as [E|(m & e & E)].
  - rewrite ltb_spec, E in Hf. discriminate.
  - rewrite E. reflexivity.
Qed.

Lemma positive_not_nan x : (0 <? x) = true -> is_nan x = false.
Proof.
  intros H. apply is_nan_spec.
  destruct (positive_cases x H) as [E|(m & e & E)]; rewrite E; discriminate.
Qed.

Lemma finite_cases x :
  finite x = true ->
  (exists s, Prim2SF x = S754_zero s) \/ exists s m e, Prim2SF x = S754_finite s m e.
Proof.
  unfold finite. rewrite ltb_spec, abs_spec, Prim2SF_infinity.
  destruct (Prim2SF x) as [s|s| |s m e]; simpl; try discriminate; eauto.
Qed.

Lemma sub_diag x : finite x = true -> x - x = 0.
Proof.
  intros H. apply Prim2SF_inj. rewrite sub_spec, Prim2SF_zero.
  destruct (finite_cases x H) as [(s & E)|(s & m & e & E)]; rewrite E.
  - now destruct s.
  - unfold SF64sub, SFsub. now rewrite Z.sub_diag.
Qed.

Lemma div_zero x : (0 <? x) = true -> x / 0 = infinity.
Proof.
  intros H. apply Prim2SF_inj. rewrite div_spec, Prim2SF_zero, Prim2SF_infinity.
  destruct (positive_cases x H) as [E|(m & e & E)]; rewrite E; reflexivity.
Qed.

Lemma add_infinity x : (0 <=? x) = true -> x + infinity = infinity.
Proof.
  intros H. apply Prim2SF_inj. rewrite add_spec, Prim2SF_infinity.
  rewrite leb_spec, Prim2SF_zero in H. unfold SFleb, SFcompare in H.
  destruct (Prim2SF x) as [[|]|[|]| |[|] m e]; try discriminate; reflexivity.
Qed.

Lemma below_infinity_not_nan x : (x <? infinity) = true -> Prim2SF x <> S754_nan.
Proof.
  rewrite ltb_spec. intros H E. rewrite E in H. discriminate.
Qed.

Lemma ltb_irrefl x : (x <? x) = false.
Proof.
  rewrite ltb_spec. unfold SFltb, SFcompare.
  destruct (Prim2SF x) as [[|]|[|]| |[|] m e]; try reflexivity;
    rewrite Z.compare_refl;
    change (Pos.compare_cont Eq m m) with (Pos.compare m m);
    now rewrite Pos.compare_refl.
Qed.

Lemma ltb_below x y z :
  (x <? y) = true -> (z <? y) = false -> (z <? infinity) = true -> (x <? z) = true.
Proof.
  intros H1 H2 H3. pose proof (below_infinity_not_nan z H3) as Hz.
  rewrite ltb_spec in *. eapply SFltb_below; eassumption.
Qed.

(** * Reasoning about handlers *)

Section Handlers.

Context {R : State -> State -> Prop} `{PreOrder State R}.

Lemma runs_ret {A : Type} (a : A) : runs R (ret a).
Proof. intros s. exists a, s. split; [reflexivity|reflexivity]. Qed.

Lemma runs_bind {A B : Type} (m : M A) (k : A -> M B) :
  runs R m -> (forall a, runs R (k a)) -> runs R (bind m k).
Proof.
  intros Hm Hk s. destruct (Hm s) as (a & s1 & E1 & R1).
  destruct (Hk a s1) as (b & s2 & E2 & R2).
  exists b, s2. unfold bind. rewrite E1. split; [exact E2|].
  etransitivity; eassumption.
Qed.

Lemma runs_gets {A : Type} (f : State -> A) : runs R (gets f).
Proof. intros s. exists (f s), s. split; reflexivity. Qed.

Lemma runs_modify (f : State -> State) : (forall s, R s (f s)) -> runs R (modify f).
Proof. intros Hf s. exists tt, (f s). split; [reflexivity|apply Hf]. Qed.

Lemma runs_when (b : bool) (m : M unit) : runs R m -> runs R (when b m).
Proof. destruct b; simpl; [trivial|intros _; apply runs_ret]. Qed.

Lemma runs_forLoop (body : nat -> M unit) (n i : nat) :
  (forall j, runs R (body j)) -> runs R (forLoop i n body).
Proof.
  intros Hb. revert i. induction n as [|n IH]; intros i; simpl.
  - apply runs_ret.
  - apply runs_bind; [apply Hb|intros _; apply IH].
Qed.

Lemma runs_filterM {A : Type} (f : A -> M (option A)) (l : list A) :
  (forall a, runs R (f a)) -> runs R (filterM f l).
Proof.
  intros Hf. induction l as [|a l IH]; simpl.
  - apply runs_ret.
  - apply runs_bind; [apply Hf|intros r].
    apply runs_bind; [apply IH|intros rest; apply runs_ret].
Qed.

Lemma runs_random :
  (forall s, R s (set_randomUsed (S (randomUsed s)) s)) -> runs R Math_random.
Proof. intros Hr s. eexists _, _. split; [reflexivity|apply Hr]. Qed.

Lemma runs_keeps {A : Type} (m : M A) : runs R m -> keeps R m.
Proof. intros Hm s. destruct (Hm s) as (a & s' & E & HR). now rewrite E. Qed.

Lemma keeps_ret {A : Type} (a : A) : keeps R (ret a).
Proof. intros s. simpl. reflexivity. Qed.

Lemma keeps_throw {A : Type} : keeps R (@throwTypeError A).
Proof. intros s. simpl. reflexivity. Qed.

Lemma keeps_bind {A B : Type} (m : M A) (k : A -> M B) :
  keeps R m -> (forall a, keeps R (k a)) -> keeps R (bind m k).
Proof.
  intros Hm Hk s. unfold bind. specialize (Hm s).
  destruct (m s) as [a s1|s1]; simpl in *; [|exact Hm].
  etransitivity; [exact Hm|apply Hk].
Qed.

Lemma keeps_when (b : bool) (m : M unit) : keeps R m -> keeps R (when b m).
Proof. destruct b; simpl; [trivial|intros _; apply keeps_ret]. Qed.

End Handlers.

(** Decomposes a goal [runs R m] or [keeps R m] along the structure of [m];
    what is left are the writes, each as [R s (f s)]. *)
Ltac handler_step :=
  match goal with
  | |- runs _ (ret _) => apply runs_ret
  | |- runs _ (bind _ _) => apply runs_bind; [|intros]
  | |- runs _ (gets _) => apply runs_gets
  | |- runs _ (when _ _) => apply runs_when
  | |- runs _ (forLoop _ _ _) => apply runs_forLoop; intros
  | |- runs _ (filterM _ _) => apply runs_filterM; intros
  | |- runs _ (modify _) => apply runs_modify; intros
  | |- runs _ Math_random => apply runs_random; intros
  | |- runs _ (if ?b then _ else _) => destruct b
  | |- runs _ (match ?x with _ => _ end) => destruct x
  | |- keeps _ (ret _) => apply keeps_ret
  | |- keeps _ throwTypeError => apply keeps_throw
  | |- keeps _ (bind _ _) => apply keeps_bind; [|intros]
  | |- keeps _ (when _ _) => apply keeps_when
  | |- keeps _ (if ?b then _ else _) => destruct b
  | |- keeps _ (match ?x with _ => _ end) => destruct x
  | |- keeps _ (gets _) => apply runs_keeps
  | |- keeps _ (modify _) => apply runs_keeps
  | |- keeps _ Math_random => apply runs_keeps
  | |- keeps _ (filterM _ _) => apply runs_keeps
  | |- keeps _ (forLoop _ _ _) => apply runs_keeps
  end.

(** [known] closes the goals about recursive handlers, [unfolding] unfolds
    the others. *)
Ltac handler known unfolding :=
  repeat (first [ known | handler_step | progress (cbv zeta) | progress unfolding ]).

Ltac unfold_handlers :=
  unfold update, simulate, spawnPhase, spawnEnemy, enemyPhase, enemyStep,
    missilePhase, missileStep, explosionPhase, explosionStep, particlePhase,
    checkWinLoss, requestAnimationFrame, drawRocket, droneSubBomb, droneFinalBurst,
    rareExplosion, lightningStrike, normalExplosion, spawnParticle, rareClear,
    blastEnemies, pushExplosion, pushParticle, setScore, setGameState, setAmmo,
    enqueue, initGame, handleResize, startGame, handleCanvasClick, togglePause,
    animationFrame.

(** Reads the fields of a state written by the setters. *)
Ltac fields :=
  cbn [gameState score ammo isPaused pending eagerState enemiesRef missilesRef explosionsRef citiesRef batteriesRef particlesRef requestRef scoreRef gameStateRef isPausedRef canvasRef innerWidth innerHeight randomSource randomUsed
       set_gameState set_score set_ammo set_isPaused set_pending set_eagerState set_enemiesRef set_missilesRef set_explosionsRef set_citiesRef set_batteriesRef set_particlesRef set_requestRef set_scoreRef set_gameStateRef set_isPausedRef set_canvasRef set_innerWidth set_innerHeight set_randomSource set_randomUsed].

#[export] Instance quiet_preorder : PreOrder quiet.
Proof.
  split.
  - intros s. unfold quiet. repeat split. exists []. now rewrite app_nil_r.
  - intros a b c (A1 & A2 & A3 & A4 & A5 & A6 & A7 & A8 & A9 & ea & Ea & Fa)
      (B1 & B2 & B3 & B4 & B5 & B6 & B7 & B8 & B9 & eb & Eb & Fb).
    unfold quiet. repeat split; try congruence.
    exists (ea ++ eb). split.
    + now rewrite Eb, Ea, app_assoc.
    + apply Forall_app. now split.
Qed.

#[export] Instance sameDefences_preorder : PreOrder sameDefences.
Proof.
  split.
  - intros s. now split.
  - intros a b c [A1 A2] [B1 B2]. split; congruence.
Qed.

#[export] Instance enemiesShrink_preorder : PreOrder enemiesShrink.
Proof.
  split.
  - intros s. apply incl_refl.
  - intros a b c Hab Hbc. unfold enemiesShrink in *. eapply incl_tran; eassumption.
Qed.

Ltac quiet_write :=
  unfold quiet; fields; repeat split;
  first [ exists []; split; [now rewrite app_nil_r | constructor]
        | eexists; split; [reflexivity | repeat constructor; eexists; reflexivity] ].

Lemma lightningChain_quiet h nearby : forall index, runs quiet (lightningChain h index nearby).
Proof.
  induction nearby as [|e rest IH]; intros index; cbn [lightningChain].
  - apply runs_ret.
  - apply runs_bind; [|intros; apply IH].
    handler fail unfold_handlers; quiet_write.
Qed.

Ltac quiet_known :=
  idtac; match goal with |- runs _ (lightningChain _ _ _) => apply lightningChain_quiet end.

Lemma enemyPhase_quiet h : runs quiet (enemyPhase h).
Proof. handler quiet_known unfold_handlers; quiet_write. Qed.

Lemma missilePhase_quiet h canvas : runs quiet (missilePhase h canvas).
Proof. handler quiet_known unfold_handlers; quiet_write. Qed.

Lemma explosionPhase_quiet h time : runs quiet (explosionPhase h time).
Proof. handler quiet_known unfold_handlers; quiet_write. Qed.

Lemma particlePhase_quiet : runs quiet particlePhase.
Proof. handler quiet_known unfold_handlers; quiet_write. Qed.

Lemma spawnPhase_quiet h : keeps quiet (spawnPhase h).
Proof. handler quiet_known unfold_handlers; quiet_write. Qed.

(** * The enemy step *)

Lemma deactivateFirst_spec {A : Type} (test : A -> bool) (off : A -> A) (l : list A) :
  firstHitOff test off l (deactivateFirst test off l).
Proof.
  induction l as [|a l IH]; simpl.
  - left. split; [constructor|reflexivity].
  - destruct (test a) eqn:Ha.
    + right. exists [], a, l. repeat split; [constructor|assumption].
    + destruct IH as [[Hall E]|(l1 & b & l2 & E & Hall & Hb & E')].
      * left. split; [now constructor|now rewrite E].
      * right. exists (a :: l1), b, l2. simpl. rewrite E at 1. rewrite E'.
        repeat split; [now constructor|assumption].
Qed.

Lemma enemyStep_impact h enemy s :
  (1 <=? e_progress (advanceEnemy enemy)) = true ->
  enemyStep h enemy s =
  Returned None
    (set_batteriesRef
       (deactivateFirst (batteryHit (e_targetX enemy)) batteryOff (batteriesRef s))
       (set_citiesRef
          (deactivateFirst (cityHit (e_targetX enemy)) cityOff (citiesRef s))
          (set_explosionsRef
             (explosionsRef s ++
              [impactExplosion
                 ("impact-" ++ numToString h (randomSource s (S (randomUsed s))))%string
                 (advanceEnemy enemy)])
             (set_randomUsed (S (S (randomUsed s))) s)))).
Proof.
  intros Hp. cbv [enemyStep drawRocket bind Math_random ret].
  rewrite Hp. reflexivity.
Qed.

Lemma enemyStep_flight h enemy s :
  (1 <=? e_progress (advanceEnemy enemy)) = false ->
  enemyStep h enemy s =
  Returned (Some (advanceEnemy enemy)) (set_randomUsed (S (randomUsed s)) s).
Proof.
  intros Hp. cbv [enemyStep drawRocket bind Math_random ret].
  rewrite Hp. reflexivity.
Qed.

Lemma impact_deactivates_target_aux h enemy s :
  (1 <=? e_progress (advanceEnemy enemy)) = true ->
  exists id s',
    enemyStep h enemy s = Returned None s' /\
    explosionsRef s' =
      explosionsRef s ++ [mkExplosion id (e_targetX enemy) (e_targetY enemy) 0 30 1 false].
Proof.
  intros Hp. rewrite (enemyStep_impact h enemy s Hp).
  eexists _, _. split; reflexivity.
Qed.

(** C4: on the tick the progress of an enemy reaches or exceeds 1, the enemy
    is removed (the callback of [filter] answers [None]), one impact
    explosion of maximal radius 30 is pushed at its target point, and in each
    of the two stores of cities and batteries the first element whose
    x-coordinate is within 5 units of the target's has its flag [active] set
    to [false], every other city and battery, and every other field of that
    one, being left as it was. *)
Theorem impact_deactivates_target h enemy s :
  arrives enemy = true ->
  exists id s',
    enemyStep h enemy s = Returned None s' /\
    explosionsRef s' =
      explosionsRef s ++ [mkExplosion id (e_targetX enemy) (e_targetY enemy) 0 30 1 false] /\
    firstHitOff (fun c => abs (c_x c - e_targetX enemy) <? 5)
      (fun c => mkCity (c_id c) (c_x c) (c_y c) false)
      (citiesRef s) (citiesRef s') /\
    firstHitOff (fun b => abs (b_x b - e_targetX enemy) <? 5)
      (fun b => mkBattery (b_id b) (b_x b) (b_y b) false (b_ammo b) (b_maxAmmo b))
      (batteriesRef s) (batteriesRef s').
Proof.
  intros Hp. rewrite (enemyStep_impact h enemy s Hp).
  eexists _, _. split; [reflexivity|]. fields.
  split; [reflexivity|].
  split; [exact (deactivateFirst_spec (cityHit (e_targetX enemy)) cityOff (citiesRef s))|].
  exact (deactivateFirst_spec (batteryHit (e_targetX enemy)) batteryOff (batteriesRef s)).
Qed.

Lemma impact_deactivates_target_witness :
  exists id s',
    enemyStep exampleHost fallingEnemy playing = Returned None s' /\
    explosionsRef s' =
      explosionsRef playing ++
      [mkExplosion id (e_targetX fallingEnemy) (e_targetY fallingEnemy) 0 30 1 false] /\
    firstHitOff (fun c => abs (c_x c - e_targetX fallingEnemy) <? 5)
      (fun c => mkCity (c_id c) (c_x c) (c_y c) false)
      (citiesRef playing) (citiesRef s') /\
    firstHitOff (fun b => abs (b_x b - e_targetX fallingEnemy) <? 5)
      (fun b => mkBattery (b_id b) (b_x b) (b_y b) false (b_ammo b) (b_maxAmmo b))
      (batteriesRef playing) (batteriesRef s').
Proof.
  apply (impact_deactivates_target exampleHost fallingEnemy playing).
  vm_compute. reflexivity.
Defined.

(** * The radius of an explosion *)

Lemma Math_max_zero_positive x : (0 <? x) = true -> Math_max 0 x = x.
Proof.
  intros H. unfold Math_max. rewrite (positive_not_nan x H).
  change (is_nan 0) with false. simpl. now rewrite H.
Qed.

(** C5: the radius as a function of the life is the triangular profile: for
    a positive finite maximal radius it is 0 at life 1, the maximal radius at
    life 0.5 and 0 at life 0, following [maxRadius * (1 - (life - 0.5) * 2)]
    above 0.5 and [maxRadius * (life * 2)] from 0.5 down. *)
Theorem explosion_radius_profile maxRadius :
  (0 <? maxRadius) = true -> (maxRadius <? infinity) = true ->
  explosionRadius maxRadius 1 = 0 /\
  explosionRadius maxRadius 0.5 = maxRadius /\
  explosionRadius maxRadius 0 = 0 /\
  (forall life, (0.5 <? life) = true ->
     explosionRadius maxRadius life = Math_max 0 (maxRadius * (1 - (life - 0.5) * 2))) /\
  (forall life, (0.5 <? life) = false ->
     explosionRadius maxRadius life = Math_max 0 (maxRadius * (life * 2))).
Proof.
  intros Hpos Hfin. unfold explosionRadius. repeat split.
  - change (0.5 <? 1) with true. cbv iota.
    change (1 - (1 - 0.5) * 2) with 0. now rewrite mul_zero.
  - change (0.5 <? 0.5) with false. cbv iota.
    change (0.5 * 2) with 1. rewrite mul_one by assumption.
    now apply Math_max_zero_positive.
  - change (0.5 <? 0) with false. cbv iota.
    change (0 * 2) with 0. now rewrite mul_zero.
  - intros life Hl. now rewrite Hl.
  - intros life Hl. now rewrite Hl.
Qed.

Lemma explosion_radius_profile_witness :
  explosionRadius EXPLOSION_RADIUS 1 = 0 /\
  explosionRadius EXPLOSION_RADIUS 0.5 = EXPLOSION_RADIUS /\
  explosionRadius EXPLOSION_RADIUS 0 = 0 /\
  (forall life, (0.5 <? life) = true ->
     explosionRadius EXPLOSION_RADIUS life
     = Math_max 0 (EXPLOSION_RADIUS * (1 - (life - 0.5) * 2))) /\
  (forall life, (0.5 <? life) = false ->
     explosionRadius EXPLOSION_RADIUS life = Math_max 0 (EXPLOSION_RADIUS * (life * 2))).
Proof.
  apply (explosion_radius_profile EXPLOSION_RADIUS); vm_compute; reflexivity.
Defined.

(** * Degenerate geometry *)

Lemma degenerate_dist enemy :
  e_targetX enemy = e_startX enemy -> e_targetY enemy = e_startY enemy ->
  finite (e_startX enemy) = true -> finite (e_startY enemy) = true ->
  enemyDist enemy = 0.
Proof.
  intros Hx Hy Fx Fy. unfold enemyDist. rewrite Hx, Hy.
  rewrite (sub_diag _ Fx), (sub_diag _ Fy). reflexivity.
Qed.

(** C3, as the code has it: for an enemy whose target is its start point
    (finite coordinates, positive speed, progress not below 0) the frame
    divides the speed by a distance of zero, which gives [infinity]; the
    progress becomes [infinity], so the enemy is an immediate impact: it is
    removed on that tick and one impact explosion is pushed at its target
    point. *)
Theorem degenerate_enemy_impacts h enemy s :
  e_targetX enemy = e_startX enemy -> e_targetY enemy = e_startY enemy ->
  finite (e_startX enemy) = true -> finite (e_startY enemy) = true ->
  (0 <? e_speed enemy) = true -> (0 <=? e_progress enemy) = true ->
  enemyDist enemy = 0 /\
  e_speed enemy / enemyDist enemy = infinity /\
  e_progress (advanceEnemy enemy) = infinity /\
  exists id s',
    enemyStep h enemy s = Returned None s' /\
    explosionsRef s' =
      explosionsRef s ++ [mkExplosion id (e_targetX enemy) (e_targetY enemy) 0 30 1 false].
Proof.
  intros Hx Hy Fx Fy Hs Hp.
  pose proof (degenerate_dist enemy Hx Hy Fx Fy) as Hd.
  assert (Hq : e_speed enemy / enemyDist enemy = infinity)
    by (rewrite Hd; now apply div_zero).
  assert (Hi : e_progress (advanceEnemy enemy) = infinity).
  { unfold advanceEnemy. cbn [e_progress]. rewrite Hq. now apply add_infinity. }
  repeat split; try assumption.
  destruct (impact_deactivates_target_aux h enemy s) as (id & s' & E & X).
  { rewrite Hi. reflexivity. }
  now exists id, s'.
Qed.

Lemma degenerate_enemy_impacts_witness :
  enemyDist degenerateEnemy = 0 /\
  e_speed degenerateEnemy / enemyDist degenerateEnemy = infinity /\
  e_progress (advanceEnemy degenerateEnemy) = infinity /\
  exists id s',
    enemyStep exampleHost degenerateEnemy playing = Returned None s' /\
    explosionsRef s' = explosionsRef playing ++ [mkExplosion id 120 (-20) 0 30 1 false].
Proof.
  apply (degenerate_enemy_impacts exampleHost degenerateEnemy playing);
    vm_compute; reflexivity.
Defined.

(** C3 fails as stated: for the enemy spawned on its own target the divisor
    of the progress computation is zero, and the position the frame gives the
    enemy is not a number. *)
Lemma degenerate_enemy_divides_by_zero :
  enemyDist degenerateEnemy = 0 /\
  is_nan (e_x (advanceEnemy degenerateEnemy)) = true /\
  is_nan (e_y (advanceEnemy degenerateEnemy)) = true.
Proof. vm_compute. repeat split. Qed.

(** * The drone *)

Lemma advanceMissile_type m : m_type (advanceMissile m) = m_type m.
Proof. unfold advanceMissile. now destruct (m_progress m <? 1). Qed.

Lemma advanceMissile_hoverTimer m : m_hoverTimer (advanceMissile m) = m_hoverTimer m.
Proof. unfold advanceMissile. now destruct (m_progress m <? 1). Qed.

Lemma state_eta s :
  set_explosionsRef (explosionsRef s) (set_randomUsed (randomUsed s) s) = s.
Proof. now destruct s. Qed.

(** A loop that draws an id and pushes one explosion per round. *)
Lemma forLoop_push (mk : nat -> float -> Explosion) n : forall i s,
  forLoop i n (fun j => rid <- Math_random ;; pushExplosion (mk j rid)) s =
  Returned tt
    (set_explosionsRef
       (explosionsRef s ++
        map (fun k => mk (i + k)%nat (randomSource s (randomUsed s + k))) (seq 0 n))
       (set_randomUsed (randomUsed s + n) s)).
Proof.
  induction n as [|n IH]; intros i s.
  - cbn [forLoop seq map ret]. rewrite app_nil_r, Nat.add_0_r. now rewrite state_eta.
  - cbn [forLoop]. unfold bind at 1.
    change ((rid <- Math_random ;; pushExplosion (mk i rid)) s)
      with (Returned tt
              (set_explosionsRef (explosionsRef s ++ [mk i (randomSource s (randomUsed s))])
                 (set_randomUsed (S (randomUsed s)) s))).
    cbv beta iota. rewrite IH. f_equal.
    cbn [seq map]. rewrite <- seq_shift, map_map.
    destruct s. unfold set_explosionsRef, set_randomUsed. simpl.
    rewrite <- app_assoc. cbn [app].
    rewrite !Nat.add_0_r.
    f_equal; [|lia]. do 2 f_equal.
    apply map_ext. intros k. now rewrite !Nat.add_succ_r.
Qed.

Lemma map_combine_self {A B C : Type} (f : A -> B -> C) (g : A -> B) (l : list A) :
  map (fun p => f (fst p) (snd p)) (combine l (map g l)) = map (fun k => f k (g k)) l.
Proof. induction l as [|a l IH]; simpl; [reflexivity|now rewrite IH]. Qed.

(** The explosions [droneFinalExplosion] builds are those of [finalBurst]. *)
Lemma finalBurst_code h m ids :
  finalBurst h m ids
  = map (fun p => droneFinalExplosion h m (fst p) (snd p)) (combine (seq 0 12) ids).
Proof. reflexivity. Qed.

Lemma droneFinalBurst_run h m s :
  droneFinalBurst h m (set_randomUsed (S (randomUsed s)) s) =
  Returned tt
    (set_explosionsRef (explosionsRef s ++ finalBurst h m (burstIds h s))
       (set_randomUsed (S (randomUsed s) + 12)%nat s)).
Proof.
  unfold droneFinalBurst.
  rewrite (forLoop_push
    (fun i rid => droneFinalExplosion h m i ("drone-final-exp-" ++ numToString h rid)%string)).
  rewrite finalBurst_code. unfold burstIds. rewrite map_combine_self.
  destruct s. reflexivity.
Qed.

(** C6, as the code has it: a drone at its target whose countdown is still
    above 0 is kept, its countdown one lower, and pushes at most one sub-bomb
    (also on the tick the countdown reaches 0); a drone at its target whose
    countdown is 0 when the tick starts pushes exactly twelve explosions of
    maximal radius [EXPLOSION_RADIUS], at 80 units from its position under
    the angles [i / 12] of a turn, and is removed on that tick. *)
Theorem drone_final_burst h canvas m s :
  m_type m = DRONE -> (1 <=? m_progress (advanceMissile m)) = true ->
  ((m_hoverTimer m <= 0)%Z ->
     exists ids s',
       List.length ids = 12%nat /\
       missileStep h canvas m s = Returned None s' /\
       explosionsRef s' = explosionsRef s ++ finalBurst h (advanceMissile m) ids) /\
  ((0 < m_hoverTimer m)%Z ->
     exists m' s',
       missileStep h canvas m s = Returned (Some m') s' /\
       m_hoverTimer m' = (m_hoverTimer m - 1)%Z /\ m_type m' = DRONE /\
       (m_x m', m_y m') = (m_x (advanceMissile m), m_y (advanceMissile m)) /\
       (explosionsRef s' = explosionsRef s \/
        exists e, explosionsRef s' = explosionsRef s ++ [e] /\
                  x_maxRadius e = EXPLOSION_RADIUS * c0_6)).
Proof.
  intros Ht Hp. split; intros Hc.
  - exists (burstIds h s). eexists. split.
    { unfold burstIds. now rewrite length_map, length_seq. }
    cbv [missileStep drawRocket bind Math_random ret].
    rewrite Hp, advanceMissile_type, Ht, advanceMissile_hoverTimer.
    apply Z.ltb_ge in Hc. rewrite Hc.
    rewrite droneFinalBurst_run. split; reflexivity.
  - cbv [missileStep drawRocket bind Math_random ret].
    rewrite Hp, advanceMissile_type, Ht, advanceMissile_hoverTimer.
    apply Z.ltb_lt in Hc. rewrite Hc.
    cbn [setHoverTimer m_hoverTimer].
    destruct (Z.rem (m_hoverTimer m - 1) 20 =? 0)%Z.
    + eexists _, _. split; [reflexivity|].
      cbn [m_hoverTimer m_type m_x m_y setHoverTimer].
      rewrite advanceMissile_type, Ht. repeat split.
      right. eexists. split; reflexivity.
    + eexists _, _. split; [reflexivity|].
      cbn [m_hoverTimer m_type m_x m_y setHoverTimer].
      rewrite advanceMissile_type, Ht. repeat split. now left.
Qed.

Lemma drone_final_burst_witness :
  ((m_hoverTimer (hoveringDrone 0) <= 0)%Z ->
     exists ids s',
       List.length ids = 12%nat /\
       missileStep exampleHost (mkCanvas 800 600) (hoveringDrone 0) playing = Returned None s' /\
       explosionsRef s' =
         explosionsRef playing ++ finalBurst exampleHost (advanceMissile (hoveringDrone 0)) ids) /\
  ((0 < m_hoverTimer (hoveringDrone 0))%Z ->
     exists m' s',
       missileStep exampleHost (mkCanvas 800 600) (hoveringDrone 0) playing
       = Returned (Some m') s' /\
       m_hoverTimer m' = (m_hoverTimer (hoveringDrone 0) - 1)%Z /\ m_type m' = DRONE /\
       (m_x m', m_y m')
       = (m_x (advanceMissile (hoveringDrone 0)), m_y (advanceMissile (hoveringDrone 0))) /\
       (explosionsRef s' = explosionsRef playing \/
        exists e, explosionsRef s' = explosionsRef playing ++ [e] /\
                  x_maxRadius e = EXPLOSION_RADIUS * c0_6)).
Proof.
  apply (drone_final_burst exampleHost (mkCanvas 800 600) (hoveringDrone 0) playing);
    vm_compute; reflexivity.
Defined.

(** C6 fails as stated: on the tick the countdown of a hovering drone goes
    from 1 to 0 the drone is kept and pushes one sub-bomb, not twelve
    explosions. *)
Lemma drone_kept_when_countdown_reaches_zero :
  option_map m_hoverTimer
    (kept (missileStep exampleHost (mkCanvas 800 600) (hoveringDrone 1) playing)) = Some 0%Z /\
  List.length (explosionsRef playing) = 0%nat /\
  List.length
    (explosionsRef (finalState (missileStep exampleHost (mkCanvas 800 600) (hoveringDrone 1) playing)))
  = 1%nat.
Proof. vm_compute. repeat split. Qed.

(** * Firing *)

Section ChooseBattery.

Variable targetX : float.

Let nearest := nearest targetX.
Let accOk := accOk targetX.

Lemma nth_error_snoc_old {A : Type} (l : list A) (a : A) j x :
  nth_error (l ++ [a]) j = Some x -> (j < List.length l)%nat -> nth_error l j = Some x.
Proof. intros H Hj. now rewrite nth_error_app1 in H. Qed.

Lemma nth_error_snoc_cases {A : Type} (l : list A) (a : A) j x :
  nth_error (l ++ [a]) j = Some x ->
  ((j < List.length l)%nat /\ nth_error l j = Some x) \/ (j = List.length l /\ x = a).
Proof.
  intros H. destruct (Nat.lt_ge_cases j (List.length l)) as [Hj|Hj].
  - left. split; [assumption|]. now rewrite nth_error_app1 in H.
  - right. rewrite nth_error_app2 in H by assumption.
    destruct (j - List.length l)%nat as [|n] eqn:E.
    + simpl in H. split; [lia|congruence].
    + simpl in H. now destruct n.
Qed.

Lemma accOk_skip pre b best minDist :
  eligible b = false -> accOk pre best minDist -> accOk (pre ++ [b]) best minDist.
Proof.
  intros Hb. unfold accOk. destruct best as [[k bk]|].
  - intros [Hm (Hk & He & Hn)]. split; [assumption|]. repeat split.
    + rewrite nth_error_app1; [assumption|]. apply nth_error_Some. congruence.
    + assumption.
    + destruct (nth_error_snoc_cases _ _ _ _ H) as [[Hj E]|[Hj E]].
      * now apply (Hn j b').
      * subst. congruence.
    + destruct (nth_error_snoc_cases _ _ _ _ H) as [[Hj E]|[Hj E]].
      * now apply (Hn j b').
      * subst. congruence.
  - intros [Hm Hn]. split; [assumption|]. intros b' Hin.
    apply in_app_or in Hin. destruct Hin as [Hin|[Hin|[]]]; [now apply Hn|now subst].
Qed.

Lemma accOk_keep pre b best minDist :
  eligible b = true -> (horizontalDist targetX b <? infinity) = true -> (horizontalDist targetX b <? minDist) = false ->
  accOk pre best minDist -> accOk (pre ++ [b]) best minDist.
Proof.
  intros Hb Hf Hlt. unfold accOk. destruct best as [[k bk]|].
  - intros [Hm (Hk & He & Hn)]. subst minDist. split; [reflexivity|].
    assert (Hkl : (k < List.length pre)%nat) by (apply nth_error_Some; congruence).
    repeat split.
    + now rewrite nth_error_app1.
    + assumption.
    + destruct (nth_error_snoc_cases _ _ _ _ H) as [[Hj E]|[Hj E]].
      * now apply (Hn j b').
      * now subst.
    + destruct (nth_error_snoc_cases _ _ _ _ H) as [[Hj E]|[Hj E]].
      * now apply (Hn j b').
      * subst. lia.
  - intros [Hm Hn]. subst minDist. congruence.
Qed.

Lemma accOk_take pre b best minDist :
  eligible b = true -> (horizontalDist targetX b <? minDist) = true ->
  (forall b', In b' pre -> eligible b' = true -> (horizontalDist targetX b' <? infinity) = true) ->
  accOk pre best minDist ->
  accOk (pre ++ [b]) (Some (List.length pre, b)) (horizontalDist targetX b).
Proof.
  intros Hb Hlt Hfin Hacc. split; [reflexivity|]. repeat split.
  - rewrite nth_error_app2 by lia. now rewrite Nat.sub_diag.
  - assumption.
  - destruct (nth_error_snoc_cases _ _ _ _ H) as [[Hj E]|[Hj E]].
    + destruct best as [[k bk]|]; simpl in Hacc.
      * destruct Hacc as [Hm (Hk & He & Hn)]. subst minDist.
        destruct (horizontalDist targetX b' <? horizontalDist targetX b) eqn:E'; [|reflexivity].
        pose proof (ltb_trans _ _ _ E' Hlt) as Ht.
        destruct (Hn j b' E H0) as [Hn1 _]. congruence.
      * destruct Hacc as [_ Hn]. apply nth_error_In in E.
        specialize (Hn b' E). congruence.
    + subst. apply ltb_irrefl.
  - intros Hjk. destruct (nth_error_snoc_cases _ _ _ _ H) as [[Hj E]|[Hj E]]; [|lia].
    destruct best as [[k bk]|]; simpl in Hacc.
    + destruct Hacc as [Hm (Hk & He & Hn)]. subst minDist.
      destruct (Hn j b' E H0) as [Hn1 _].
      eapply ltb_below; [exact Hlt|exact Hn1|].
      apply Hfin; [eapply nth_error_In; eassumption|assumption].
    + destruct Hacc as [_ Hn]. apply nth_error_In in E.
      specialize (Hn b' E). congruence.
Qed.

Lemma chooseBattery_spec rest : forall pre best minDist,
  (forall b, In b (pre ++ rest) -> eligible b = true -> (horizontalDist targetX b <? infinity) = true) ->
  accOk pre best minDist ->
  match chooseBattery targetX (List.length pre) rest best minDist with
  | None => forall b, In b (pre ++ rest) -> eligible b = false
  | Some (k, b) => nearest (pre ++ rest) k b
  end.
Proof.
  induction rest as [|b rest IH]; intros pre best minDist Hfin Hacc.
  - simpl. rewrite app_nil_r. destruct best as [[k bk]|]; simpl in Hacc; tauto.
  - simpl. fold (eligible b). fold (horizontalDist targetX b).
    replace (pre ++ b :: rest) with ((pre ++ [b]) ++ rest) in *
      by (now rewrite <- app_assoc).
    replace (S (List.length pre)) with (List.length (pre ++ [b]))
      by (rewrite length_app; simpl; lia).
    assert (Hpre : forall b', In b' pre -> eligible b' = true -> (horizontalDist targetX b' <? infinity) = true).
    { intros b' Hin. apply Hfin. apply in_or_app. left. apply in_or_app. now left. }
    destruct (eligible b) eqn:Hb.
    + assert (Hbf : (horizontalDist targetX b <? infinity) = true).
      { apply Hfin; [|assumption]. apply in_or_app. left. apply in_or_app. right. now left. }
      destruct (horizontalDist targetX b <? minDist) eqn:Hlt.
      * apply IH; [assumption|]. eapply accOk_take; eassumption.
      * apply IH; [assumption|]. now apply accOk_keep.
    + apply IH; [assumption|]. now apply accOk_skip.
Qed.

Lemma chooseBattery_start bs :
  (forall b, In b bs -> eligible b = true -> (horizontalDist targetX b <? infinity) = true) ->
  match chooseBattery targetX 0 bs None infinity with
  | None => forall b, In b bs -> eligible b = false
  | Some (k, b) => nearest bs k b
  end.
Proof.
  intros Hfin. apply (chooseBattery_spec bs [] None infinity Hfin).
  split; [reflexivity|]. intros b [].
Qed.

Lemma chooseBattery_none rest : forall i best minDist,
  (forall b, In b rest -> eligible b = false) ->
  chooseBattery targetX i rest best minDist = best.
Proof.
  induction rest as [|b rest IH]; intros i best minDist Hn; simpl.
  - reflexivity.
  - fold (eligible b). rewrite (Hn b) by now left.
    apply IH. intros b' Hin. apply Hn. now right.
Qed.

End ChooseBattery.

Lemma updateAt_nth {A : Type} (f : A -> A) (l : list A) : forall k a,
  nth_error l k = Some a ->
  nth_error (updateAt k f l) k = Some (f a) /\
  forall j, j <> k -> nth_error (updateAt k f l) j = nth_error l j.
Proof.
  induction l as [|x l IH]; intros k a Hk.
  - now destruct k.
  - destruct k as [|k]; simpl in *.
    + inversion Hk; subst. split; [reflexivity|]. intros [|j] Hj; [congruence|reflexivity].
    + destruct (IH k a Hk) as [H1 H2]. split; [assumption|].
      intros [|j] Hj; [reflexivity|]. simpl. apply H2. congruence.
Qed.

Lemma fireMissile_fires h targetX targetY s k b :
  gameStateRef s = PLAYING -> isPausedRef s = false ->
  (3 <= List.length (batteriesRef s))%nat ->
  chooseBattery targetX 0 (batteriesRef s) None infinity = Some (k, b) ->
  exists id type s',
    fireMissile h targetX targetY s = Returned tt s' /\
    batteriesRef s' = updateAt k decrementAmmo (batteriesRef s) /\
    missilesRef s' =
      missilesRef s ++
      [mkMissile id (b_x b) (b_y b) (b_x b) (b_y b) targetX targetY 0 type
         (match type with DRONE => 180 | _ => 0 end)%Z] /\
    enemiesRef s' = enemiesRef s /\ explosionsRef s' = explosionsRef s /\
    citiesRef s' = citiesRef s.
Proof.
  intros Hg Hp Hlen Hc.
  cbv [fireMissile bind gets ret modify]. rewrite Hg, Hp.
  cbn [GameState_eqb negb orb]. cbv beta. rewrite Hc.
  assert (Hl : (3 <= List.length (updateAt k decrementAmmo (batteriesRef s)))%nat).
  { clear Hc. revert k. generalize dependent (batteriesRef s).
    intros l Hl k.
    destruct l as [|b0 [|b1 [|b2 r]]]; simpl in Hl; try lia.
    destruct k as [|[|[|k]]]; simpl; lia. }
  fields.
  destruct (updateAt k decrementAmmo (batteriesRef s)) as [|b0 [|b1 [|b2 r]]] eqn:E;
    simpl in Hl; try lia.
  cbv [setAmmo enqueue modify Math_random bind].
  eexists _, _, _. split; [reflexivity|]. fields. repeat split; reflexivity.
Qed.

(** C7: a fire request made while playing and not paused, when some battery
    is active with ammunition left (the three batteries being at a finite
    horizontal distance from the target), picks the battery at the least
    horizontal distance among those, the first one in the order of the store
    on a tie; the ammunition of that battery is decremented by 1, its other
    fields and the other batteries are unchanged, and exactly one
    interceptor is appended, at the position of that battery and with
    progress 0. *)
Theorem fire_picks_nearest_battery h targetX targetY s :
  gameStateRef s = PLAYING -> isPausedRef s = false ->
  (3 <= List.length (batteriesRef s))%nat ->
  (forall b, In b (batteriesRef s) -> eligible b = true ->
     (horizontalDist targetX b <? infinity) = true) ->
  (exists b, In b (batteriesRef s) /\ eligible b = true) ->
  exists k b id type s',
    nearest targetX (batteriesRef s) k b /\
    fireMissile h targetX targetY s = Returned tt s' /\
    nth_error (batteriesRef s') k
    = Some (mkBattery (b_id b) (b_x b) (b_y b) (b_active b) (b_ammo b - 1) (b_maxAmmo b)) /\
    (forall j, j <> k -> nth_error (batteriesRef s') j = nth_error (batteriesRef s) j) /\
    missilesRef s' =
      missilesRef s ++
      [mkMissile id (b_x b) (b_y b) (b_x b) (b_y b) targetX targetY 0 type
         (match type with DRONE => 180 | _ => 0 end)%Z] /\
    enemiesRef s' = enemiesRef s /\ explosionsRef s' = explosionsRef s /\
    citiesRef s' = citiesRef s.
Proof.
  intros Hg Hp Hlen Hfin (b0 & Hin & He).
  pose proof (chooseBattery_start targetX (batteriesRef s) Hfin) as Hc.
  destruct (chooseBattery targetX 0 (batteriesRef s) None infinity) as [[k b]|] eqn:E.
  - destruct (fireMissile_fires h targetX targetY s k b Hg Hp Hlen E)
      as (id & type & s' & Hf & Hb & Hm & H1 & H2 & H3).
    exists k, b, id, type, s'. split; [exact Hc|]. split; [exact Hf|].
    destruct Hc as (Hk & _).
    destruct (updateAt_nth decrementAmmo (batteriesRef s) k b Hk) as [U1 U2].
    rewrite Hb. split; [exact U1|]. repeat split; assumption.
  - rewrite (Hc b0 Hin) in He. discriminate.
Qed.

(** C8: a fire request made when no battery is both active and with
    ammunition left returns without throwing and leaves the whole state,
    every store and every battery included, as it was. *)
Theorem fire_without_battery_is_noop h targetX targetY s :
  (forall b, In b (batteriesRef s) -> eligible b = false) ->
  fireMissile h targetX targetY s = Returned tt s.
Proof.
  intros Hn. cbv [fireMissile bind gets ret].
  destruct (negb (GameState_eqb (gameStateRef s) PLAYING) || isPausedRef s);
    [reflexivity|].
  cbv beta.
  now rewrite (chooseBattery_none targetX (batteriesRef s) 0 None infinity Hn).
Qed.

(** * The check at the end of the frame *)

Lemma fold_gameState l : forall s,
  gameState (fold_left applyUpdate l s) = lastGameState l (gameState s).
Proof.
  induction l as [|u l IH]; intros s; [reflexivity|].
  cbn [fold_left lastGameState]. rewrite IH.
  destruct u; reflexivity.
Qed.

Lemma applyQueue_cases s :
  applyQueue s = fold_left applyUpdate (pending s) s \/
  exists u rest v,
    pending s = UpdateScore u :: rest /\ eagerState s = Some v /\
    applyQueue s = fold_left applyUpdate rest (set_score v s).
Proof.
  unfold applyQueue.
  destruct (pending s) as [|[g|v|u|a|b] rest]; try (now left);
    destruct (eagerState s) as [v'|]; try (now left).
  right. now exists u, rest, v'.
Qed.

Lemma applyQueue_gameState s :
  gameState (applyQueue s) = lastGameState (pending s) (gameState s).
Proof.
  destruct (applyQueue_cases s) as [->|(u & rest & v & Hp & _ & ->)];
    rewrite fold_gameState; [reflexivity|].
  now rewrite Hp.
Qed.

Lemma render_gameState s : gameState (render s) = lastGameState (pending s) (gameState s).
Proof.
  rewrite <- applyQueue_gameState. unfold render.
  repeat match goal with |- context [if ?b then _ else _] => destruct b end;
    reflexivity.
Qed.

Lemma lastGameState_app l1 l2 g :
  lastGameState (l1 ++ l2) g = lastGameState l2 (lastGameState l1 g).
Proof. unfold lastGameState. apply fold_left_app. Qed.

Lemma lastGameState_awards l g : Forall isAward l -> lastGameState l g = g.
Proof.
  induction 1 as [|u l [f Hu] _ IH]; [reflexivity|].
  subst u. exact IH.
Qed.

Lemma quiet_lastGameState s s' :
  quiet s s' ->
  lastGameState (pending s') (gameState s') = lastGameState (pending s) (gameState s).
Proof.
  intros (_ & Hg & _ & _ & _ & _ & _ & _ & _ & extra & E & Ha).
  rewrite E, Hg, lastGameState_app. now apply lastGameState_awards.
Qed.

(** The phases between the spawn and the check always return, and are
    [quiet]. *)
Lemma phases_quiet h time canvas s1 :
  exists s5,
    quiet s1 s5 /\
    forall (k : M unit),
      (enemyPhase h ;; missilePhase h canvas ;; explosionPhase h time ;; particlePhase ;; k) s1
      = k s5.
Proof.
  destruct (enemyPhase_quiet h s1) as ([] & s2 & E2 & Q2).
  destruct (missilePhase_quiet h canvas s2) as ([] & s3 & E3 & Q3).
  destruct (explosionPhase_quiet h time s3) as ([] & s4 & E4 & Q4).
  destruct (particlePhase_quiet s4) as ([] & s5 & E5 & Q5).
  exists s5. split.
  - etransitivity; [exact Q2|]. etransitivity; [exact Q3|].
    etransitivity; [exact Q4|exact Q5].
  - intros k. unfold bind. now rewrite E2, E3, E4, E5.
Qed.

Lemma update_runs_simulate h time canvas s :
  gameStateRef s = PLAYING -> isPausedRef s = false -> canvasRef s = Some canvas ->
  update h time s = simulate h time canvas s.
Proof.
  intros Hg Hp Hc. cbv [update bind gets]. rewrite Hg.
  cbn [GameState_eqb negb]. cbv beta iota. rewrite Hp. cbv beta iota. now rewrite Hc.
Qed.

Lemma simulate_after_spawn h time canvas s s1 :
  spawnPhase h s = Returned tt s1 ->
  exists s5,
    quiet s s5 /\
    simulate h time canvas s = (checkWinLoss ;; requestAnimationFrame) s5 /\
    forall (k : M unit),
      (enemyPhase h ;; missilePhase h canvas ;; explosionPhase h time ;; particlePhase ;; k) s1
      = k s5.
Proof.
  intros Hs. destruct (phases_quiet h time canvas s1) as (s5 & Q & E).
  exists s5. split; [|split; [|exact E]].
  - pose proof (spawnPhase_quiet h s) as Q0. rewrite Hs in Q0.
    etransitivity; [exact Q0|exact Q].
  - unfold simulate. unfold bind at 1. rewrite Hs. apply E.
Qed.

(** What the check at the end of a frame does: it reads the mirror
    [scoreRef], which the frame itself never writes (the points awarded during
    the frame are queued for the next render).  When the mirror is at least
    [WIN_SCORE] the session goes to WIN whatever the batteries; it goes to
    GAMEOVER only when the mirror is below [WIN_SCORE] and every battery is
    inactive at the end of the frame; otherwise the frame leaves the game
    state alone. *)
Theorem tick_checks_mirrored_score h time canvas s s1 :
  gameStateRef s = PLAYING -> isPausedRef s = false -> canvasRef s = Some canvas ->
  spawnPhase h s = Returned tt s1 ->
  exists s',
    update h time s = Returned tt s' /\
    scoreRef s' = scoreRef s /\
    ((WIN_SCORE <= scoreRef s)%Z -> gameState (render s') = WIN) /\
    ((scoreRef s < WIN_SCORE)%Z -> allInactive (batteriesRef s') = true ->
       gameState (render s') = GAMEOVER) /\
    ((scoreRef s < WIN_SCORE)%Z -> allInactive (batteriesRef s') = false ->
       gameState (render s') = gameState (render s)).
Proof.
  intros Hg Hp Hc Hs.
  rewrite (update_runs_simulate h time canvas s Hg Hp Hc).
  destruct (simulate_after_spawn h time canvas s s1 Hs) as (s5 & Q & E & _).
  rewrite E. pose proof (quiet_lastGameState s s5 Q) as HL.
  destruct Q as (_ & _ & _ & _ & Hr & _).
  cbv [checkWinLoss requestAnimationFrame setGameState enqueue bind gets ret modify].
  fold (allInactive (batteriesRef s5)). rewrite Hr.
  destruct (WIN_SCORE <=? scoreRef s)%Z eqn:Hw.
  - eexists. split; [reflexivity|]. fields. split; [assumption|].
    apply Z.leb_le in Hw. repeat split; try lia.
    intros _. rewrite render_gameState. fields.
    now rewrite lastGameState_app.
  - apply Z.leb_gt in Hw. destruct (allInactive (batteriesRef s5)) eqn:Ha.
    + eexists. split; [reflexivity|]. fields. split; [assumption|].
      repeat split; try lia; try congruence.
      intros _ _. rewrite render_gameState. fields.
      now rewrite lastGameState_app.
    + eexists. split; [reflexivity|]. fields. split; [assumption|].
      repeat split; try lia; try congruence.
      intros _ _. rewrite !render_gameState. fields. exact HL.
Qed.

Lemma tick_checks_mirrored_score_witness :
  exists s',
    update exampleHost 0 lastStand = Returned tt s' /\
    scoreRef s' = scoreRef lastStand /\
    ((WIN_SCORE <= scoreRef lastStand)%Z -> gameState (render s') = WIN) /\
    ((scoreRef lastStand < WIN_SCORE)%Z -> allInactive (batteriesRef s') = true ->
       gameState (render s') = GAMEOVER) /\
    ((scoreRef lastStand < WIN_SCORE)%Z -> allInactive (batteriesRef s') = false ->
       gameState (render s') = gameState (render lastStand)).
Proof.
  apply (tick_checks_mirrored_score exampleHost 0 (mkCanvas 800 600) lastStand
           (finalState (spawnPhase exampleHost lastStand)));
    vm_compute; reflexivity.
Defined.

(** C1, evaluated on [lastStand]: the frame in which the last battery falls
    is also the one whose kill brings the score to 1000.  The check of that
    frame tests the score before the batteries, but reads the mirror
    [scoreRef], which still holds 980: the session goes to GAMEOVER with a
    score of 1000, where the claim gives WIN. *)
Lemma win_missed_on_crossing_tick :
  score lastStand = 980%Z /\ gameState lastStand = PLAYING /\
  allInactive (batteriesRef lastStand) = false /\
  score (render (finalState (update exampleHost 0 lastStand))) = 1000%Z /\
  allInactive (batteriesRef (render (finalState (update exampleHost 0 lastStand)))) = true /\
  gameState (render (finalState (update exampleHost 0 lastStand))) = GAMEOVER.
Proof. vm_compute. repeat split. Qed.


Lemma fire_picks_nearest_battery_witness :
  exists k b id type s',
    nearest 100 (batteriesRef playing) k b /\
    fireMissile exampleHost 100 300 playing = Returned tt s' /\
    nth_error (batteriesRef s') k
    = Some (mkBattery (b_id b) (b_x b) (b_y b) (b_active b) (b_ammo b - 1) (b_maxAmmo b)) /\
    (forall j, j <> k -> nth_error (batteriesRef s') j = nth_error (batteriesRef playing) j) /\
    missilesRef s' =
      missilesRef playing ++
      [mkMissile id (b_x b) (b_y b) (b_x b) (b_y b) 100 300 0 type
         (match type with DRONE => 180 | _ => 0 end)%Z] /\
    enemiesRef s' = enemiesRef playing /\ explosionsRef s' = explosionsRef playing /\
    citiesRef s' = citiesRef playing.
Proof.
  apply (fire_picks_nearest_battery exampleHost 100 300 playing).
  - vm_compute. reflexivity.
  - vm_compute. reflexivity.
  - vm_compute. lia.
  - intros b Hin _. revert b Hin. apply Forall_forall.
    vm_compute. repeat constructor.
  - vm_compute. eexists. split; [left; reflexivity|reflexivity].
Defined.

Lemma fire_without_battery_is_noop_witness :
  fireMissile exampleHost 100 300 spent = Returned tt spent.
Proof.
  apply (fire_without_battery_is_noop exampleHost 100 300 spent).
  apply Forall_forall. vm_compute. repeat constructor.
Defined.

(** * The score *)

#[export] Instance scoreQuiet_preorder reset : PreOrder (scoreQuiet reset).
Proof.
  split.
  - intros s. split; [reflexivity|]. split; [reflexivity|]. split; [now left|].
    split; [|now left]. exists []. split; [now rewrite app_nil_r|constructor].
  - intros a b c (A1 & A0 & A2 & (ea & Ea & Fa) & A3) (B1 & B0 & B2 & (eb & Eb & Fb) & B3).
    split; [congruence|]. split; [congruence|]. split; [|split].
    + destruct B2 as [B2|B2]; [|now right].
      destruct A2 as [A2|A2]; [left|right]; congruence.
    + exists (ea ++ eb). split.
      * now rewrite Eb, Ea, app_assoc.
      * apply Forall_app. now split.
    + destruct B3 as [B3|(k & Hk & B3)].
      * rewrite B3. exact A3.
      * right. exists k. now rewrite <- A1.
Qed.

Ltac scoreQuiet_write :=
  unfold scoreQuiet; fields;
  split; [reflexivity|];
  split; [reflexivity|];
  split; [first [left; reflexivity | right; split; reflexivity]|];
  split;
  [ first [ exists []; split; [now rewrite app_nil_r | constructor]
          | eexists; split; [reflexivity | repeat constructor] ]
  | first [ left; reflexivity
          | right; cbn [runUpdater];
            first [ exists 1%Z; split; [lia | f_equal; lia]
                  | match goal with |- context [Z.of_nat ?n] => exists (Z.of_nat n) end;
                    split; [lia | f_equal; lia] ] ] ].

Lemma lightningChain_scoreQuiet h nearby :
  forall index, runs (scoreQuiet false) (lightningChain h index nearby).
Proof.
  induction nearby as [|e rest IH]; intros index; cbn [lightningChain].
  - apply runs_ret.
  - apply runs_bind; [|intros; apply IH].
    handler fail unfold_handlers; scoreQuiet_write.
Qed.

Ltac scoreQuiet_known :=
  idtac; match goal with
  | |- runs _ (lightningChain _ _ _) => apply lightningChain_scoreQuiet
  end.

Lemma fireMissile_scoreQuiet h x y : keeps (scoreQuiet false) (fireMissile h x y).
Proof.
  unfold fireMissile. handler scoreQuiet_known unfold_handlers; scoreQuiet_write.
Qed.

(** The handlers of the events other than a render and a press of the start
    button queue no [setScore] of a value. *)
Lemma handle_scoreQuiet h ev :
  ev <> Render -> ev <> PressStart -> keeps (scoreQuiet false) (handle h ev).
Proof.
  intros Hev Hev'. destruct ev; try congruence; cbn [handle];
    handler ltac:(idtac; first [scoreQuiet_known
      | match goal with |- keeps _ (fireMissile _ _ _) => apply fireMissile_scoreQuiet end])
      unfold_handlers;
    scoreQuiet_write.
Qed.

Lemma startGame_scoreQuiet : keeps (scoreQuiet true) startGame.
Proof. handler fail unfold_handlers; scoreQuiet_write. Qed.

(** The start button does nothing during a game. *)
Lemma pressStart_scoreQuiet h s :
  scoreQuiet (negb (GameState_eqb (gameState s) PLAYING)) s (step h s PressStart).
Proof.
  unfold step. cbv [handle bind gets].
  destruct (negb (GameState_eqb (gameState s) PLAYING)); cbn [when].
  - apply startGame_scoreQuiet.
  - cbn [ret finalState]. reflexivity.
Qed.

Lemma okUpdate_weaken reset u : okUpdate false u -> okUpdate reset u.
Proof. destruct u; cbn; trivial. intros [E _]. discriminate E. Qed.

Lemma scoreQuiet_inv reset s s' :
  scoreQuiet reset s s' ->
  (reset = true -> negb (GameState_eqb (gameState s) PLAYING) = true) ->
  scoreInv s -> scoreInv s'.
Proof.
  intros (H1 & H0 & H2 & (extra & E & F) & H3) Hr (I1 & I2 & I3 & I4 & I5 & I6).
  unfold scoreInv, okEager. rewrite H1, H0, E. repeat split; try assumption.
  - destruct H2 as [-> | [_ ->]]; [assumption|lia].
  - destruct H2 as [-> | [_ ->]]; [assumption|apply Z.divide_0_r].
  - apply Forall_app. split; [assumption|].
    destruct reset.
    + now rewrite Hr.
    + eapply Forall_impl; [|exact F]. intros u. apply okUpdate_weaken.
  - destruct H3 as [->|(k & Hk & ->)]; [exact I6|].
    split; [lia|]. apply Z.divide_add_r; [assumption|]. now apply Z.divide_factor_l.
Qed.

Lemma fold_score_inv reset l : forall s,
  Forall (okUpdate reset) l -> (0 <= score s)%Z -> (20 | score s)%Z ->
  (0 <= score (fold_left applyUpdate l s))%Z /\ (20 | score (fold_left applyUpdate l s))%Z.
Proof.
  induction l as [|u l IH]; intros s Hl H0 H20; [now split|].
  inversion Hl as [|? ? Hu Hl']; subst. cbn [fold_left]. apply IH; [assumption| |].
  - destruct u as [g|v|[|]|a|b]; cbn [applyUpdate runUpdater]; fields; try assumption.
    + destruct Hu as [_ ->]. lia.
    + lia.
    + lia.
  - destruct u as [g|v|[|]|a|b]; cbn [applyUpdate runUpdater]; fields; try assumption.
    + destruct Hu as [_ ->]. apply Z.divide_0_r.
    + apply Z.divide_add_r; [assumption|now exists 1%Z].
    + apply Z.divide_add_r; [assumption|].
      exists (Z.of_nat (List.length (enemiesRef s))). lia.
Qed.

Lemma fold_score_mono l : forall s,
  Forall (okUpdate false) l ->
  (score s <= score (fold_left applyUpdate l s))%Z.
Proof.
  induction l as [|u l IH]; intros s Hl; [cbn; lia|].
  inversion Hl as [|? ? Hu Hl']; subst.
  cbn [fold_left]. etransitivity; [|now apply IH].
  destruct u as [g|v|[|]|a|b]; cbn [applyUpdate runUpdater]; fields; try lia.
  destruct Hu as [E _]. discriminate E.
Qed.

Lemma applyQueue_score_inv reset s :
  Forall (okUpdate reset) (pending s) -> okEager s ->
  (0 <= score s)%Z -> (20 | score s)%Z ->
  (0 <= score (applyQueue s))%Z /\ (20 | score (applyQueue s))%Z.
Proof.
  intros Hl He H0 H20.
  destruct (applyQueue_cases s) as [->|(u & rest & v & Hp & Hv & ->)].
  - now apply (fold_score_inv reset).
  - rewrite Hp in Hl. inversion Hl; subst.
    unfold okEager in He. rewrite Hv in He. destruct He as [He1 He2].
    apply (fold_score_inv reset); fields; [assumption|lia|assumption].
Qed.

Lemma applyQueue_score_mono s :
  Forall (okUpdate false) (pending s) -> okEager s ->
  (score s <= score (applyQueue s))%Z.
Proof.
  intros Hl He.
  destruct (applyQueue_cases s) as [->|(u & rest & v & Hp & Hv & ->)].
  - now apply fold_score_mono.
  - rewrite Hp in Hl. inversion Hl; subst.
    unfold okEager in He. rewrite Hv in He. destruct He as [He1 _].
    etransitivity; [exact He1|]. now apply (fold_score_mono rest (set_score v s)).
Qed.

Lemma render_score s : score (render s) = score (applyQueue s).
Proof.
  unfold render.
  repeat match goal with |- context [if ?b then _ else _] => destruct b end;
    reflexivity.
Qed.

Lemma render_scoreRef s :
  scoreRef (render s) = scoreRef (applyQueue s) \/
  scoreRef (render s) = score (render s).
Proof.
  unfold render.
  repeat match goal with |- context [if ?b then _ else _] => destruct b end;
    fields; auto.
Qed.

Lemma render_pending s : pending (render s) = [].
Proof.
  unfold render.
  repeat match goal with |- context [if ?b then _ else _] => destruct b end;
    reflexivity.
Qed.

Lemma render_eagerState s : eagerState (render s) = None.
Proof.
  unfold render.
  repeat match goal with |- context [if ?b then _ else _] => destruct b end;
    reflexivity.
Qed.

Lemma fold_scoreRef l : forall s, scoreRef (fold_left applyUpdate l s) = scoreRef s.
Proof.
  induction l as [|u l IH]; intros s; [reflexivity|].
  cbn [fold_left]. rewrite IH. destruct u; reflexivity.
Qed.

Lemma applyQueue_scoreRef s : scoreRef (applyQueue s) = scoreRef s.
Proof.
  destruct (applyQueue_cases s) as [->|(u & rest & v & _ & _ & ->)];
    now rewrite fold_scoreRef.
Qed.

Lemma render_inv s : scoreInv s -> scoreInv (render s).
Proof.
  intros (I1 & I2 & I3 & I4 & I5 & I6).
  destruct (applyQueue_score_inv _ s I5 I6 I1 I2) as [F1 F2].
  unfold scoreInv, okEager. rewrite render_pending, render_eagerState.
  destruct (render_scoreRef s) as [E|E]; rewrite E, ?applyQueue_scoreRef, render_score;
    repeat split; auto.
Qed.

Lemma step_inv h s ev : scoreInv s -> scoreInv (step h s ev).
Proof.
  intros Hs. destruct ev.
  6: { unfold step. cbn [handle modify finalState]. now apply render_inv. }
  2: { eapply scoreQuiet_inv; [apply pressStart_scoreQuiet|trivial|assumption]. }
  all: (eapply scoreQuiet_inv;
        [apply handle_scoreQuiet; discriminate|discriminate|assumption]).
Qed.

Lemma run_inv h evs : forall s, scoreInv s -> scoreInv (run h s evs).
Proof.
  unfold run. induction evs as [|ev evs IH]; intros s Hs; [assumption|].
  cbn [fold_left]. apply IH. now apply step_inv.
Qed.

Lemma mounted_inv w ht rng : scoreInv (mounted w ht rng).
Proof.
  unfold mounted.
  assert (K : keeps (scoreQuiet true) (handleResize ;; initGame)).
  { handler fail unfold_handlers; scoreQuiet_write. }
  eapply scoreQuiet_inv; [apply K|reflexivity|].
  unfold scoreInv, okEager, unmounted. fields.
  repeat split; try lia; try apply Z.divide_0_r. constructor.
Qed.

Lemma fold_reset l a g : forall s,
  score (fold_left applyUpdate (l ++ [SetAmmo a; SetScore 0; SetGameState g]) s) = 0%Z.
Proof.
  intros s. rewrite fold_left_app. reflexivity.
Qed.

Lemma applyQueue_reset l a g s :
  pending s = l ++ [SetAmmo a; SetScore 0; SetGameState g] ->
  score (applyQueue s) = 0%Z.
Proof.
  intros Hp.
  destruct (applyQueue_cases s) as [->|(u & rest & v & Hq & _ & ->)].
  - rewrite Hp. apply fold_reset.
  - rewrite Hp in Hq. destruct l as [|u' l]; [discriminate Hq|].
    cbn [app] in Hq. inversion Hq; subst. apply fold_reset.
Qed.

(** C9: in every state a session can reach from the mounted component the
    score is a non-negative multiple of 20; while a game is being played no
    event decreases it, and an event other than a render never changes it;
    pressing start outside a game and rendering sets it to 0. *)
Theorem score_is_multiple_of_twenty h w ht rng evs :
  ((0 <= score (run h (mounted w ht rng) evs))%Z /\
   (20 | score (run h (mounted w ht rng) evs))%Z) /\
  (forall ev,
     gameState (run h (mounted w ht rng) evs) = PLAYING \/ ev <> Render ->
     (score (run h (mounted w ht rng) evs)
      <= score (step h (run h (mounted w ht rng) evs) ev))%Z) /\
  (gameState (run h (mounted w ht rng) evs) <> PLAYING ->
   score (render (step h (run h (mounted w ht rng) evs) PressStart)) = 0%Z).
Proof.
  pose proof (run_inv h evs _ (mounted_inv w ht rng)) as (I1 & I2 & _ & _ & I5 & I6).
  remember (run h (mounted w ht rng) evs) as s.
  split; [now split|]. split.
  - intros ev Hn. destruct ev.
    6: { destruct Hn as [Hg|Hn]; [|congruence].
         unfold step. cbn [handle modify finalState]. rewrite render_score.
         rewrite Hg in I5. now apply applyQueue_score_mono. }
    2: { destruct (pressStart_scoreQuiet h s) as (E & _). rewrite E. lia. }
    all: (match goal with |- context [step ?hh ?s ?e] =>
            destruct (handle_scoreQuiet hh e ltac:(discriminate) ltac:(discriminate) s)
              as (E & _)
          end; unfold step; rewrite E; lia).
  - intros Hg. unfold step. cbv [handle bind gets].
    destruct (gameState s); try congruence;
      cbn [GameState_eqb negb when];
      cbv [startGame initGame setGameState setAmmo enqueue bind gets modify finalState];
      rewrite render_score;
      apply (applyQueue_reset (pending s) INITIAL_AMMO PLAYING); fields;
      rewrite <- !app_assoc; reflexivity.
Qed.

(** * What may change the defences *)

Ltac sameDefences_write := unfold sameDefences; fields; split; reflexivity.

Lemma lightningChain_sameDefences h nearby :
  forall index, runs sameDefences (lightningChain h index nearby).
Proof.
  induction nearby as [|e rest IH]; intros index; cbn [lightningChain].
  - apply runs_ret.
  - apply runs_bind; [|intros; apply IH].
    handler fail unfold_handlers; sameDefences_write.
Qed.

Ltac sameDefences_known :=
  idtac; match goal with
  | |- runs _ (lightningChain _ _ _) => apply lightningChain_sameDefences
  end.

Lemma missilePhase_sameDefences h canvas : runs sameDefences (missilePhase h canvas).
Proof. handler sameDefences_known unfold_handlers; sameDefences_write. Qed.

Lemma explosionPhase_sameDefences h time : runs sameDefences (explosionPhase h time).
Proof. handler sameDefences_known unfold_handlers; sameDefences_write. Qed.

Lemma state_eta_pending s : set_pending (pending s) s = s.
Proof. now destruct s. Qed.

Lemma state_eta_queue s :
  set_eagerState (eagerState s) (set_pending (pending s) s) = s.
Proof. now destruct s. Qed.

(** The callback of the [filter] in [blastEnemies]: the enemies out of the
    blast are kept, and one [AddTwenty] is queued for each enemy in it. *)
Lemma blast_filterM exp radius l : forall s,
  filterM (fun enemy =>
             if inBlast exp radius enemy then setScore AddTwenty ;; ret None
             else ret (Some enemy)) l s =
  Returned (filter (fun e => negb (inBlast exp radius e)) l)
    (set_eagerState
       (eagerAfter AddTwenty (List.length (filter (inBlast exp radius) l)) s)
       (set_pending
          (pending s ++
           repeat (UpdateScore AddTwenty) (List.length (filter (inBlast exp radius) l)))
          s)).
Proof.
  induction l as [|e l IH]; intros s.
  - cbn [filterM filter List.length repeat ret]. unfold eagerAfter.
    rewrite app_nil_r. replace (match pending s with [] | _ => eagerState s end)
      with (eagerState s) by (now destruct (pending s)).
    now rewrite state_eta_queue.
  - cbn [filterM filter]. unfold bind at 1.
    destruct (inBlast exp radius e) eqn:He.
    + cbn [negb List.length repeat]. unfold eagerAfter.
      cbv [setScore bind gets]. destruct (pending s) as [|u q] eqn:Hq.
      * cbv [enqueue modify bind ret]. rewrite IH. unfold eagerAfter. fields.
        rewrite Hq. cbn [app]. reflexivity.
      * cbv [enqueue modify bind ret]. rewrite IH. unfold eagerAfter. fields.
        rewrite Hq. cbn [app]. rewrite <- app_assoc. reflexivity.
    + cbv [ret]. unfold bind. rewrite IH. reflexivity.
Qed.

Lemma blastEnemies_run exp radius s :
  blastEnemies exp radius s =
  Returned tt
    (set_enemiesRef (filter (fun e => negb (inBlast exp radius e)) (enemiesRef s))
       (set_eagerState
          (eagerAfter AddTwenty
             (List.length (filter (inBlast exp radius) (enemiesRef s))) s)
          (set_pending
             (pending s ++
              repeat (UpdateScore AddTwenty)
                (List.length (filter (inBlast exp radius) (enemiesRef s))))
             s))).
Proof.
  unfold blastEnemies. cbv [bind gets]. rewrite blast_filterM. reflexivity.
Qed.

Lemma blastEnemies_shrink exp radius : runs enemiesShrink (blastEnemies exp radius).
Proof.
  intros s. rewrite blastEnemies_run. eexists _, _. split; [reflexivity|].
  unfold enemiesShrink. fields. apply incl_filter.
Qed.

Ltac enemiesShrink_write :=
  unfold enemiesShrink; fields;
  first [ apply incl_refl | apply incl_nil_l | apply incl_filter ].

Lemma lightningChain_shrink h nearby :
  forall index, runs enemiesShrink (lightningChain h index nearby).
Proof.
  induction nearby as [|e rest IH]; intros index; cbn [lightningChain].
  - apply runs_ret.
  - apply runs_bind; [|intros; apply IH].
    handler fail unfold_handlers; unfold killById; enemiesShrink_write.
Qed.

Ltac enemiesShrink_known :=
  idtac; match goal with
  | |- runs _ (lightningChain _ _ _) => apply lightningChain_shrink
  | |- runs _ (blastEnemies _ _) => apply blastEnemies_shrink
  end.

Lemma missilePhase_shrink h canvas : runs enemiesShrink (missilePhase h canvas).
Proof. handler enemiesShrink_known unfold_handlers; enemiesShrink_write. Qed.

Lemma explosionPhase_shrink h time : runs enemiesShrink (explosionPhase h time).
Proof.
  handler enemiesShrink_known
    ltac:(unfold explosionPhase, explosionStep, spawnParticle, rareClear, pushParticle,
            setScore, enqueue);
    enemiesShrink_write.
Qed.

(** The enemy phase. *)

Lemma deactivateFirst_pointwise {A : Type} (test : A -> bool) (off : A -> A) (l : list A) :
  Forall2 (fun a a' => a' = a \/ (a' = off a /\ test a = true)) l (deactivateFirst test off l).
Proof.
  induction l as [|a l IH]; cbn [deactivateFirst]; [constructor|].
  destruct (test a) eqn:Ha.
  - constructor; [now right|]. clear. induction l; constructor; auto.
  - constructor; [now left|exact IH].
Qed.

Lemma Forall2_refl_eq {A : Type} (R : A -> A -> Prop) (l : list A) :
  (forall a, R a a) -> Forall2 R l l.
Proof. intros HR. induction l; constructor; auto. Qed.

Lemma Forall2_compose {A : Type} (R1 R2 R3 : A -> A -> Prop) :
  (forall a b c, R1 a b -> R2 b c -> R3 a c) ->
  forall l1 l2 l3, Forall2 R1 l1 l2 -> Forall2 R2 l2 l3 -> Forall2 R3 l1 l3.
Proof.
  intros HR l1 l2 l3 H12. revert l3.
  induction H12 as [|a b l1 l2 Hab _ IH]; intros l3 H23; inversion H23; subst;
    constructor; eauto.
Qed.

Section FellByImpact.

Context {A : Type} (hit : float -> A -> bool) (off : A -> A).
Hypothesis off_idem : forall a, off (off a) = off a.
Hypothesis hit_off : forall x a, hit x (off a) = hit x a.

Lemma fell_first e rest a b c :
  (b = a \/ (b = off a /\ (1 <=? e_progress (advanceEnemy e)) = true /\
             hit (e_targetX e) a = true)) ->
  fellByImpact hit off rest b c ->
  fellByImpact hit off (e :: rest) a c.
Proof.
  intros [->|(-> & Hp & Hh)] [->|(-> & e' & Hin & Hp' & Hh')].
  - now left.
  - right. split; [reflexivity|]. exists e'. repeat split; auto. now right.
  - right. split; [reflexivity|]. exists e. repeat split; auto. now left.
  - right. split; [apply off_idem|]. exists e. repeat split; auto. now left.
Qed.

End FellByImpact.

Lemma cityOff_idem c : cityOff (cityOff c) = cityOff c.
Proof. reflexivity. Qed.

Lemma batteryOff_idem b : batteryOff (batteryOff b) = batteryOff b.
Proof. reflexivity. Qed.

Lemma enemy_filterM_defences h l : forall s,
  exists kept s',
    filterM (enemyStep h) l s = Returned kept s' /\
    Forall2 (fellByImpact cityHit cityOff l) (citiesRef s) (citiesRef s') /\
    Forall2 (fellByImpact batteryHit batteryOff l) (batteriesRef s) (batteriesRef s').
Proof.
  induction l as [|e l IH]; intros s.
  - exists [], s. split; [reflexivity|].
    split; apply Forall2_refl_eq; intros a; now left.
  - cbn [filterM]. unfold bind at 1.
    destruct (1 <=? e_progress (advanceEnemy e)) eqn:Hp.
    + rewrite (enemyStep_impact h e s Hp).
      match goal with |- context [bind (filterM _ _) _ ?s1] =>
        destruct (IH s1) as (kept & s' & E & HC & HB) end.
      exists kept, s'. unfold bind. rewrite E. split; [reflexivity|].
      revert HC HB. fields. intros HC HB. split.
      * eapply Forall2_compose; [|apply deactivateFirst_pointwise|exact HC].
        intros a b c H1 H2. eapply (fell_first cityHit cityOff cityOff_idem); [|exact H2].
        destruct H1 as [->|[-> Ht]]; [now left|right; auto].
      * eapply Forall2_compose; [|apply deactivateFirst_pointwise|exact HB].
        intros a b c H1 H2. eapply (fell_first batteryHit batteryOff batteryOff_idem); [|exact H2].
        destruct H1 as [->|[-> Ht]]; [now left|right; auto].
    + rewrite (enemyStep_flight h e s Hp).
      match goal with |- context [bind (filterM _ _) _ ?s1] =>
        destruct (IH s1) as (kept & s' & E & HC & HB) end.
      exists (advanceEnemy e :: kept), s'. unfold bind. rewrite E. split; [reflexivity|].
      revert HC HB. fields. intros HC HB. split.
      * eapply Forall2_compose; [|apply Forall2_refl_eq with (R := eq); reflexivity|exact HC].
        intros a b c -> H2. eapply (fell_first cityHit cityOff cityOff_idem); [now left|exact H2].
      * eapply Forall2_compose; [|apply Forall2_refl_eq with (R := eq); reflexivity|exact HB].
        intros a b c -> H2.
        eapply (fell_first batteryHit batteryOff batteryOff_idem); [now left|exact H2].
Qed.

Lemma fell_ammo enemies bs bs' :
  Forall2 (fellByImpact batteryHit batteryOff enemies) bs bs' ->
  map b_ammo bs' = map b_ammo bs.
Proof.
  induction 1 as [|b b' bs bs' Hb _ IH]; [reflexivity|].
  cbn [map]. rewrite IH. destruct Hb as [->|[-> _]]; reflexivity.
Qed.

Lemma enemyPhase_defences h s :
  exists s',
    enemyPhase h s = Returned tt s' /\
    Forall2 (fellByImpact cityHit cityOff (enemiesRef s)) (citiesRef s) (citiesRef s') /\
    Forall2 (fellByImpact batteryHit batteryOff (enemiesRef s))
      (batteriesRef s) (batteriesRef s').
Proof.
  destruct (enemy_filterM_defences h (enemiesRef s) s) as (kept & s' & E & HC & HB).
  exists (set_enemiesRef kept s'). cbv [enemyPhase bind gets modify]. rewrite E.
  split; [reflexivity|]. fields. now split.
Qed.

(** ** Events other than a frame *)

#[export] Instance sameFlags_preorder : PreOrder sameFlags.
Proof.
  split.
  - intros s. split; apply Forall2_refl_eq; auto.
  - intros a b c [A1 A2] [B1 B2]. split.
    + eapply Forall2_compose; [|exact A1|exact B1]. cbv beta.
      intros x y z [? ?] [? ?]. split; congruence.
    + eapply Forall2_compose; [|exact A2|exact B2]. cbv beta.
      intros x y z [? ?] [? ?]. split; congruence.
Qed.

#[export] Instance sameAmmo_preorder : PreOrder sameAmmo.
Proof.
  split; [intros s; reflexivity|].
  intros a b c Hab Hbc. unfold sameAmmo in *. congruence.
Qed.

Lemma resizeCities_flags w h cities : forall i,
  Forall2 (fun c c' => c_id c' = c_id c /\ c_active c' = c_active c)
    cities (resizeCities i w h cities).
Proof.
  induction cities as [|c cs IH]; intros i; cbn [resizeCities]; constructor; auto.
Qed.

Lemma resizeBatteries_flags w h bs :
  Forall2 (fun b b' => b_id b' = b_id b /\ b_active b' = b_active b)
    bs (resizeBatteries w h bs).
Proof.
  destruct bs as [|b0 [|b1 [|b2 [|b3 r]]]]; cbn [resizeBatteries];
    try (apply Forall2_refl_eq; auto).
  repeat constructor.
Qed.

Lemma updateAt_flags (bs : list Battery) : forall k,
  Forall2 (fun b b' => b_id b' = b_id b /\ b_active b' = b_active b)
    bs (updateAt k decrementAmmo bs).
Proof.
  induction bs as [|b bs IH]; intros k; [destruct k; constructor|].
  destruct k as [|k]; cbn [updateAt]; constructor; auto.
  apply Forall2_refl_eq; auto.
Qed.

Lemma batteryOff_ammo_map test bs :
  map b_ammo (deactivateFirst test batteryOff bs) = map b_ammo bs.
Proof.
  induction bs as [|b bs IH]; [reflexivity|].
  cbn [deactivateFirst]. destruct (test b); cbn [map]; [reflexivity|now rewrite IH].
Qed.

Lemma resizeBatteries_ammo_map w h bs :
  map b_ammo (resizeBatteries w h bs) = map b_ammo bs.
Proof. now destruct bs as [|b0 [|b1 [|b2 [|b3 r]]]]. Qed.

Ltac sameFlags_write :=
  unfold sameFlags; fields; split;
  first [ apply Forall2_refl_eq; solve [auto]
        | apply resizeCities_flags
        | apply resizeBatteries_flags ].

Ltac sameAmmo_write :=
  unfold sameAmmo; fields;
  first [ reflexivity | apply batteryOff_ammo_map | apply resizeBatteries_ammo_map ].

Lemma fireMissile_sameFlags h x y : keeps sameFlags (fireMissile h x y).
Proof.
  intros s. cbv [fireMissile bind gets ret].
  destruct (negb (GameState_eqb (gameStateRef s) PLAYING) || isPausedRef s);
    [reflexivity|]. cbv beta.
  destruct (chooseBattery x 0 (batteriesRef s) None infinity) as [[k b]|];
    [|reflexivity].
  assert (W : sameFlags s (set_batteriesRef (updateAt k decrementAmmo (batteriesRef s)) s)).
  { unfold sameFlags. fields. split; [apply Forall2_refl_eq; auto|].
    apply updateAt_flags. }
  cbv [modify]. fields.
  destruct (updateAt k decrementAmmo (batteriesRef s)) as [|b0 [|b1 [|b2 r]]] eqn:Eu;
    cbv [throwTypeError setAmmo enqueue modify Math_random bind finalState];
    unfold sameFlags in *; revert W; fields; rewrite ?Eu; trivial.
Qed.

Lemma applyQueue_stores s :
  citiesRef (applyQueue s) = citiesRef s /\ batteriesRef (applyQueue s) = batteriesRef s.
Proof.
  assert (F : forall l s0, citiesRef (fold_left applyUpdate l s0) = citiesRef s0 /\
                           batteriesRef (fold_left applyUpdate l s0) = batteriesRef s0).
  { induction l as [|u l IH]; intros s0; [now split|].
    cbn [fold_left]. destruct (IH (applyUpdate s0 u)) as [-> ->].
    destruct u; split; reflexivity. }
  destruct (applyQueue_cases s) as [->|(u & rest & v & _ & _ & ->)]; [apply F|].
  destruct (F rest (set_score v s)) as [-> ->]. now split.
Qed.

Lemma render_stores s :
  citiesRef (render s) = citiesRef s /\ batteriesRef (render s) = batteriesRef s.
Proof.
  destruct (applyQueue_stores s) as [F1 F2].
  unfold render.
  repeat match goal with |- context [if ?b then _ else _] => destruct b end;
    fields; now split.
Qed.

Lemma render_sameDefences s : sameDefences s (render s).
Proof. unfold sameDefences. destruct (render_stores s) as [-> ->]. now split. Qed.

Lemma sameDefences_sameFlags s s' : sameDefences s s' -> sameFlags s s'.
Proof. intros [Hc Hb]. unfold sameFlags. rewrite Hc, Hb. split; apply Forall2_refl_eq; auto. Qed.

Lemma sameDefences_sameAmmo s s' : sameDefences s s' -> sameAmmo s s'.
Proof. intros [_ Hb]. unfold sameAmmo. now rewrite Hb. Qed.

(** A resize, a click and a press of the pause button keep the flags. *)
Lemma handle_sameFlags h ev :
  ev <> PressStart -> ev <> Render -> (forall time, ev <> Frame time) ->
  keeps sameFlags (handle h ev).
Proof.
  intros H1 H2 H3. destruct ev; try congruence; try (now destruct (H3 time));
    cbn [handle].
  all: handler ltac:(idtac; match goal with
                     | |- keeps _ (fireMissile _ _ _) => apply fireMissile_sameFlags
                     end) unfold_handlers; sameFlags_write.
Qed.

Lemma lightningChain_sameAmmo h nearby :
  forall index, runs sameAmmo (lightningChain h index nearby).
Proof.
  induction nearby as [|e rest IH]; intros index; cbn [lightningChain].
  - apply runs_ret.
  - apply runs_bind; [|intros; apply IH].
    handler fail unfold_handlers; sameAmmo_write.
Qed.

(** No event but a click and a press of the start button changes the
    ammunition of a battery. *)
Lemma handle_sameAmmo h ev :
  ev <> PressStart -> ev <> Render -> (forall x y, ev <> Click x y) ->
  keeps sameAmmo (handle h ev).
Proof.
  intros H1 H2 H3. destruct ev; try congruence; try (now destruct (H3 x y));
    cbn [handle].
  all: handler ltac:(idtac; match goal with
                     | |- runs _ (lightningChain _ _ _) => apply lightningChain_sameAmmo
                     end) unfold_handlers; sameAmmo_write.
Qed.

(** ** A frame *)

Lemma spawnPhase_sameDefences h : keeps sameDefences (spawnPhase h).
Proof. handler fail unfold_handlers; sameDefences_write. Qed.

Lemma afterEnemies_sameDefences h time canvas :
  runs sameDefences
    (missilePhase h canvas ;; explosionPhase h time ;; particlePhase ;;
     checkWinLoss ;; requestAnimationFrame).
Proof. handler sameDefences_known unfold_handlers; sameDefences_write. Qed.

Lemma fell_cityFate enemies c c' :
  fellByImpact cityHit cityOff enemies c c' -> cityFate (filter arrives enemies) c c'.
Proof.
  intros [->|(-> & e & Hin & Hp & Hh)]; split; try reflexivity; [now left|].
  right. split; [reflexivity|]. exists e. split; [|exact Hh].
  apply filter_In. split; [exact Hin|exact Hp].
Qed.

Lemma fell_batteryFate enemies b b' :
  fellByImpact batteryHit batteryOff enemies b b' ->
  batteryFate (filter arrives enemies) b b'.
Proof.
  intros [->|(-> & e & Hin & Hp & Hh)]; split; try reflexivity; [now left|].
  right. split; [reflexivity|]. exists e. split; [|exact Hh].
  apply filter_In. split; [exact Hin|exact Hp].
Qed.

Lemma fate_refl hits cs bs :
  Forall2 (cityFate hits) cs cs /\ Forall2 (batteryFate hits) bs bs.
Proof. split; apply Forall2_refl_eq; intros a; split; auto. Qed.

Lemma finalState_bind {A B : Type} (m : M A) (k : A -> M B) s :
  finalState (bind m k s) =
  match m s with
  | Returned a s' => finalState (k a s')
  | Threw s' => s'
  end.
Proof. unfold bind. now destruct (m s). Qed.

Lemma frame_fate h time s :
  Forall2 (cityFate (impacts h s (Frame time)))
    (citiesRef s) (citiesRef (step h s (Frame time))) /\
  Forall2 (batteryFate (impacts h s (Frame time)))
    (batteriesRef s) (batteriesRef (step h s (Frame time))).
Proof.
  unfold step. cbv [handle animationFrame bind gets].
  destruct (requestRef s); cbn [when]; [|cbn [ret finalState]; apply fate_refl].
  cbv [bind modify update gets]. fields.
  destruct (negb (GameState_eqb (gameStateRef s) PLAYING));
    [cbn [ret finalState]; fields; apply fate_refl|].
  cbv beta. fields.
  destruct (isPausedRef s);
    [cbv [requestAnimationFrame modify finalState]; fields; apply fate_refl|].
  cbv beta. fields.
  destruct (canvasRef s) as [canvas|]; [|cbn [ret finalState]; fields; apply fate_refl].
  unfold simulate, impacts. rewrite finalState_bind.
  pose proof (spawnPhase_sameDefences h (set_requestRef false s)) as [Hc Hb].
  revert Hc Hb. fields.
  destruct (spawnPhase h (set_requestRef false s)) as [[] s1|s1]; cbn [finalState];
    intros Hc Hb; [|rewrite Hc, Hb; apply fate_refl].
  destruct (enemyPhase_defences h s1) as (s2 & E2 & HC & HB).
  destruct (afterEnemies_sameDefences h time canvas s2) as ([] & s3 & E3 & [Hc3 Hb3]).
  rewrite finalState_bind, E2, E3. cbn [finalState].
  rewrite Hc3, Hb3, <- Hc, <- Hb. split.
  - eapply Forall2_impl; [|exact HC]. apply fell_cityFate.
  - eapply Forall2_impl; [|exact HB]. apply fell_batteryFate.
Qed.

Lemma sameFlags_fate hits s s' :
  sameFlags s s' ->
  Forall2 (cityFate hits) (citiesRef s) (citiesRef s') /\
  Forall2 (batteryFate hits) (batteriesRef s) (batteriesRef s').
Proof.
  intros [Hc Hb]. split.
  - eapply Forall2_impl; [|exact Hc]. cbv beta. intros c c' [? ?]. split; auto.
  - eapply Forall2_impl; [|exact Hb]. cbv beta. intros b b' [? ?]. split; auto.
Qed.

(** C10: whatever the event, a press of the start button apart, every city
    and every battery keeps its id, and keeps its flag unless the event is a
    frame in which an enemy arrives at its target within 5 units of the
    x-coordinate of that defence, and then the flag is off; no event but a
    click (and a press of the start button) changes the ammunition of a
    battery.  In particular the missile phase and the explosion phase of a
    frame (every terminal effect and every explosion) leave the cities and
    the batteries exactly as they were; they only remove enemies and queue
    score updaters. *)
Theorem defences_fall_only_by_impact h s ev time canvas :
  ev <> PressStart ->
  (Forall2 (cityFate (impacts h s ev)) (citiesRef s) (citiesRef (step h s ev)) /\
   Forall2 (batteryFate (impacts h s ev)) (batteriesRef s) (batteriesRef (step h s ev)) /\
   ((forall x y, ev <> Click x y) ->
    map b_ammo (batteriesRef (step h s ev)) = map b_ammo (batteriesRef s))) /\
  (exists s',
     missilePhase h canvas s = Returned tt s' /\
     sameDefences s s' /\ enemiesShrink s s' /\ quiet s s') /\
  (exists s',
     explosionPhase h time s = Returned tt s' /\
     sameDefences s s' /\ enemiesShrink s s' /\ quiet s s').
Proof.
  intros Hev. split; [|split].
  - assert (Ha : (forall x y, ev <> Click x y) ->
                 map b_ammo (batteriesRef (step h s ev)) = map b_ammo (batteriesRef s)).
    { intros Hc. destruct ev; try congruence.
      4: { unfold step. cbn [handle modify finalState].
           now destruct (render_stores s) as [_ ->]. }
      all: (match goal with |- context [step ?hh ?ss ?e] =>
              exact (handle_sameAmmo hh e ltac:(discriminate) ltac:(discriminate) Hc ss)
            end). }
    destruct ev; try congruence.
    + destruct (sameFlags_fate (impacts h s (Resize w h0)) s (step h s (Resize w h0)))
        as [F1 F2]; [|auto].
      apply (handle_sameFlags h); discriminate.
    + destruct (sameFlags_fate (impacts h s (Click x y)) s (step h s (Click x y)))
        as [F1 F2]; [|auto].
      apply (handle_sameFlags h); discriminate.
    + destruct (sameFlags_fate (impacts h s PressPause) s (step h s PressPause))
        as [F1 F2]; [|auto].
      apply (handle_sameFlags h); discriminate.
    + destruct (frame_fate h time0 s) as [F1 F2]. auto.
    + destruct (sameFlags_fate (impacts h s Render) s (step h s Render))
        as [F1 F2]; [|auto].
      unfold step. cbn [handle modify finalState].
      apply sameDefences_sameFlags, render_sameDefences.
  - destruct (missilePhase_sameDefences h canvas s) as ([] & s1 & E1 & H1).
    destruct (missilePhase_shrink h canvas s) as ([] & s2 & E2 & H2).
    destruct (missilePhase_quiet h canvas s) as ([] & s3 & E3 & H3).
    exists s1. rewrite E1 in E2, E3. inversion E2; inversion E3; subst. auto.
  - destruct (explosionPhase_sameDefences h time s) as ([] & s1 & E1 & H1).
    destruct (explosionPhase_shrink h time s) as ([] & s2 & E2 & H2).
    destruct (explosionPhase_quiet h time s) as ([] & s3 & E3 & H3).
    exists s1. rewrite E1 in E2, E3. inversion E2; inversion E3; subst. auto.
Qed.

Lemma defences_fall_only_by_impact_witness :
  (Forall2 (cityFate (impacts exampleHost lastStand (Frame 0)))
     (citiesRef lastStand) (citiesRef (step exampleHost lastStand (Frame 0))) /\
   Forall2 (batteryFate (impacts exampleHost lastStand (Frame 0)))
     (batteriesRef lastStand) (batteriesRef (step exampleHost lastStand (Frame 0))) /\
   ((forall x y, Frame 0 <> Click x y) ->
    map b_ammo (batteriesRef (step exampleHost lastStand (Frame 0)))
    = map b_ammo (batteriesRef lastStand))) /\
  (exists s',
     missilePhase exampleHost (mkCanvas 800 600) lastStand = Returned tt s' /\
     sameDefences lastStand s' /\ enemiesShrink lastStand s' /\ quiet lastStand s') /\
  (exists s',
     explosionPhase exampleHost 0 lastStand = Returned tt s' /\
     sameDefences lastStand s' /\ enemiesShrink lastStand s' /\ quiet lastStand s').
Proof.
  apply (defences_fall_only_by_impact exampleHost lastStand (Frame 0) 0 (mkCanvas 800 600)).
  discriminate.
Defined.

(** * Spawning *)

Lemma activeTargets_none s : activeTargets s = [] -> noActiveDefence s.
Proof.
  unfold activeTargets. intros E. apply app_eq_nil in E. destruct E as [Ec Eb].
  apply map_eq_nil in Ec. apply map_eq_nil in Eb. split.
  - intros c Hin. destruct (c_active c) eqn:Ha; [|reflexivity].
    assert (K : In c (filter c_active (citiesRef s))) by (apply filter_In; now split).
    rewrite Ec in K. destruct K.
  - intros b Hin. destruct (b_active b) eqn:Ha; [|reflexivity].
    assert (K : In b (filter b_active (batteriesRef s))) by (apply filter_In; now split).
    rewrite Eb in K. destruct K.
Qed.

Lemma activeTargets_some s p : In p (activeTargets s) -> isActiveDefence s p.
Proof.
  unfold activeTargets. intros Hin. apply in_app_or in Hin. destruct Hin as [Hin|Hin];
    apply in_map_iff in Hin; destruct Hin as (a & <- & Ha); apply filter_In in Ha;
    destruct Ha as [Ha1 Ha2]; [left|right]; now exists a.
Qed.

Lemma activeTargets_any s p : In p (activeTargets s) -> ~ noActiveDefence s.
Proof.
  intros Hin [Nc Nb].
  destruct (activeTargets_some s p Hin) as [(c & Hc & Ha & _)|(b & Hb & Ha & _)].
  - rewrite (Nc c Hc) in Ha. discriminate.
  - rewrite (Nb b Hb) in Ha. discriminate.
Qed.

(** X1: [spawnEnemy] does nothing when no city and no battery has its flag
    on; otherwise it draws three values and either appends exactly one
    enemy, at progress 0 above the screen, aimed at the position of a city
    or battery whose flag is on and with the speed the mirrored score gives,
    or throws (the index computed from the draw being out of range) without
    touching the store. *)
Theorem spawn_aims_at_active_defence h s :
  match spawnEnemy h s with
  | Returned _ s' =>
      (noActiveDefence s /\ s' = s) \/
      exists e,
        enemiesRef s' = enemiesRef s ++ [e] /\
        isActiveDefence s (e_targetX e, e_targetY e) /\
        e_progress e = 0 /\ e_startY e = -20 /\
        e_speed e = ENEMY_SPEED_BASE + floatOfZ (scoreRef s) / 1000 * 0.5 /\
        randomUsed s' = (randomUsed s + 3)%nat
  | Threw s' =>
      ~ noActiveDefence s /\ enemiesRef s' = enemiesRef s /\
      randomUsed s' = (randomUsed s + 3)%nat
  end.
Proof.
  cbv [spawnEnemy bind gets ret Math_random modify throwTypeError].
  destruct (activeTargets s) as [|t ts] eqn:Et;
    [left; split; [now apply activeTargets_none|reflexivity]|].
  assert (Hany : ~ noActiveDefence s)
    by (apply (activeTargets_any s t); rewrite Et; now left).
  fields.
  match goal with |- context [floorIndex ?v ?n] => destruct (floorIndex v n) as [k|] end.
  - destruct (nth_error (t :: ts) k) as [[tx ty]|] eqn:Ek.
    + right. eexists. fields. split; [reflexivity|].
      cbn [e_targetX e_targetY e_progress e_startY e_speed].
      split; [apply activeTargets_some; rewrite Et; eapply nth_error_In; exact Ek|].
      repeat split. lia.
    + fields. repeat split; [exact Hany|lia].
  - fields. repeat split; [exact Hany|lia].
Qed.

(** * Explosions against enemies *)

Lemma fold_awards n : forall s0,
  score (fold_left applyUpdate (repeat (UpdateScore AddTwenty) n) s0)
  = (score s0 + 20 * Z.of_nat n)%Z.
Proof.
  induction n as [|n IH]; intros s0.
  - cbn [repeat fold_left]. lia.
  - cbn [repeat fold_left]. rewrite IH. cbn [applyUpdate runUpdater]. fields. lia.
Qed.

(** The score the render of a queue of [n] updaters [s => s + 20] shows, the
    first of them queued with nothing before it. *)
Lemma awards_rendered n s s' :
  pending s = [] -> score s' = score s ->
  pending s' = repeat (UpdateScore AddTwenty) n ->
  eagerState s' = eagerAfter AddTwenty n s ->
  score (render s') = (score s + 20 * Z.of_nat n)%Z.
Proof.
  intros Hp Hs Hq He. rewrite render_score. unfold applyQueue, eagerAfter in *.
  rewrite Hq, He, Hp. destruct n as [|n].
  - cbn [repeat]. replace (match eagerState s with Some _ | _ => fold_left applyUpdate [] s' end)
      with (fold_left applyUpdate [] s') by (now destruct (eagerState s)).
    cbn [fold_left]. lia.
  - cbn [repeat]. rewrite fold_awards. cbn [runUpdater]. fields. lia.
Qed.

(** X2: the collision test of an explosion removes exactly the enemies
    strictly inside the radius (at a distance from its centre that is less
    than the radius), keeps the others in their order, and queues one
    [s => s + 20] per enemy removed; with nothing else queued, the next
    render adds 20 points per enemy removed. *)
Theorem blast_removes_and_awards exp radius s :
  exists s',
    blastEnemies exp radius s = Returned tt s' /\
    enemiesRef s' = filter (fun e => negb (caught exp radius e)) (enemiesRef s) /\
    pending s' =
      pending s ++
      repeat (UpdateScore AddTwenty)
        (List.length (filter (caught exp radius) (enemiesRef s))) /\
    (pending s = [] ->
     score (render s') =
       (score s + 20 * Z.of_nat (List.length (filter (caught exp radius) (enemiesRef s))))%Z).
Proof.
  rewrite blastEnemies_run. eexists. split; [reflexivity|]. fields.
  split; [reflexivity|]. split; [reflexivity|].
  intros Hp.
  apply (awards_rendered
           (List.length (filter (inBlast exp radius) (enemiesRef s))) s); fields;
    try reflexivity; try assumption.
  now rewrite Hp.
Qed.

(** * The life of an explosion *)

Section RunsTo.

Context {R : State -> State -> Prop} `{PreOrder State R}.

Lemma runsTo_ret {A : Type} (v : A) : runsTo R v (ret v).
Proof. intros s. exists s. split; reflexivity. Qed.

Lemma runsTo_bind {A B : Type} (v : B) (m : M A) (k : A -> M B) :
  runs R m -> (forall a, runsTo R v (k a)) -> runsTo R v (bind m k).
Proof.
  intros Hm Hk s. destruct (Hm s) as (a & s1 & E1 & R1).
  destruct (Hk a s1) as (s2 & E2 & R2).
  exists s2. unfold bind. rewrite E1. split; [exact E2|].
  etransitivity; eassumption.
Qed.

End RunsTo.

(** X3: whatever the enemies around it, [explosionStep] keeps the explosion
    exactly when its life, lowered by [1 / EXPLOSION_DURATION], is still above
    0, with that life and the radius the profile gives for it; the cities and
    the batteries are untouched. *)
Theorem explosion_ages_by_one_frame h time exp s :
  exists s',
    explosionStep h time exp s = Returned (agedExplosion exp) s' /\
    sameDefences s s'.
Proof.
  assert (K : runsTo sameDefences (agedExplosion exp) (explosionStep h time exp)).
  { unfold explosionStep.
    repeat (first [ apply runsTo_bind; [|intros]
                  | apply runsTo_ret ]).
    all: handler fail unfold_handlers; sameDefences_write. }
  exact (K s).
Qed.

(** X4: an explosion created with life 1 is kept by 59 frames and removed by the
    60th, [EXPLOSION_DURATION] frames after its creation; one created with
    life 0.5 (by a lightning strike) is kept by 30 frames and removed by the
    31st only, its life after 30 frames being rounded above 0. *)
Theorem explosion_lasts_sixty_frames id x y maxRadius rare :
  framesAlive 100 (mkExplosion id x y 0 maxRadius 1 rare) = 59%nat /\
  framesAlive 100 (mkExplosion id x y 0 maxRadius 0.5 rare) = 30%nat.
Proof. split; vm_compute; reflexivity. Qed.

(** X5: a rare explosion created with life 1 is in the store for each of its
    first 59 frames, and the frames that clear the store (the life after the
    frame is between 0.4 and 0.6) are the twelve frames from the 24th to the
    35th: after [n] frames the next one clears exactly when [23 <= n <= 34]. *)
Theorem rare_peak_lasts_twelve_frames id x y maxRadius n :
  (n < 60)%nat ->
  match agedBy n (mkExplosion id x y 0 maxRadius 1 true) with
  | Some exp => atPeak exp = (23 <=? n)%nat && (n <=? 34)%nat
  | None => False
  end.
Proof.
  intros Hn.
  do 60 (destruct n as [|n]; [vm_compute; reflexivity|]). lia.
Qed.

Lemma rare_peak_lasts_twelve_frames_witness :
  match agedBy 29 (mkExplosion "rare-exp-1" 400 300 0 1200 1 true) with
  | Some exp => atPeak exp = (23 <=? 29)%nat && (29 <=? 34)%nat
  | None => False
  end.
Proof.
  apply (rare_peak_lasts_twelve_frames "rare-exp-1" 400 300 1200 29). lia.
Defined.

(** * The rare bomb at its peak *)

Lemma state_eta_particles s :
  set_particlesRef (particlesRef s) (set_randomUsed (randomUsed s) s) = s.
Proof. now destruct s. Qed.

#[export] Instance onlyParticles_preorder : PreOrder onlyParticles.
Proof.
  split.
  - intros s. unfold onlyParticles. now rewrite state_eta_particles.
  - intros a b c Hab Hbc. unfold onlyParticles in *.
    etransitivity; [exact Hbc|].
    generalize (particlesRef c) (randomUsed c). intros ps n.
    rewrite Hab. reflexivity.
Qed.

Ltac onlyParticles_write := unfold onlyParticles; fields; reflexivity.

Lemma particles_burst h time exp b :
  runs onlyParticles (when b (forLoop 0 15 (fun _ => spawnParticle h time exp))).
Proof. handler fail unfold_handlers; onlyParticles_write. Qed.

Lemma blastEnemies_none exp radius s :
  enemiesRef s = [] -> blastEnemies exp radius s = Returned tt s.
Proof.
  intros He. rewrite blastEnemies_run, He. cbn [filter List.length repeat].
  unfold eagerAfter. rewrite app_nil_r.
  replace (match pending s with [] | _ => eagerState s end) with (eagerState s)
    by (now destruct (pending s)).
  rewrite state_eta_queue. rewrite <- He. now destruct s.
Qed.

(** X6: on a frame that takes a rare explosion into its peak window, the store
    of enemies is empty after the step of that explosion, whatever the
    positions of the enemies; when it was not empty, exactly one updater
    [s => s + enemiesRef.current.length * 20] is queued, and none otherwise.
    The cities and batteries are untouched. *)
Theorem rare_peak_empties_store h time exp s :
  atPeak exp = true ->
  exists s',
    explosionStep h time exp s = Returned (agedExplosion exp) s' /\
    enemiesRef s' = [] /\
    pending s' =
      pending s ++
      match enemiesRef s with
      | [] => []
      | _ :: _ => [UpdateScore AddTwentyPerEnemy]
      end /\
    citiesRef s' = citiesRef s /\ batteriesRef s' = batteriesRef s.
Proof.
  intros Hp. unfold atPeak, nextLife in Hp.
  unfold explosionStep. unfold bind at 1.
  destruct (particles_burst h time exp (x_life exp =? 1) s) as ([] & s1 & E1 & R1).
  rewrite E1. unfold bind at 1. rewrite Hp. cbn [when].
  assert (He : enemiesRef s1 = enemiesRef s) by (rewrite R1; reflexivity).
  assert (Hq : pending s1 = pending s) by (rewrite R1; reflexivity).
  assert (Hc : citiesRef s1 = citiesRef s) by (rewrite R1; reflexivity).
  assert (Hb : batteriesRef s1 = batteriesRef s) by (rewrite R1; reflexivity).
  cbv [rareClear bind gets]. rewrite He.
  destruct (enemiesRef s) as [|e es] eqn:Ees.
  - cbn [List.length Nat.ltb Nat.leb when ret].
    rewrite (blastEnemies_none _ _ s1 He).
    eexists. split; [reflexivity|]. rewrite app_nil_r. auto.
  - cbn [List.length Nat.ltb Nat.leb when].
    cbv [setScore bind gets]. destruct (pending s1) as [|u q] eqn:Hq1;
      cbv [enqueue modify bind];
      rewrite blastEnemies_none by reflexivity;
      (eexists; split; [reflexivity|]); fields; rewrite ?Hq1, <- Hq; auto.
Qed.

Lemma rare_peak_empties_store_witness :
  exists s',
    explosionStep exampleHost 0 rareBlast rareScene = Returned (agedExplosion rareBlast) s' /\
    enemiesRef s' = [] /\
    pending s' =
      pending rareScene ++
      match enemiesRef rareScene with
      | [] => []
      | _ :: _ => [UpdateScore AddTwentyPerEnemy]
      end /\
    citiesRef s' = citiesRef rareScene /\ batteriesRef s' = batteriesRef rareScene.
Proof.
  apply (rare_peak_empties_store exampleHost 0 rareBlast rareScene).
  vm_compute. reflexivity.
Defined.

(** * The lightning strike *)

Lemma filter_twice {A : Type} (f g : A -> bool) (l : list A) :
  filter g (filter f l) = filter (fun a => f a && g a) l.
Proof.
  induction l as [|a l IH]; [reflexivity|].
  cbn [filter]. destruct (f a); cbn [filter andb]; [destruct (g a)|]; now rewrite IH.
Qed.

Lemma killAll_filter ids : forall es,
  killAll ids es = filter (fun en => negb (idIn ids en)) es.
Proof.
  induction ids as [|id ids IH]; intros es.
  - cbn. induction es as [|e es IHes]; [reflexivity|]. cbn. now rewrite <- IHes.
  - unfold killAll in *. cbn [fold_left]. rewrite IH. unfold killById.
    rewrite filter_twice. apply filter_ext. intros en.
    unfold idIn. cbn [existsb]. now rewrite negb_orb.
Qed.

Lemma lightningChain_run h nearby : forall index s,
  exists s' new,
    lightningChain h index nearby s = Returned tt s' /\
    enemiesRef s' = killAll (map e_id (evenIndexed index nearby)) (enemiesRef s) /\
    pending s' =
      pending s ++
      repeat (UpdateScore AddTwenty) (List.length (evenIndexed index nearby)) /\
    explosionsRef s' = explosionsRef s ++ new /\
    map blastShape new =
      map (fun e => (e_x e, e_y e, 20, 0.5)) (evenIndexed index nearby) /\
    sameDefences s s'.
Proof.
  induction nearby as [|e rest IH]; intros index s.
  - exists s, []. cbn [lightningChain evenIndexed map List.length repeat killAll fold_left ret].
    rewrite !app_nil_r. repeat split.
  - cbn [lightningChain evenIndexed]. unfold bind at 1.
    destruct (Nat.even index).
    + cbv [when forLoop bind Math_random ret modify setScore gets pushExplosion]. fields.
      destruct (pending s) as [|u0 q] eqn:Hq; cbv [enqueue modify bind];
        (match goal with |- context [lightningChain h (S index) rest ?s1] =>
           destruct (IH (S index) s1) as (s' & new & E & He & Hp & Hx & Hs & Hd)
         end);
        rewrite E; revert He Hp Hx Hd; unfold sameDefences; fields; rewrite ?Hq;
        intros He Hp Hx Hd;
        (eexists s', (_ :: new)); (split; [reflexivity|]);
        cbn [map List.length repeat]; unfold killAll in *; cbn [fold_left];
        rewrite He, Hp, Hx, <- !app_assoc; cbn [app blastShape x_x x_y x_maxRadius x_life];
        rewrite Hs; repeat split; apply Hd.
    + cbv [when ret].
      destruct (IH (S index) s) as (s' & new & E & He & Hp & Hx & Hs & Hd).
      exists s', new. rewrite E. auto 10.
Qed.

(** X7: a lightning strike takes the enemies within 300 units of the missile,
    in the order of the store, and strikes every other one of them, the
    first included: every enemy whose id is the id of a struck enemy leaves
    the store (also one that was not struck but shares the id), the others
    stay in order; one [s => s + 20] is queued and one explosion of maximal
    radius 20 and life 0.5 is pushed at its position for each struck enemy,
    followed by one explosion of maximal radius [EXPLOSION_RADIUS] and life 1
    at the target point of the missile.  The cities and batteries are
    untouched. *)
Theorem lightning_strikes_every_other h m s :
  exists s' new,
    lightningStrike h m s = Returned tt s' /\
    enemiesRef s' =
      filter (fun en =>
                negb (idIn (map e_id (evenIndexed 0 (nearbyEnemies m (enemiesRef s)))) en))
             (enemiesRef s) /\
    pending s' =
      pending s ++
      repeat (UpdateScore AddTwenty)
        (List.length (evenIndexed 0 (nearbyEnemies m (enemiesRef s)))) /\
    explosionsRef s' = explosionsRef s ++ new /\
    map blastShape new =
      map (fun e => (e_x e, e_y e, 20, 0.5))
          (evenIndexed 0 (nearbyEnemies m (enemiesRef s)))
      ++ [(m_targetX m, m_targetY m, EXPLOSION_RADIUS, 1)] /\
    sameDefences s s'.
Proof.
  unfold lightningStrike. cbv [bind gets].
  fold (nearbyEnemies m (enemiesRef s)).
  destruct (lightningChain_run h (nearbyEnemies m (enemiesRef s)) 0 s)
    as (s1 & new & E & He & Hp & Hx & Hs & Hd).
  rewrite E. cbv [normalExplosion bind Math_random pushExplosion modify].
  eexists _, (new ++ [_]). split; [reflexivity|]. unfold sameDefences in *. fields.
  rewrite He, Hp, Hx, killAll_filter, <- app_assoc, map_app, Hs.
  repeat split; apply Hd.
Qed.

(** * Interceptors in flight and at their target *)

(** X8: an interceptor whose progress is still below 1 after the frame advanced
    it is kept and has no effect on the stores.  A NORMAL interceptor that
    reached its target is removed and pushes one explosion of maximal radius
    [EXPLOSION_RADIUS] at its target point; a RARE one is removed and pushes
    one explosion flagged rare, of maximal radius one and a half times the
    larger side of the canvas, at the position of the missile (which may have
    overshot the target point). *)
Theorem interceptor_terminal_effects h canvas m s :
  ((1 <=? m_progress (advanceMissile m)) = false ->
     exists s',
       missileStep h canvas m s = Returned (Some (advanceMissile m)) s' /\
       explosionsRef s' = explosionsRef s /\ enemiesRef s' = enemiesRef s /\
       pending s' = pending s) /\
  ((1 <=? m_progress (advanceMissile m)) = true -> m_type m = NORMAL ->
     exists id s',
       missileStep h canvas m s = Returned None s' /\
       explosionsRef s' =
         explosionsRef s ++
         [mkExplosion id (m_targetX m) (m_targetY m) 0 EXPLOSION_RADIUS 1 false] /\
       enemiesRef s' = enemiesRef s /\ pending s' = pending s) /\
  ((1 <=? m_progress (advanceMissile m)) = true -> m_type m = RARE ->
     exists id s',
       missileStep h canvas m s = Returned None s' /\
       explosionsRef s' =
         explosionsRef s ++
         [mkExplosion id (m_x (advanceMissile m)) (m_y (advanceMissile m)) 0
            (Math_max (width canvas) (height canvas) * 1.5) 1 true] /\
       enemiesRef s' = enemiesRef s /\ pending s' = pending s).
Proof.
  assert (Htx : m_targetX (advanceMissile m) = m_targetX m)
    by (unfold advanceMissile; now destruct (m_progress m <? 1)).
  assert (Hty : m_targetY (advanceMissile m) = m_targetY m)
    by (unfold advanceMissile; now destruct (m_progress m <? 1)).
  split; [|split].
  - intros Hp. cbv [missileStep drawRocket bind Math_random ret]. rewrite Hp.
    eexists. split; [reflexivity|]. fields. auto.
  - intros Hp Ht. cbv [missileStep drawRocket bind Math_random ret].
    rewrite Hp, advanceMissile_type, Ht.
    cbv [normalExplosion bind Math_random pushExplosion modify ret].
    rewrite Htx, Hty. eexists _, _. split; [reflexivity|]. fields. auto.
  - intros Hp Ht. cbv [missileStep drawRocket bind Math_random ret].
    rewrite Hp, advanceMissile_type, Ht.
    cbv [rareExplosion bind Math_random pushExplosion modify ret].
    eexists _, _. split; [reflexivity|]. fields. auto.
Qed.

Lemma interceptor_terminal_effects_witness :
  exists id s',
    missileStep exampleHost (mkCanvas 800 600) (arrived RARE) playing = Returned None s' /\
    explosionsRef s' =
      explosionsRef playing ++
      [mkExplosion id (m_x (advanceMissile (arrived RARE))) (m_y (advanceMissile (arrived RARE)))
         0 (Math_max (width (mkCanvas 800 600)) (height (mkCanvas 800 600)) * 1.5) 1 true] /\
    enemiesRef s' = enemiesRef playing /\ pending s' = pending playing.
Proof.
  apply (interceptor_terminal_effects exampleHost (mkCanvas 800 600) (arrived RARE) playing);
    vm_compute; reflexivity.
Defined.

(** * Frames while paused and after the session has ended *)

Lemma request_eta s : requestRef s = true -> set_requestRef true (set_requestRef false s) = s.
Proof. destruct s. cbn. now intros ->. Qed.

Lemma update_paused h time s :
  gameStateRef s = PLAYING -> isPausedRef s = true ->
  update h time s = Returned tt (set_requestRef true s).
Proof.
  intros Hg Hp. cbv [update bind gets]. rewrite Hg.
  cbn [GameState_eqb negb]. cbv beta iota. now rewrite Hp.
Qed.

Lemma paused_frame h time s :
  gameStateRef s = PLAYING -> isPausedRef s = true -> step h s (Frame time) = s.
Proof.
  intros Hg Hp. unfold step. cbv [handle animationFrame bind gets].
  destruct (requestRef s) eqn:Hr; [|reflexivity].
  cbv [when modify bind]. rewrite update_paused by assumption.
  cbn [finalState]. now apply request_eta.
Qed.

(** X9: while the mirror of the pause flag is set, any number of frames leaves
    the whole state as it is (each frame only asks for the next one). *)
Theorem paused_frames_change_nothing h s times :
  gameStateRef s = PLAYING -> isPausedRef s = true ->
  run h s (map Frame times) = s.
Proof.
  intros Hg Hp. unfold run. induction times as [|t ts IH]; [reflexivity|].
  cbn [map fold_left]. now rewrite paused_frame.
Qed.

Lemma paused_frames_change_nothing_witness :
  run exampleHost pausedGame (map Frame [0; 16; 32]) = pausedGame.
Proof.
  apply (paused_frames_change_nothing exampleHost pausedGame [0; 16; 32]);
    vm_compute; reflexivity.
Defined.

Lemma idle_frame h time s : requestRef s = false -> step h s (Frame time) = s.
Proof.
  intros Hr. unfold step. cbv [handle animationFrame bind gets]. now rewrite Hr.
Qed.

Lemma fold_refs l : forall s,
  gameStateRef (fold_left applyUpdate l s) = gameStateRef s /\
  requestRef (fold_left applyUpdate l s) = requestRef s.
Proof.
  induction l as [|u l IH]; intros s; [now split|].
  cbn [fold_left]. destruct (IH (applyUpdate s u)) as [-> ->].
  destruct u; split; reflexivity.
Qed.

Lemma applyQueue_refs s :
  gameStateRef (applyQueue s) = gameStateRef s /\
  requestRef (applyQueue s) = requestRef s.
Proof.
  destruct (applyQueue_cases s) as [->|(u & rest & v & _ & _ & ->)]; [apply fold_refs|].
  destruct (fold_refs rest (set_score v s)) as [-> ->]. now split.
Qed.

Lemma render_refs s :
  gameStateRef (render s) =
    (if GameState_eqb (lastGameState (pending s) (gameState s)) (gameState s)
     then gameStateRef s else lastGameState (pending s) (gameState s)) /\
  requestRef (render s) =
    (if GameState_eqb (lastGameState (pending s) (gameState s)) (gameState s)
     then requestRef s
     else GameState_eqb (lastGameState (pending s) (gameState s)) PLAYING).
Proof.
  pose proof (applyQueue_gameState s) as Hg.
  destruct (applyQueue_refs s) as [Hr Hq].
  unfold render. cbv zeta.
  set (f := applyQueue s) in *.
  set (g' := lastGameState (pending s) (gameState s)) in *.
  destruct (score (set_eagerState None (set_pending [] f)) =? score s)%Z; fields; rewrite Hg;
    destruct (GameState_eqb g' (gameState s)) eqn:E; fields;
    match goal with |- context [Bool.eqb ?a ?b] => destruct (Bool.eqb a b) end;
    fields; rewrite ?Hg, ?E; fields; rewrite ?Hr, ?Hq; split; reflexivity.
Qed.

(** X10: when the render applies a queued transition out of PLAYING (to WIN or to
    GAMEOVER), the mirror follows, the scheduled frame is cancelled, and from
    then on frames leave the state as it is. *)
Theorem leaving_play_cancels_the_loop h s times :
  gameState s = PLAYING -> lastGameState (pending s) PLAYING <> PLAYING ->
  gameState (render s) = lastGameState (pending s) PLAYING /\
  gameStateRef (render s) = gameState (render s) /\
  requestRef (render s) = false /\
  run h (render s) (map Frame times) = render s.
Proof.
  intros Hg Hl.
  assert (E : gameState (render s) = lastGameState (pending s) PLAYING)
    by (now rewrite render_gameState, Hg).
  destruct (render_refs s) as [E1 E2]. rewrite Hg in E1, E2.
  assert (Hne : GameState_eqb (lastGameState (pending s) PLAYING) PLAYING = false).
  { destruct (lastGameState (pending s) PLAYING); try reflexivity. congruence. }
  rewrite Hne in E1, E2.
  repeat split; try congruence.
  unfold run. induction times as [|t ts IH]; [reflexivity|].
  cbn [map fold_left]. now rewrite idle_frame.
Qed.

Lemma leaving_play_cancels_the_loop_witness :
  gameState (render (finalState (update exampleHost 0 lastStand)))
    = lastGameState (pending (finalState (update exampleHost 0 lastStand))) PLAYING /\
  gameStateRef (render (finalState (update exampleHost 0 lastStand)))
    = gameState (render (finalState (update exampleHost 0 lastStand))) /\
  requestRef (render (finalState (update exampleHost 0 lastStand))) = false /\
  run exampleHost (render (finalState (update exampleHost 0 lastStand))) (map Frame [16; 32])
    = render (finalState (update exampleHost 0 lastStand)).
Proof.
  apply (leaving_play_cancels_the_loop exampleHost
           (finalState (update exampleHost 0 lastStand)) [16; 32]).
  - vm_compute. reflexivity.
  - vm_compute. discriminate.
Defined.

(** * Rendering *)

Lemma GameState_eqb_refl g : GameState_eqb g g = true.
Proof. now destruct g. Qed.

Lemma render_settled s : pending s = [] -> eagerState s = None -> render s = s.
Proof.
  intros Hp He.
  assert (Hs : set_eagerState None (set_pending [] s) = s)
    by (rewrite <- Hp, <- He; apply state_eta_queue).
  assert (Ha : applyQueue s = s) by (unfold applyQueue; now rewrite Hp).
  unfold render. rewrite Ha. cbv zeta. rewrite !Hs.
  rewrite Z.eqb_refl. cbv iota. rewrite GameState_eqb_refl. cbv iota.
  rewrite Bool.eqb_reflx. cbv iota. now rewrite GameState_eqb_refl.
Qed.


(** * The stores of cities and batteries during a session *)

Lemma deactivateFirst_length {A : Type} (test : A -> bool) (off : A -> A) (l : list A) :
  List.length (deactivateFirst test off l) = List.length l.
Proof.
  induction l as [|a l IH]; [reflexivity|].
  cbn [deactivateFirst]. destruct (test a); cbn [List.length]; congruence.
Qed.

Lemma deactivateFirst_Forall {A : Type} (P : A -> Prop) (test : A -> bool) (off : A -> A) l :
  (forall a, P a -> P (off a)) -> Forall P l -> Forall P (deactivateFirst test off l).
Proof.
  intros Hoff. induction 1 as [|a l Ha Hl IH]; cbn [deactivateFirst]; [constructor|].
  destruct (test a); constructor; auto.
Qed.

Lemma resizeCities_length w h cities : forall i,
  List.length (resizeCities i w h cities) = List.length cities.
Proof.
  induction cities as [|c cs IH]; intros i; [reflexivity|].
  cbn [resizeCities List.length]. now rewrite IH.
Qed.

Lemma resizeBatteries_length w h bs :
  List.length (resizeBatteries w h bs) = List.length bs.
Proof. now destruct bs as [|b0 [|b1 [|b2 [|b3 r]]]]. Qed.

Lemma resizeBatteries_Forall (P : Battery -> Prop) w h bs :
  (forall b x y, P b -> P (moveBattery b x y)) ->
  Forall P bs -> Forall P (resizeBatteries w h bs).
Proof.
  intros Hm Hb. destruct bs as [|b0 [|b1 [|b2 [|b3 r]]]]; try assumption.
  cbn [resizeBatteries].
  inversion Hb as [|? ? H0 Hb1]; subst. inversion Hb1 as [|? ? H1 Hb2]; subst.
  inversion Hb2 as [|? ? H2 _]; subst. repeat constructor; auto.
Qed.

Lemma updateAt_length {A : Type} (f : A -> A) (l : list A) : forall k,
  List.length (updateAt k f l) = List.length l.
Proof.
  induction l as [|a l IH]; intros k; [now destruct k|].
  destruct k as [|k]; cbn [updateAt List.length]; [reflexivity|now rewrite IH].
Qed.

Lemma updateAt_Forall {A : Type} (P : A -> Prop) (f : A -> A) (l : list A) : forall k a,
  Forall P l -> nth_error l k = Some a -> P (f a) -> Forall P (updateAt k f l).
Proof.
  induction l as [|x l IH]; intros k a Hl Hk Hf; [now destruct k|].
  inversion Hl as [|? ? Hx Hl']; subst.
  destruct k as [|k]; cbn [updateAt]; cbn in Hk.
  - inversion Hk; subst. now constructor.
  - constructor; [assumption|]. eapply IH; eassumption.
Qed.

(** The battery the loop of [fireMissile] ends with is in the store at its
    index and can fire. *)
Lemma chooseBattery_sound targetX rest : forall pre best minDist,
  (forall k b, best = Some (k, b) ->
     nth_error (pre ++ rest) k = Some b /\ eligible b = true) ->
  forall k b,
    chooseBattery targetX (List.length pre) rest best minDist = Some (k, b) ->
    nth_error (pre ++ rest) k = Some b /\ eligible b = true.
Proof.
  induction rest as [|b0 rest IH]; intros pre best minDist Hbest k b.
  - cbn [chooseBattery]. apply Hbest.
  - cbn [chooseBattery]. fold (eligible b0).
    replace (pre ++ b0 :: rest) with ((pre ++ [b0]) ++ rest) in *
      by (now rewrite <- app_assoc).
    replace (S (List.length pre)) with (List.length (pre ++ [b0]))
      by (rewrite length_app; cbn; lia).
    destruct (eligible b0) eqn:He.
    + destruct (abs (b_x b0 - targetX) <? minDist).
      * apply IH. intros k' b' E. inversion E; subst. split; [|assumption].
        rewrite nth_error_app1 by (rewrite length_app; cbn; lia).
        rewrite nth_error_app2 by lia. now rewrite Nat.sub_diag.
      * now apply IH.
    + now apply IH.
Qed.

#[export] Instance keepsWellFormed_preorder : PreOrder keepsWellFormed.
Proof. split; [intros s Hs; exact Hs|intros a b c Hab Hbc Ha; auto]. Qed.

Lemma batteryOff_ammo b :
  (0 <= b_ammo b <= b_maxAmmo b)%Z ->
  (0 <= b_ammo (batteryOff b) <= b_maxAmmo (batteryOff b))%Z.
Proof. trivial. Qed.

Lemma moveBattery_ammo b x y :
  (0 <= b_ammo b <= b_maxAmmo b)%Z ->
  (0 <= b_ammo (moveBattery b x y) <= b_maxAmmo (moveBattery b x y))%Z.
Proof. trivial. Qed.

Ltac wellFormed_write :=
  unfold keepsWellFormed, wellFormed; fields;
  let Hc := fresh "Hc" in let Hb := fresh "Hb" in let Ha := fresh "Ha" in
  intros (Hc & Hb & Ha);
  rewrite ?deactivateFirst_length, ?resizeCities_length, ?resizeBatteries_length;
  repeat split;
  first [ assumption
        | reflexivity
        | apply deactivateFirst_Forall; [exact batteryOff_ammo|assumption]
        | apply resizeBatteries_Forall; [exact moveBattery_ammo|assumption]
        | unfold initBatteries, INITIAL_AMMO; repeat constructor; cbn; lia ].

Lemma lightningChain_wellFormed h nearby :
  forall index, runs keepsWellFormed (lightningChain h index nearby).
Proof.
  induction nearby as [|e rest IH]; intros index; cbn [lightningChain].
  - apply runs_ret.
  - apply runs_bind; [|intros; apply IH].
    handler fail unfold_handlers; wellFormed_write.
Qed.

Lemma fireMissile_wellFormed h x y : keeps keepsWellFormed (fireMissile h x y).
Proof.
  intros s (Hc & Hb & Ha). cbv [fireMissile bind gets ret].
  destruct (negb (GameState_eqb (gameStateRef s) PLAYING) || isPausedRef s);
    [now repeat split|]. cbv beta.
  destruct (chooseBattery x 0 (batteriesRef s) None infinity) as [[k b]|] eqn:E;
    [|now repeat split].
  destruct (chooseBattery_sound x (batteriesRef s) [] None infinity
              ltac:(discriminate) k b E) as [Hk He].
  cbn [app] in Hk.
  assert (W : wellFormed
                (set_batteriesRef (updateAt k decrementAmmo (batteriesRef s)) s)).
  { unfold wellFormed. fields. rewrite updateAt_length. repeat split; try assumption.
    eapply updateAt_Forall; [eassumption|eassumption|].
    rewrite Forall_forall in Ha. specialize (Ha b (nth_error_In _ _ Hk)).
    unfold eligible in He. apply andb_prop in He. destruct He as [_ He].
    apply Z.ltb_lt in He. cbn [decrementAmmo b_ammo b_maxAmmo]. lia. }
  cbv [modify]. fields.
  destruct (updateAt k decrementAmmo (batteriesRef s)) as [|b0 [|b1 [|b2 r]]] eqn:Eu;
    cbv [throwTypeError setAmmo enqueue modify Math_random bind finalState];
    unfold wellFormed in *; revert W; fields; rewrite ?Eu; trivial.
Qed.

Ltac wellFormed_known :=
  idtac; match goal with
  | |- runs _ (lightningChain _ _ _) => apply lightningChain_wellFormed
  | |- keeps _ (fireMissile _ _ _) => apply fireMissile_wellFormed
  end.

Lemma handle_wellFormed h ev : keeps keepsWellFormed (handle h ev).
Proof.
  destruct ev; cbn [handle].
  6: { intros s (Hc & Hb & Ha). cbn [modify finalState]. unfold wellFormed.
       destruct (render_stores s) as [-> ->]. now repeat split. }
  all: handler wellFormed_known unfold_handlers; wellFormed_write.
Qed.

Lemma mounted_wellFormed w ht rng : wellFormed (mounted w ht rng).
Proof.
  unfold mounted, unmounted.
  cbv [handleResize initGame bind gets modify setAmmo enqueue finalState].
  unfold wellFormed. fields. repeat split.
  unfold initBatteries, INITIAL_AMMO. repeat constructor; cbn; lia.
Qed.

Lemma run_wellFormed h evs : forall s, wellFormed s -> wellFormed (run h s evs).
Proof.
  unfold run. induction evs as [|ev evs IH]; intros s Hs; [assumption|].
  cbn [fold_left]. apply IH. unfold step. now apply handle_wellFormed.
Qed.

(** X12: in every state a session can reach from the mounted component there are
    six cities and three batteries, each battery holds between 0 and its
    maximal amount of ammunition, and a click never throws. *)
Theorem session_stays_well_formed h w ht rng evs :
  wellFormed (run h (mounted w ht rng) evs) /\
  forall x y, exists s', handle h (Click x y) (run h (mounted w ht rng) evs) = Returned tt s'.
Proof.
  pose proof (run_wellFormed h evs _ (mounted_wellFormed w ht rng)) as W.
  split; [exact W|]. intros x y.
  remember (run h (mounted w ht rng) evs) as s. destruct W as (_ & Hb & _).
  cbv [handle handleCanvasClick bind gets ret].
  destruct (negb (GameState_eqb (gameState s) PLAYING)); [eexists; reflexivity|].
  cbv [fireMissile bind gets ret].
  destruct (negb (GameState_eqb (gameStateRef s) PLAYING) || isPausedRef s);
    [eexists; reflexivity|]. cbv beta.
  destruct (chooseBattery x 0 (batteriesRef s) None infinity) as [[k b]|];
    [|eexists; reflexivity].
  cbv [modify]. fields.
  pose proof (updateAt_length decrementAmmo (batteriesRef s) k) as Hl.
  rewrite Hb in Hl.
  destruct (updateAt k decrementAmmo (batteriesRef s)) as [|b0 [|b1 [|b2 r]]];
    try discriminate Hl.
  cbv [setAmmo enqueue modify Math_random bind]. eexists. reflexivity.
Qed.

(** * Destroyed defences *)

#[export] Instance noRevival_preorder : PreOrder noRevival.
Proof.
  split.
  - intros s. split; apply Forall2_refl_eq; trivial.
  - intros a b c [A1 A2] [B1 B2]. split.
    + eapply Forall2_compose; [|exact A1|exact B1]. cbv beta. auto.
    + eapply Forall2_compose; [|exact A2|exact B2]. cbv beta. auto.
Qed.

Lemma deactivateFirst_noRevival {A : Type} (active : A -> bool)
    (test : A -> bool) (off : A -> A) (l : list A) :
  (forall a, active (off a) = false) ->
  Forall2 (fun a a' => active a' = true -> active a = true) l (deactivateFirst test off l).
Proof.
  intros Hoff. eapply Forall2_impl; [|apply deactivateFirst_pointwise].
  intros a a' [->|[-> _]]; [trivial|]. rewrite Hoff. discriminate.
Qed.

Lemma resizeCities_noRevival w h cities : forall i,
  Forall2 (fun c c' => c_active c' = true -> c_active c = true)
    cities (resizeCities i w h cities).
Proof.
  induction cities as [|c cs IH]; intros i; cbn [resizeCities]; constructor; auto.
Qed.

Lemma resizeBatteries_noRevival w h bs :
  Forall2 (fun b b' => b_active b' = true -> b_active b = true)
    bs (resizeBatteries w h bs).
Proof.
  destruct bs as [|b0 [|b1 [|b2 [|b3 r]]]]; cbn [resizeBatteries];
    try (apply Forall2_refl_eq; trivial).
  repeat constructor; trivial.
Qed.

Lemma updateAt_noRevival (bs : list Battery) : forall k,
  Forall2 (fun b b' => b_active b' = true -> b_active b = true)
    bs (updateAt k decrementAmmo bs).
Proof.
  induction bs as [|b bs IH]; intros k; [destruct k; constructor|].
  destruct k as [|k]; cbn [updateAt]; constructor; auto.
  apply Forall2_refl_eq; trivial.
Qed.

Ltac noRevival_write :=
  unfold noRevival; fields; split;
  first [ apply Forall2_refl_eq; solve [trivial]
        | apply deactivateFirst_noRevival; reflexivity
        | apply resizeCities_noRevival
        | apply resizeBatteries_noRevival ].

Lemma lightningChain_noRevival h nearby :
  forall index, runs noRevival (lightningChain h index nearby).
Proof.
  induction nearby as [|e rest IH]; intros index; cbn [lightningChain].
  - apply runs_ret.
  - apply runs_bind; [|intros; apply IH].
    handler fail unfold_handlers; noRevival_write.
Qed.

Lemma fireMissile_noRevival h x y : keeps noRevival (fireMissile h x y).
Proof.
  intros s. cbv [fireMissile bind gets ret].
  destruct (negb (GameState_eqb (gameStateRef s) PLAYING) || isPausedRef s);
    [reflexivity|]. cbv beta.
  destruct (chooseBattery x 0 (batteriesRef s) None infinity) as [[k b]|];
    [|reflexivity].
  assert (W : noRevival s (set_batteriesRef (updateAt k decrementAmmo (batteriesRef s)) s)).
  { unfold noRevival. fields. split; [apply Forall2_refl_eq; trivial|].
    apply updateAt_noRevival. }
  cbv [modify]. fields.
  destruct (updateAt k decrementAmmo (batteriesRef s)) as [|b0 [|b1 [|b2 r]]] eqn:Eu;
    cbv [throwTypeError setAmmo enqueue modify Math_random bind finalState];
    unfold noRevival in *; revert W; fields; rewrite ?Eu; trivial.
Qed.

Ltac noRevival_known :=
  idtac; match goal with
  | |- runs _ (lightningChain _ _ _) => apply lightningChain_noRevival
  | |- keeps _ (fireMissile _ _ _) => apply fireMissile_noRevival
  end.

Lemma handle_noRevival h ev : ev <> PressStart -> keeps noRevival (handle h ev).
Proof.
  intros Hev. destruct ev; cbn [handle]; [|congruence| | | |].
  5: { intros s. cbn [modify finalState]. unfold noRevival.
       destruct (render_stores s) as [-> ->]. split; apply Forall2_refl_eq; trivial. }
  all: handler noRevival_known unfold_handlers; noRevival_write.
Qed.

(** X13: as long as the start button is not pressed, no event of a session brings
    a destroyed city or battery back: the stores keep their lengths, and each
    defence that is active after the events was active before them. *)
Theorem destroyed_defences_stay_destroyed h s evs :
  Forall (fun ev => ev <> PressStart) evs -> noRevival s (run h s evs).
Proof.
  unfold run. intros Hevs. revert s.
  induction Hevs as [|ev evs Hev _ IH]; intros s; [reflexivity|].
  cbn [fold_left]. etransitivity; [|apply IH].
  unfold step. now apply handle_noRevival.
Qed.

Lemma destroyed_defences_stay_destroyed_witness :
  noRevival lastStand (run exampleHost lastStand [Frame 0; Render; Click 300 200; Resize 640 480]).
Proof.
  apply (destroyed_defences_stay_destroyed exampleHost lastStand
           [Frame 0; Render; Click 300 200; Resize 640 480]).
  repeat constructor; discriminate.
Defined.

(** * Resizing the window *)

(** X14: in a state with six cities, three batteries and a canvas, a resize
    puts the cities and the batteries where [initGame] puts them in a window
    of the new size, keeps their ids, their flags and the ammunition, and
    leaves the enemies and the missiles, hence their targets, where they
    were. *)
Theorem resize_moves_defences_only h w ht cv s :
  wellFormed s -> canvasRef s = Some cv ->
  exists s',
    handle h (Resize w ht) s = Returned tt s' /\
    canvasRef s' = Some (mkCanvas w ht) /\
    map cityPlace (citiesRef s') = map cityPlace (initCities 0 w ht cityPositions) /\
    map batteryPlace (batteriesRef s') = map batteryPlace (initBatteries w ht) /\
    map cityKept (citiesRef s') = map cityKept (citiesRef s) /\
    map batteryKept (batteriesRef s') = map batteryKept (batteriesRef s) /\
    enemiesRef s' = enemiesRef s /\ missilesRef s' = missilesRef s.
Proof.
  intros (Hc & Hb & _) Hcv.
  cbv [handle handleResize bind modify gets]. fields. rewrite Hcv. cbv beta iota.
  eexists. split; [reflexivity|]. fields.
  destruct (citiesRef s) as [|c0 [|c1 [|c2 [|c3 [|c4 [|c5 [|c6 r]]]]]]];
    try discriminate Hc.
  destruct (batteriesRef s) as [|b0 [|b1 [|b2 [|b3 r]]]]; try discriminate Hb.
  repeat split.
Qed.

Lemma resize_moves_defences_only_witness :
  exists s',
    handle exampleHost (Resize 640 480) playing = Returned tt s' /\
    canvasRef s' = Some (mkCanvas 640 480) /\
    map cityPlace (citiesRef s') = map cityPlace (initCities 0 640 480 cityPositions) /\
    map batteryPlace (batteriesRef s') = map batteryPlace (initBatteries 640 480) /\
    map cityKept (citiesRef s') = map cityKept (citiesRef playing) /\
    map batteryKept (batteriesRef s') = map batteryKept (batteriesRef playing) /\
    enemiesRef s' = enemiesRef playing /\ missilesRef s' = missilesRef playing.
Proof.
  apply (resize_moves_defences_only exampleHost 640 480 (mkCanvas 800 600) playing).
  - unfold wellFormed. vm_compute. repeat split; repeat constructor; discriminate.
  - vm_compute. reflexivity.
Defined.

(** * Starting and pausing *)

Lemma fold_stores l : forall s, stores (fold_left applyUpdate l s) = stores s.
Proof.
  induction l as [|u l IH]; intros s; [reflexivity|].
  cbn [fold_left]. rewrite IH. destruct u; reflexivity.
Qed.

Lemma applyQueue_keeps_stores s : stores (applyQueue s) = stores s.
Proof.
  destruct (applyQueue_cases s) as [->|(u & rest & v & _ & _ & ->)];
    now rewrite fold_stores.
Qed.

Lemma render_keeps_stores s : stores (render s) = stores s.
Proof.
  rewrite <- (applyQueue_keeps_stores s). unfold render.
  repeat match goal with |- context [if ?b then _ else _] => destruct b end;
    reflexivity.
Qed.

Lemma render_ammo s : ammo (render s) = ammo (applyQueue s).
Proof.
  unfold render.
  repeat match goal with |- context [if ?b then _ else _] => destruct b end;
    reflexivity.
Qed.

Lemma fold_ammo_last l a g : forall s,
  ammo (fold_left applyUpdate (l ++ [SetAmmo a; SetScore 0; SetGameState g]) s) = a.
Proof. intros s. rewrite fold_left_app. reflexivity. Qed.

Lemma applyQueue_ammo_last l a g s :
  pending s = l ++ [SetAmmo a; SetScore 0; SetGameState g] ->
  ammo (applyQueue s) = a.
Proof.
  intros Hp.
  destruct (applyQueue_cases s) as [->|(u & rest & v & Hq & _ & ->)].
  - rewrite Hp. apply fold_ammo_last.
  - rewrite Hp in Hq. destruct l as [|u' l]; [discriminate Hq|].
    cbn [app] in Hq. inversion Hq; subst. apply fold_ammo_last.
Qed.

Lemma fold_isPausedRef l : forall s,
  isPausedRef (fold_left applyUpdate l s) = isPausedRef s.
Proof.
  induction l as [|u l IH]; intros s; [reflexivity|].
  cbn [fold_left]. rewrite IH. destruct u; reflexivity.
Qed.

Lemma applyQueue_isPausedRef s : isPausedRef (applyQueue s) = isPausedRef s.
Proof.
  destruct (applyQueue_cases s) as [->|(u & rest & v & _ & _ & ->)];
    now rewrite fold_isPausedRef.
Qed.

Lemma render_isPaused s :
  isPaused (render s) = isPaused (applyQueue s) /\
  isPausedRef (render s) =
    (if Bool.eqb (isPaused (applyQueue s)) (isPaused s)
     then isPausedRef s else isPaused (applyQueue s)).
Proof.
  pose proof (applyQueue_isPausedRef s) as Hr.
  unfold render. cbv zeta.
  set (f := applyQueue s) in *.
  destruct (score (set_eagerState None (set_pending [] f)) =? score s)%Z; fields;
    destruct (GameState_eqb (gameState f) (gameState s)) eqn:E; fields;
    destruct (Bool.eqb (isPaused f) (isPaused s)) eqn:E'; fields; rewrite ?E; fields;
    rewrite ?Hr; split; reflexivity.
Qed.

Lemma fold_isPaused_last l b : forall s,
  isPaused (fold_left applyUpdate (l ++ [SetIsPaused b]) s) = b.
Proof. intros s. rewrite fold_left_app. reflexivity. Qed.

Lemma applyQueue_isPaused_last l b s :
  pending s = l ++ [SetIsPaused b] -> isPaused (applyQueue s) = b.
Proof.
  intros Hp.
  destruct (applyQueue_cases s) as [->|(u & rest & v & Hq & _ & ->)].
  - rewrite Hp. apply fold_isPaused_last.
  - rewrite Hp in Hq. destruct l as [|u' l]; [discriminate Hq|].
    cbn [app] in Hq. inversion Hq; subst. apply fold_isPaused_last.
Qed.

Lemma press_start h s :
  gameState s <> PLAYING ->
  let s0 := step h s PressStart in
  pending s0 = pending s ++ [SetAmmo INITIAL_AMMO; SetScore 0; SetGameState PLAYING] /\
  gameState s0 = gameState s /\ scoreRef s0 = 0%Z /\
  stores s0 = ([], [], [], initCities 0 (innerWidth s) (innerHeight s) cityPositions,
               initBatteries (innerWidth s) (innerHeight s), []).
Proof.
  intros Hg.
  assert (E : negb (GameState_eqb (gameState s) PLAYING) = true)
    by (destruct (gameState s); try reflexivity; congruence).
  cbv zeta. unfold step.
  cbv [handle bind gets]. rewrite E.
  cbv [when startGame initGame setAmmo setGameState enqueue modify bind gets finalState].
  unfold stores. fields. rewrite <- !app_assoc. cbn [app]. repeat split.
Qed.

(** X15: pressing start outside a game and rendering starts a fresh game: the
    state and its mirror are PLAYING, a frame is requested, the score and its
    mirror are 0, the ammunition shown is the initial one, and the stores
    hold the six cities and three batteries of [initGame] and nothing else,
    whatever was queued before. *)
Theorem start_gives_a_fresh_game h s :
  gameState s <> PLAYING ->
  let s' := run h s [PressStart; Render] in
  gameState s' = PLAYING /\ gameStateRef s' = PLAYING /\ requestRef s' = true /\
  score s' = 0%Z /\ scoreRef s' = 0%Z /\ ammo s' = INITIAL_AMMO /\ pending s' = [] /\
  stores s' = ([], [], [], initCities 0 (innerWidth s) (innerHeight s) cityPositions,
               initBatteries (innerWidth s) (innerHeight s), []).
Proof.
  intros Hg. cbv zeta. unfold run. cbn [fold_left].
  destruct (press_start h s Hg) as (Hp & Hg0 & Hr0 & Hst).
  set (s0 := step h s PressStart) in *.
  change (step h s0 Render) with (render s0).
  assert (Hl : lastGameState (pending s0) (gameState s0) = PLAYING)
    by (rewrite Hp, lastGameState_app; reflexivity).
  assert (Hne : GameState_eqb PLAYING (gameState s0) = false)
    by (rewrite Hg0; destruct (gameState s); try reflexivity; congruence).
  destruct (render_refs s0) as [E1 E2]. rewrite Hl, Hne in E1, E2.
  assert (Hs : score (render s0) = 0%Z)
    by (rewrite render_score; exact (applyQueue_reset _ _ _ s0 Hp)).
  repeat split.
  - now rewrite render_gameState.
  - exact E1.
  - exact E2.
  - exact Hs.
  - destruct (render_scoreRef s0) as [E|E]; rewrite E; [|exact Hs].
    now rewrite applyQueue_scoreRef.
  - rewrite render_ammo. exact (applyQueue_ammo_last _ _ _ s0 Hp).
  - apply render_pending.
  - now rewrite render_keeps_stores.
Qed.

Lemma start_gives_a_fresh_game_witness :
  let s' := run exampleHost gameOver [PressStart; Render] in
  gameState s' = PLAYING /\ gameStateRef s' = PLAYING /\ requestRef s' = true /\
  score s' = 0%Z /\ scoreRef s' = 0%Z /\ ammo s' = INITIAL_AMMO /\ pending s' = [] /\
  stores s' = ([], [], [], initCities 0 (innerWidth gameOver) (innerHeight gameOver)
                             cityPositions,
               initBatteries (innerWidth gameOver) (innerHeight gameOver), []).
Proof.
  apply (start_gives_a_fresh_game exampleHost gameOver).
  vm_compute. discriminate.
Defined.

(** X16: pressing the pause button during a game and rendering flips the pause
    flag and its mirror; once the game is paused that way, a click fires
    nothing and changes nothing. *)
Theorem pause_takes_effect_after_render h s :
  gameState s = PLAYING ->
  let s' := run h s [PressPause; Render] in
  isPaused s' = negb (isPaused s) /\ isPausedRef s' = negb (isPaused s) /\
  (isPaused s = false -> forall x y, handle h (Click x y) s' = Returned tt s').
Proof.
  intros Hg. cbv zeta. unfold run. cbn [fold_left].
  assert (E0 : step h s PressPause =
               set_pending (pending s ++ [SetIsPaused (negb (isPaused s))]) s).
  { unfold step. cbv [handle togglePause bind gets]. rewrite Hg.
    reflexivity. }
  rewrite E0. set (s0 := set_pending _ s).
  change (step h s0 Render) with (render s0).
  destruct (render_isPaused s0) as [E1 E2].
  assert (Hf : isPaused (applyQueue s0) = negb (isPaused s)).
  { apply (applyQueue_isPaused_last (pending s)). reflexivity. }
  rewrite Hf in E1, E2.
  assert (Hi : isPaused s0 = isPaused s) by reflexivity. rewrite Hi in E2.
  assert (Hb : Bool.eqb (negb (isPaused s)) (isPaused s) = false)
    by (now destruct (isPaused s)).
  rewrite Hb in E2.
  split; [exact E1|]. split; [exact E2|].
  intros Hp x y. rewrite Hp in E2. cbn [negb] in E2.
  cbv [handle handleCanvasClick bind gets ret].
  destruct (negb (GameState_eqb (gameState (render s0)) PLAYING)); [reflexivity|].
  cbv [fireMissile bind gets ret]. rewrite E2, orb_true_r. reflexivity.
Qed.

Lemma pause_takes_effect_after_render_witness :
  let s' := run exampleHost playing [PressPause; Render] in
  isPaused s' = negb (isPaused playing) /\ isPausedRef s' = negb (isPaused playing) /\
  (isPaused playing = false ->
   forall x y, handle exampleHost (Click x y) s' = Returned tt s').
Proof.
  apply (pause_takes_effect_after_render exampleHost playing).
  vm_compute. reflexivity.
Defined.

(** * Particles *)

(** X17: [spawnParticle] draws four values of [Math.random] and pushes one
    particle at the centre of the explosion; with its life of 1, lowered by
    0.02 per frame, the particle is kept by 49 frames and removed by the
    50th. *)
Theorem particle_lasts_fifty_frames h time exp s :
  exists p s',
    spawnParticle h time exp s = Returned tt s' /\
    particlesRef s' = particlesRef s ++ [p] /\
    (p_x p, p_y p) = (x_x exp, x_y exp) /\
    randomUsed s' = (randomUsed s + 4)%nat /\
    onlyParticles s s' /\
    particleFrames 100 p = 49%nat.
Proof.
  cbv [spawnParticle bind Math_random pushParticle modify]. fields.
  eexists. eexists. split; [reflexivity|]. fields.
  repeat split.
  now rewrite Nat.add_comm.
Qed.

(** * The ammunition shown *)

#[export] Instance keepsAmmoShown_preorder : PreOrder keepsAmmoShown.
Proof. split; [intros s Hs; exact Hs|intros a b c Hab Hbc Ha; auto]. Qed.

Lemma ammoOf_map bs bs' : map b_ammo bs' = map b_ammo bs -> ammoOf bs' = ammoOf bs.
Proof.
  intros E.
  destruct bs as [|b0 [|b1 [|b2 r]]], bs' as [|c0 [|c1 [|c2 r']]];
    try discriminate E; try reflexivity.
  cbn [map] in E. inversion E. cbn [ammoOf]. congruence.
Qed.

Lemma deactivateFirst_ammo test bs :
  map b_ammo (deactivateFirst test batteryOff bs) = map b_ammo bs.
Proof.
  induction bs as [|b bs IH]; [reflexivity|].
  cbn [deactivateFirst]. destruct (test b); cbn [map]; [reflexivity|now rewrite IH].
Qed.

Lemma resizeBatteries_ammo w h bs : map b_ammo (resizeBatteries w h bs) = map b_ammo bs.
Proof. now destruct bs as [|b0 [|b1 [|b2 [|b3 r]]]]. Qed.

Lemma lastAmmo_snoc l u a :
  lastAmmo (l ++ [u]) a = match u with SetAmmo a' => a' | _ => lastAmmo l a end.
Proof. unfold lastAmmo. rewrite fold_left_app. now destruct u. Qed.

Lemma fold_ammo l : forall s, ammo (fold_left applyUpdate l s) = lastAmmo l (ammo s).
Proof.
  induction l as [|u l IH]; intros s; [reflexivity|].
  cbn [fold_left lastAmmo]. rewrite IH. destruct u; reflexivity.
Qed.

Ltac ammoShown_write :=
  unfold keepsAmmoShown, ammoShown; fields;
  rewrite ?lastAmmo_snoc;
  rewrite ?(ammoOf_map _ _ (deactivateFirst_ammo _ _)),
          ?(ammoOf_map _ _ (resizeBatteries_ammo _ _ _));
  solve [trivial].

Lemma lightningChain_ammoShown h nearby :
  forall index, runs keepsAmmoShown (lightningChain h index nearby).
Proof.
  induction nearby as [|e rest IH]; intros index; cbn [lightningChain].
  - apply runs_ret.
  - apply runs_bind; [|intros; apply IH].
    handler fail unfold_handlers; ammoShown_write.
Qed.

Lemma initGame_ammoShown : runs keepsAmmoShown initGame.
Proof.
  intros s. eexists tt, _. split.
  - cbv [initGame bind gets modify setAmmo enqueue]. reflexivity.
  - intros _. unfold ammoShown. fields. rewrite !lastAmmo_snoc. reflexivity.
Qed.

Lemma fireMissile_ammoShown h x y : keeps keepsAmmoShown (fireMissile h x y).
Proof.
  intros s Hs. cbv [fireMissile bind gets ret].
  destruct (negb (GameState_eqb (gameStateRef s) PLAYING) || isPausedRef s);
    [exact Hs|]. cbv beta.
  destruct (chooseBattery x 0 (batteriesRef s) None infinity) as [[k b]|];
    [|exact Hs].
  cbv [modify]. fields.
  pose proof (updateAt_length decrementAmmo (batteriesRef s) k) as Hl.
  assert (H3 : (3 <= List.length (batteriesRef s))%nat).
  { unfold ammoShown in Hs.
    destruct (batteriesRef s) as [|b0 [|b1 [|b2 r]]]; try discriminate Hs.
    cbn [List.length]. lia. }
  destruct (updateAt k decrementAmmo (batteriesRef s)) as [|b0 [|b1 [|b2 r]]] eqn:Eu;
    cbn [List.length] in Hl; try lia.
  cbv [setAmmo enqueue modify Math_random bind finalState].
  unfold ammoShown. fields. rewrite lastAmmo_snoc. reflexivity.
Qed.

Ltac ammoShown_known :=
  idtac; match goal with
  | |- runs _ (lightningChain _ _ _) => apply lightningChain_ammoShown
  | |- runs _ initGame => apply initGame_ammoShown
  | |- keeps _ initGame => apply runs_keeps, initGame_ammoShown
  | |- keeps _ (fireMissile _ _ _) => apply fireMissile_ammoShown
  end.

Lemma applyQueue_ammo s : ammo (applyQueue s) = lastAmmo (pending s) (ammo s).
Proof.
  destruct (applyQueue_cases s) as [->|(u & rest & v & Hp & _ & ->)];
    rewrite fold_ammo; [reflexivity|].
  now rewrite Hp.
Qed.

Lemma render_ammoShown s : ammoShown s -> ammoShown (render s).
Proof.
  unfold ammoShown. intros Hs.
  destruct (render_stores s) as [_ ->].
  now rewrite render_pending, render_ammo, applyQueue_ammo.
Qed.

Lemma handle_ammoShown h ev : keeps keepsAmmoShown (handle h ev).
Proof.
  destruct ev; cbn [handle].
  6: { intros s Hs. cbn [modify finalState]. now apply render_ammoShown. }
  all: handler ammoShown_known unfold_handlers; ammoShown_write.
Qed.

Lemma mounted_ammoShown w ht rng : ammoShown (mounted w ht rng).
Proof.
  unfold mounted, unmounted.
  cbv [handleResize initGame bind gets modify setAmmo enqueue finalState].
  unfold ammoShown. fields. reflexivity.
Qed.

Lemma run_ammoShown h evs : forall s, ammoShown s -> ammoShown (run h s evs).
Proof.
  unfold run. induction evs as [|ev evs IH]; intros s Hs; [assumption|].
  cbn [fold_left]. apply IH. unfold step. now apply handle_ammoShown.
Qed.

(** X18: in every state a session can reach from the mounted component, the
    ammunition the next render shows is the ammunition of the three
    batteries: whenever the component has rendered, the counters shown are
    those of the batteries. *)
Theorem shown_ammo_is_battery_ammo h w ht rng evs :
  ammoShown (run h (mounted w ht rng) evs) /\
  ammoOf (batteriesRef (run h (mounted w ht rng) (evs ++ [Render]))) =
    Some (ammo (run h (mounted w ht rng) (evs ++ [Render]))).
Proof.
  pose proof (run_ammoShown h evs _ (mounted_ammoShown w ht rng)) as A.
  split; [exact A|].
  unfold run in *. rewrite fold_left_app. cbn [fold_left].
  set (s := fold_left (step h) evs (mounted w ht rng)) in *.
  change (step h s Render) with (render s).
  apply render_ammoShown in A. unfold ammoShown in A.
  now rewrite render_pending in A.
Qed.

(** * The number of enemies *)

#[export] Instance fewerEnemies_preorder : PreOrder fewerEnemies.
Proof.
  split; [intros s; unfold fewerEnemies; lia|].
  intros a b c Hab Hbc. unfold fewerEnemies in *. lia.
Qed.

Ltac fewerEnemies_write :=
  unfold fewerEnemies; fields;
  first [ apply Nat.le_refl | apply filter_length_le | apply Nat.le_0_l ].

Lemma lightningChain_fewer h nearby :
  forall index, runs fewerEnemies (lightningChain h index nearby).
Proof.
  induction nearby as [|e rest IH]; intros index; cbn [lightningChain].
  - apply runs_ret.
  - apply runs_bind; [|intros; apply IH].
    handler fail unfold_handlers; unfold killById; fewerEnemies_write.
Qed.

Lemma blastEnemies_fewer exp radius : runs fewerEnemies (blastEnemies exp radius).
Proof.
  intros s. rewrite blastEnemies_run. eexists tt, _. split; [reflexivity|].
  fewerEnemies_write.
Qed.

(** A [filter] whose callback always returns keeps at most as many elements
    as it is given. *)
Lemma filterM_length {A : Type} (f : A -> M (option A)) (l : list A) :
  (forall a s, exists r s', f a s = Returned r s') ->
  forall s, exists kept s',
    filterM f l s = Returned kept s' /\ (List.length kept <= List.length l)%nat.
Proof.
  intros Hf. induction l as [|a l IH]; intros s; cbn [filterM].
  - exists [], s. split; [reflexivity|apply Nat.le_refl].
  - destruct (Hf a s) as (r & s1 & E1). destruct (IH s1) as (kept & s2 & E2 & Hk).
    unfold bind at 1. rewrite E1. unfold bind at 1. rewrite E2.
    destruct r as [a'|]; eexists _, _; (split; [reflexivity|]); cbn [List.length]; lia.
Qed.

Lemma enemyStep_returns h enemy s : exists r s', enemyStep h enemy s = Returned r s'.
Proof.
  destruct (1 <=? e_progress (advanceEnemy enemy)) eqn:E.
  - rewrite (enemyStep_impact h enemy s E). eexists _, _. reflexivity.
  - rewrite (enemyStep_flight h enemy s E). eexists _, _. reflexivity.
Qed.

Lemma enemyPhase_fewer h : runs fewerEnemies (enemyPhase h).
Proof.
  intros s. unfold enemyPhase. cbv [bind gets].
  destruct (filterM_length (enemyStep h) (enemiesRef s) (enemyStep_returns h) s)
    as (kept & s' & E & Hk).
  rewrite E. eexists tt, _. split; [reflexivity|].
  unfold fewerEnemies. fields. exact Hk.
Qed.

Ltac fewerEnemies_known :=
  idtac; match goal with
  | |- runs _ (lightningChain _ _ _) => apply lightningChain_fewer
  | |- runs _ (blastEnemies _ _) => apply blastEnemies_fewer
  | |- runs _ (enemyPhase _) => apply enemyPhase_fewer
  end.

Ltac unfold_phases :=
  unfold missilePhase, missileStep, explosionPhase, explosionStep, particlePhase,
    checkWinLoss, requestAnimationFrame, drawRocket, droneSubBomb, droneFinalBurst,
    rareExplosion, lightningStrike, normalExplosion, spawnParticle, rareClear,
    pushExplosion, pushParticle, setScore, setGameState, enqueue.

Lemma afterSpawn_fewer h time canvas :
  runs fewerEnemies
    (enemyPhase h ;; missilePhase h canvas ;; explosionPhase h time ;;
     particlePhase ;; checkWinLoss ;; requestAnimationFrame).
Proof. handler fewerEnemies_known unfold_phases; fewerEnemies_write. Qed.

Lemma spawnPhase_one_more h s :
  (List.length (enemiesRef (finalState (spawnPhase h s)))
   <= S (List.length (enemiesRef s)))%nat.
Proof.
  cbv [spawnPhase bind Math_random gets]. fields.
  match goal with |- context [when ?b _] => destruct b end; cbn [when].
  - cbv [spawnEnemy bind gets ret Math_random modify throwTypeError]. fields.
    destruct (activeTargets _) as [|t ts]; [cbn [finalState]; fields; lia|].
    fields.
    match goal with |- context [floorIndex ?v ?n] => destruct (floorIndex v n) as [k|] end.
    + destruct (nth_error (t :: ts) k) as [[tx ty]|]; cbn [finalState]; fields;
        rewrite ?length_app; cbn [List.length]; lia.
    + cbn [finalState]. fields. lia.
  - cbn [ret finalState]. fields. lia.
Qed.

(** X19: a frame adds at most one enemy to the store, the one [spawnEnemy] may
    push: no other part of [update] creates an enemy. *)
Theorem frame_adds_at_most_one_enemy h time s :
  (List.length (enemiesRef (step h s (Frame time))) <= S (List.length (enemiesRef s)))%nat.
Proof.
  unfold step. cbv [handle animationFrame bind gets].
  destruct (requestRef s); cbn [when]; [|cbn [ret finalState]; lia].
  cbv [bind modify update gets]. fields.
  destruct (negb (GameState_eqb (gameStateRef s) PLAYING)); [cbn [ret finalState]; fields; lia|].
  cbv beta. fields.
  destruct (isPausedRef s); [cbv [requestAnimationFrame modify finalState]; fields; lia|].
  cbv beta. fields.
  destruct (canvasRef s) as [canvas|]; [|cbn [ret finalState]; fields; lia].
  unfold simulate. unfold bind at 1.
  pose proof (spawnPhase_one_more h (set_requestRef false s)) as H1. revert H1. fields.
  destruct (spawnPhase h (set_requestRef false s)) as [[] s1|s1]; cbn [finalState];
    [|trivial].
  intros H1. destruct (afterSpawn_fewer h time canvas s1) as ([] & s2 & E & H2).
  rewrite E. cbn [finalState]. unfold fewerEnemies in H2. lia.
Qed.
